(** * Affine fusion and structural compaction (bert/modeling/mixer.py)

    A shallow embedding of [LinearMixer], [get_packed_bert_config] and
    [CompactorMixer.mix].  Tensors are lists over a commutative semiring of
    scalars (exact arithmetic); module objects live in a store addressed by
    locations, and the model is the tree of slots that refer to them. *)

From Stdlib Require Import ZArith QArith List Ring Lia.
From stdpp Require Import base option list gmap strings.

(** ** Scalars *)

Class Scalar (R : Type) := {
  rO : R;
  rI : R;
  radd : R -> R -> R;
  rmul : R -> R -> R;
}.

#[export] Instance Z_Scalar : Scalar Z :=
  {| rO := 0%Z; rI := 1%Z; radd := Z.add; rmul := Z.mul |}.

(** ** torch.nn.Linear

    [weight] has shape [(out_features, in_features)] and is kept as the list
    of its rows; [bias], when present, has shape [(out_features)]. *)

Record Linear (R : Type) := mkLinear {
  in_features : nat;
  out_features : nat;
  weight : list (list R);
  bias : option (list R);
}.
Arguments mkLinear {R} _ _ _ _.
Arguments in_features {R} _.
Arguments out_features {R} _.
Arguments weight {R} _.
Arguments bias {R} _.

Record LinearMixer (R : Type) := mkLinearMixer { linear : Linear R }.
Arguments mkLinearMixer {R} _.
Arguments linear {R} _.

(** The value held by the local [new_bias] of [merge]: the Python integer
    [0] it starts from, or a tensor. *)
Inductive pyval (R : Type) :=
| PyZero
| PyTensor (v : list R).
Arguments PyZero {R}.
Arguments PyTensor {R} _.

Section LinearAlgebra.
Context {R : Type} `{Scalar R}.

Definition vadd (u v : list R) : list R := zip_with radd u v.

Definition vscale (c : R) (u : list R) : list R := map (rmul c) u.

Definition dot (u v : list R) : R := foldr radd rO (zip_with rmul u v).

(** Column [j] of a matrix given by rows. *)
Definition col (j : nat) (A : list (list R)) : list R :=
  map (fun r => nth j r rO) A.

(** [B @ A] for [A] with [n] columns: entry [(i, j)] is the product of row
    [i] of [B] with column [j] of [A]. *)
Definition matmul (n : nat) (B A : list (list R)) : list (list R) :=
  map (fun rb => map (fun j => dot rb (col j A)) (seq 0 n)) B.

(** [W @ x] for a vector [x]. *)
Definition matvec (W : list (list R)) (x : list R) : list R :=
  map (fun r => dot r x) W.

(** [t[indices]] along the first dimension; an index past the end raises. *)
Definition index_select {A : Type} (t : list A) (indices : list nat)
  : option (list A) :=
  mapM (fun i => t !! i) indices.

Definition has_bias (l : Linear R) : bool :=
  match bias l with Some _ => true | None => false end.

(** The shape invariant every [nn.Linear] is constructed with. *)
Definition Linear_wf (l : Linear R) : Prop :=
  length (weight l) = out_features l /\
  Forall (fun r => length r = in_features l) (weight l) /\
  (forall b, bias l = Some b -> length b = out_features l).

(** [nn.Linear.forward] on one input vector: [W x + b]. *)
Definition forward (l : Linear R) (x : list R) : option (list R) :=
  if decide (length x = in_features l) then
    Some (match bias l with
          | Some b => vadd (matvec (weight l) x) b
          | None => matvec (weight l) x
          end)
  else None.

(** [new_bias + t] where [new_bias] is the integer [0] or a tensor. *)
Definition py_add (acc : pyval R) (t : list R) : pyval R :=
  match acc with
  | PyZero => PyTensor (map (radd rO) t)
  | PyTensor u => PyTensor (vadd u t)
  end.

(** [LinearMixer.merge].  The product [other.weight @ self.linear.weight]
    raises unless the inner dimensions agree; weights have shape
    [(out_features, in_features)]. *)
Definition merge (self : LinearMixer R) (other : Linear R)
  : option (LinearMixer R) :=
  let in_features_ := in_features (linear self) in
  let out_features_ := out_features other in
  let bias_ := has_bias (linear self) && has_bias other in
  if decide (in_features other = out_features (linear self)) then
    let new_weight := matmul in_features_ (weight other) (weight (linear self)) in
    let new_bias := PyZero in
    let new_bias :=
      match bias (linear self) with
      | Some b => py_add new_bias (matvec (weight other) b)
      | None => new_bias
      end in
    let new_bias :=
      match bias other with
      | Some b => py_add new_bias b
      | None => new_bias
      end in
    if bias_ then
      match new_bias with
      | PyTensor v =>
          Some (mkLinearMixer (mkLinear in_features_ out_features_ new_weight (Some v)))
      | PyZero => None
      end
    else
      Some (mkLinearMixer (mkLinear in_features_ out_features_ new_weight None))
  else None.

(** [LinearMixer.merge_mask]. *)
Definition merge_mask (self : LinearMixer R) (indices : list nat)
  : option (LinearMixer R) :=
  let in_features_ := in_features (linear self) in
  let out_features_ := length indices in
  new_weight ← index_select (weight (linear self)) indices;
  match bias (linear self) with
  | Some b =>
      new_bias ← index_select b indices;
      Some (mkLinearMixer (mkLinear in_features_ out_features_ new_weight (Some new_bias)))
  | None =>
      Some (mkLinearMixer (mkLinear in_features_ out_features_ new_weight None))
  end.

Definition unwrap (self : LinearMixer R) : Linear R := linear self.

(** The transform [merge] builds, in closed form. *)
Definition merged (A B : Linear R) : Linear R :=
  mkLinear (in_features A) (out_features B)
    (matmul (in_features A) (weight B) (weight A))
    (match bias A, bias B with
     | Some a, Some b => Some (vadd (map (radd rO) (matvec (weight B) a)) b)
     | _, _ => None
     end).

(** Row [i] of the selection matrix for [indices] over [d] positions has a
    one at column [indices[i]] and zeros elsewhere. *)
Definition one_hot (d i : nat) : list R :=
  map (fun j => if decide (j = i) then rI else rO) (seq 0 d).

Definition SelectionMatrix (d : nat) (indices : list nat) : Linear R :=
  mkLinear d (length indices) (map (one_hot d) indices) None.

End LinearAlgebra.

(** ** Feature masks, compactors and wrapped modules (bert/modeling/compactor.py) *)

(** The test "gate exceeds the drop threshold" on scalars. *)
Class Exceeds (R : Type) := exceeds : R -> R -> bool.

#[export] Instance Z_Exceeds : Exceeds Z := fun g t => Z.ltb t g.

Record Mask (R : Type) := mkMask {
  gate : list R;
  drop_threshold : R;
}.
Arguments mkMask {R} _ _.
Arguments gate {R} _.
Arguments drop_threshold {R} _.

Record Compactor (R : Type) := mkCompactor { probe : Linear R }.
Arguments mkCompactor {R} _.
Arguments probe {R} _.

(** The side argument of [Compactor.extract]: "input" or "output". *)
Inductive side := Input | Output.

Record LayerNormWithCompactor (R : Type) := mkLayerNormWithCompactor {
  norm_weight : list R;
  norm_bias : list R;
  norm_mask : Mask R;
  in_comp : Compactor R;
  out_comp : Compactor R;
}.
Arguments mkLayerNormWithCompactor {R} _ _ _ _ _.
Arguments norm_weight {R} _.
Arguments norm_bias {R} _.
Arguments norm_mask {R} _.
Arguments in_comp {R} _.
Arguments out_comp {R} _.

(** What [LayerNormWithCompactor.extract] returns: a normalization over
    the kept features only. *)
Record PackedLayerNorm (R : Type) := mkPackedLayerNorm {
  packed_size : nat;
  packed_weight : list R;
  packed_bias : list R;
}.
Arguments mkPackedLayerNorm {R} _ _ _.
Arguments packed_size {R} _.
Arguments packed_weight {R} _.
Arguments packed_bias {R} _.

(** [LinearWithCompactorAfter] and [LinearWithCompactorBefore]: a base
    transform, its mask and a compactor on one side. *)
Record LinearWithCompactor (R : Type) := mkLinearWithCompactor {
  lc_mask : Mask R;
  lc_compactor : Compactor R;
  lc_linear : Linear R;
}.
Arguments mkLinearWithCompactor {R} _ _ _.
Arguments lc_mask {R} _.
Arguments lc_compactor {R} _.
Arguments lc_linear {R} _.

Record LinearWithMaskBefore (R : Type) := mkLinearWithMaskBefore {
  lm_mask : Mask R;
  lm_linear : Linear R;
}.
Arguments mkLinearWithMaskBefore {R} _ _.
Arguments lm_mask {R} _.
Arguments lm_linear {R} _.

Section CompactorPrimitives.
Context {R : Type} `{Scalar R} `{Exceeds R}.

Fixpoint parse_from (i : nat) (t : R) (gs : list R) : list R * list nat :=
  match gs with
  | [] => ([], [])
  | g :: gs' =>
      let '(values, indices) := parse_from (S i) t gs' in
      if exceeds g t then (g :: values, i :: indices) else (values, indices)
  end.

(** Modelled from the spec: [Mask.parse] of compactor.py, which is not
    among the sources.  It returns [(values, indices)]: the ascending
    positions of the features whose gate exceeds the drop threshold, and
    the gates at those positions. *)
Definition parse (m : Mask R) : list R * list nat :=
  parse_from 0 (drop_threshold m) (gate m).

(** [w * values[:, None]]: row [k] multiplied by [values[k]]. *)
Definition scale_rows (values : list R) (w : list (list R)) : list (list R) :=
  zip_with vscale values w.

(** [w * values]: column [k] multiplied by [values[k]]. *)
Definition scale_cols (values : list R) (w : list (list R)) : list (list R) :=
  map (fun r => zip_with rmul r values) w.

(** [w[:, indices]]. *)
Definition select_cols (w : list (list R)) (indices : list nat)
  : option (list (list R)) :=
  mapM (fun r => index_select r indices) w.

(** Modelled from the spec: [Compactor.extract] of compactor.py.  On the
    "output" side it selects the rows of the compactor's weight at
    [indices] and its bias entries, and multiplies each selected row and
    bias entry by the matching entry of [values] when these are given: a
    [D -> K] transform.  On the "input" side it selects the columns at
    [indices]: a [K -> D] transform; the spec gives no use of [values]
    there, and the bias stays as it is. *)
Definition Compactor_extract (c : Compactor R) (s : side)
    (indices : list nat) (values : option (list R)) : option (Linear R) :=
  let l := probe c in
  match s with
  | Output =>
      rows ← index_select (weight l) indices;
      b ← match bias l with
          | Some b => Some <$> index_select b indices
          | None => Some None
          end;
      match values with
      | Some vs =>
          if decide (length vs = length indices) then
            Some (mkLinear (in_features l) (length indices)
                    (scale_rows vs rows) (zip_with rmul vs <$> b))
          else None
      | None => Some (mkLinear (in_features l) (length indices) rows b)
      end
  | Input =>
      cols ← select_cols (weight l) indices;
      Some (mkLinear (length indices) (out_features l) cols (bias l))
  end.

(** Modelled from the spec: [LayerNormWithCompactor.extract], the
    normalization restricted to the kept features. *)
Definition LayerNorm_extract (n : LayerNormWithCompactor R)
    (indices : list nat) : option (PackedLayerNorm R) :=
  w ← index_select (norm_weight n) indices;
  b ← index_select (norm_bias n) indices;
  Some (mkPackedLayerNorm (length indices) w b).

(** Modelled from the spec: [extract()] of the compactor-wrapped linears
    unwraps to the bare base transform. *)
Definition LinearWithCompactor_extract (m : LinearWithCompactor R) : Linear R :=
  lc_linear m.

(** Modelled from the spec: [LinearWithMaskBefore.extract], the base
    transform restricted on its input side to the columns at [indices],
    column [k] scaled by [values[k]]. *)
Definition LinearWithMaskBefore_extract (m : LinearWithMaskBefore R)
    (indices : list nat) (values : list R) : option (Linear R) :=
  let l := lm_linear m in
  cols ← select_cols (weight l) indices;
  if decide (length values = length indices) then
    Some (mkLinear (length indices) (out_features l)
            (scale_cols values cols) (bias l))
  else None.

End CompactorPrimitives.

(** ** The object store and the model tree *)

(** A location is a position in the store. *)
Abbreviation loc := nat.

(** The module objects the compaction meets. *)
Inductive Module (R : Type) :=
| MLinear (l : Linear R)
| MLayerNormWithCompactor (n : LayerNormWithCompactor R)
| MLinearWithCompactorAfter (m : LinearWithCompactor R)
| MLinearWithCompactorBefore (m : LinearWithCompactor R)
| MLinearWithMaskBefore (m : LinearWithMaskBefore R)
| MPackedLayerNorm (n : PackedLayerNorm R)
| MSequential (children : list loc).
Arguments MLinear {R} _.
Arguments MLayerNormWithCompactor {R} _.
Arguments MLinearWithCompactorAfter {R} _.
Arguments MLinearWithCompactorBefore {R} _.
Arguments MLinearWithMaskBefore {R} _.
Arguments MPackedLayerNorm {R} _.
Arguments MSequential {R} _.

(** Objects are never freed and a new object takes the next location. *)
Abbreviation Store R := (list (Module R)).

(** The slots of one [CompactBertLayer]; [residual] is set by [mix]. *)
Record BertLayer := mkBertLayer {
  attention_self_query : loc;
  attention_self_key : loc;
  attention_self_value : loc;
  attention_output_dense : loc;
  attention_output_LayerNorm : loc;
  attention_output_residual : option loc;
  intermediate_dense : loc;
  output_dense : loc;
  output_LayerNorm : loc;
  output_residual : option loc;
}.

Record BertConfig := mkBertConfig {
  hidden_size : nat;
  num_hidden_layers : nat;
  num_attention_heads : nat;
  intermediate_size : nat;
}.

(** [model.config], [model.bert.embeddings.LayerNorm],
    [model.bert.encoder.layer] and [model.bert.pooler.dense] ([None] when
    the model has no pooler). *)
Record BertModel := mkBertModel {
  config : BertConfig;
  embeddings_LayerNorm : loc;
  encoder_layer : list BertLayer;
  pooler_dense : option loc;
}.

Record PackedBertLayerConfig := mkPackedBertLayerConfig {
  input_dim : nat;
  attn_output_dim : nat;
  ffn_output_dim : nat;
  num_heads : nat;
  qk_dim : nat;
  vo_dim : nat;
  ffn_dim : nat;
  prune_attn : bool;
  prune_ffn : bool;
}.

Record PackedBertConfig := mkPackedBertConfig {
  base_config : BertConfig;
  per_layer_config : list PackedBertLayerConfig;
}.

(** A named parameter of a state dictionary. *)
Record Tensor (R : Type) := mkTensor {
  shape : list nat;
  data : list R;
}.
Arguments mkTensor {R} _ _.
Arguments shape {R} _.
Arguments data {R} _.

(** The packed model: its configuration and its named parameters. *)
Record PModel (R : Type) := mkPModel {
  p_config : PackedBertConfig;
  p_state : gmap string (Tensor R);
}.
Arguments mkPModel {R} _ _.
Arguments p_config {R} _.
Arguments p_state {R} _.

(** ** Computations on the store: state and failure *)

Definition M (R A : Type) : Type := Store R -> option (A * Store R).

Definition retM {R A : Type} (a : A) : M R A := fun s => Some (a, s).

Definition bindM {R A B : Type} (c : M R A) (k : A -> M R B) : M R B :=
  fun s => match c s with
           | Some (a, s') => k a s'
           | None => None
           end.

(** A failing step is a raised exception. *)
Definition liftM {R A : Type} (o : option A) : M R A :=
  fun s => match o with Some a => Some (a, s) | None => None end.

Definition load {R : Type} (l : loc) : M R (Module R) :=
  fun s => match s !! l with Some o => Some (o, s) | None => None end.

Definition alloc {R : Type} (o : Module R) : M R loc :=
  fun s => Some (length s, s ++ [o]).

Notation "x <~ c ; k" := (bindM c (fun x => k))
  (at level 20, c at level 100, k at level 200, only parsing).
Notation "' pat <~ c ; k" := (bindM c (fun x => match x with pat => k end))
  (at level 20, pat pattern, c at level 100, k at level 200, only parsing).

(** Attribute access by the class of the object. *)
Definition as_linear {R : Type} (o : Module R) : option (Linear R) :=
  match o with MLinear l => Some l | _ => None end.

Definition as_norm {R : Type} (o : Module R) : option (LayerNormWithCompactor R) :=
  match o with MLayerNormWithCompactor n => Some n | _ => None end.

Definition as_with_compactor {R : Type} (o : Module R)
  : option (LinearWithCompactor R) :=
  match o with
  | MLinearWithCompactorAfter m | MLinearWithCompactorBefore m => Some m
  | _ => None
  end.

Definition as_with_mask {R : Type} (o : Module R) : option (LinearWithMaskBefore R) :=
  match o with MLinearWithMaskBefore m => Some m | _ => None end.

Definition as_packed_norm {R : Type} (o : Module R) : option (PackedLayerNorm R) :=
  match o with MPackedLayerNorm n => Some n | _ => None end.

Definition as_sequential {R : Type} (o : Module R) : option (list loc) :=
  match o with MSequential c => Some c | _ => None end.

Definition load_as {R A : Type} (f : Module R -> option A) (l : loc) : M R A :=
  o <~ load l; liftM (f o).

(** A step that reads the store without changing it. *)
Definition readM {R A : Type} (f : Store R -> option A) : M R A :=
  fun s => liftM (f s) s.

(** ** get_packed_bert_config *)

Section PackedConfig.
Context {R : Type}.

Definition packed_size_at (s : Store R) (l : loc) : option nat :=
  packed_size <$> (s !! l ≫= as_packed_norm).

Definition out_features_at (s : Store R) (l : loc) : option nat :=
  out_features <$> (s !! l ≫= as_linear).

(** The loop of [get_packed_bert_config]; [past_layer_norm] is its cursor. *)
Fixpoint layer_configs (s : Store R) (config : BertConfig)
    (past_layer_norm : loc) (layers : list BertLayer)
  : option (list PackedBertLayerConfig) :=
  match layers with
  | [] => Some []
  | layer :: rest =>
      let attn_output_norm := attention_output_LayerNorm layer in
      let ffn_output_norm := output_LayerNorm layer in
      let w_q := attention_self_query layer in
      let w_v := attention_self_value layer in
      let w_0 := intermediate_dense layer in
      input_dim_ ← packed_size_at s past_layer_norm;
      attn_output_dim_ ← packed_size_at s attn_output_norm;
      ffn_output_dim_ ← packed_size_at s ffn_output_norm;
      qk_dim_ ← out_features_at s w_q;
      vo_dim_ ← out_features_at s w_v;
      ffn_dim_ ← out_features_at s w_0;
      let layer_config :=
        mkPackedBertLayerConfig input_dim_ attn_output_dim_ ffn_output_dim_
          (num_attention_heads config) qk_dim_ vo_dim_ ffn_dim_ false false in
      per_layer_config_ ← layer_configs s config ffn_output_norm rest;
      Some (layer_config :: per_layer_config_)
  end.

Definition get_packed_bert_config (s : Store R) (model : BertModel)
  : option PackedBertConfig :=
  let config_ := config model in
  children ← s !! embeddings_LayerNorm model ≫= as_sequential;
  past_layer_norm ← children !! 1;
  per_layer_config_ ← layer_configs s config_ past_layer_norm (encoder_layer model);
  Some (mkPackedBertConfig config_ per_layer_config_).

End PackedConfig.

(** ** torch.nn.Module.load_state_dict *)

Section StateDict.
Context {R : Type}.

(** A name present on both sides must carry the same shape. *)
Definition shape_ok (state_dict : gmap string (Tensor R)) (k : string)
    (t : Tensor R) : Prop :=
  match state_dict !! k with
  | Some s => shape s = shape t
  | None => True
  end.

#[export] Instance shape_ok_dec state_dict k t : Decision (shape_ok state_dict k t).
Proof. unfold shape_ok. destruct (state_dict !! k); apply _. Defined.

(** The parameters of the target after loading [state_dict] into it.  A
    size mismatch on a common name raises whatever [strict] is; missing and
    unexpected names raise only when [strict] is set. *)
Definition load_state_dict (self state_dict : gmap string (Tensor R))
    (strict : bool) : option (gmap string (Tensor R)) :=
  let missing_keys := dom self ∖ dom state_dict in
  let unexpected_keys := dom state_dict ∖ dom self in
  if decide (map_Forall (shape_ok state_dict) self) then
    if strict && negb (bool_decide (missing_keys = ∅ ∧ unexpected_keys = ∅))
    then None
    else Some (map_imap (fun k t => Some (default t (state_dict !! k))) self)
  else None.

End StateDict.

(** ** CompactorMixer.mix *)

(** The modules one iteration of the loop reads. *)
Record LayerModules (R : Type) := mkLayerModules {
  q_module : LinearWithCompactor R;
  k_module : LinearWithCompactor R;
  v_module : LinearWithCompactor R;
  o_module : LinearWithCompactor R;
  w1_module : Linear R;
  w2_module : LinearWithMaskBefore R;
  norm0 : LayerNormWithCompactor R;
  norm1 : LayerNormWithCompactor R;
  norm2 : LayerNormWithCompactor R;
}.
Arguments mkLayerModules {R} _ _ _ _ _ _ _ _ _.
Arguments q_module {R} _.
Arguments k_module {R} _.
Arguments v_module {R} _.
Arguments o_module {R} _.
Arguments w1_module {R} _.
Arguments w2_module {R} _.
Arguments norm0 {R} _.
Arguments norm1 {R} _.
Arguments norm2 {R} _.

(** The modules one iteration installs into the layer. *)
Record LayerParts (R : Type) := mkLayerParts {
  new_attention_output_LayerNorm : PackedLayerNorm R;
  new_output_LayerNorm : PackedLayerNorm R;
  query : Linear R;
  key : Linear R;
  value : Linear R;
  output : Linear R;
  w1 : Linear R;
  w2 : Linear R;
  new_attention_output_residual : Linear R;
  new_output_residual : Linear R;
}.
Arguments mkLayerParts {R} _ _ _ _ _ _ _ _ _ _.
Arguments new_attention_output_LayerNorm {R} _.
Arguments new_output_LayerNorm {R} _.
Arguments query {R} _.
Arguments key {R} _.
Arguments value {R} _.
Arguments output {R} _.
Arguments w1 {R} _.
Arguments w2 {R} _.
Arguments new_attention_output_residual {R} _.
Arguments new_output_residual {R} _.

Section Mix.
Context {R : Type} `{Scalar R} `{Exceeds R}.

(** Step 0 of the loop body: the modules of the layer and the three
    normalizations, [norm0] being the cursor [past_layer_norm]. *)
Definition load_layer (past_layer_norm : loc) (module : BertLayer)
  : M R (LayerModules R) :=
  q_module <~ load_as as_with_compactor (attention_self_query module);
  k_module <~ load_as as_with_compactor (attention_self_key module);
  v_module <~ load_as as_with_compactor (attention_self_value module);
  o_module <~ load_as as_with_compactor (attention_output_dense module);
  w1_module <~ load_as as_linear (intermediate_dense module);
  w2_module <~ load_as as_with_mask (output_dense module);
  norm0 <~ load_as as_norm past_layer_norm;
  norm1 <~ load_as as_norm (attention_output_LayerNorm module);
  norm2 <~ load_as as_norm (output_LayerNorm module);
  retM (mkLayerModules q_module k_module v_module o_module
          w1_module w2_module norm0 norm1 norm2).

(** The chain written three times in step 2, for query, key and value:
    [LinearMixer(head).merge(m.extract())
       .merge(m.compactor.extract("output", indices, values)).unwrap()]. *)
Definition fuse_projection (head : Linear R) (m : LinearWithCompactor R)
    (indices : list nat) (values : option (list R)) : option (Linear R) :=
  mixer ← merge (mkLinearMixer head) (LinearWithCompactor_extract m);
  c ← Compactor_extract (lc_compactor m) Output indices values;
  unwrap <$> merge mixer c.

(** The values computed by the loop body from the modules it read: mask
    parsing and steps 1 to 4.  None of them is read back from the model, so
    they are computed here and installed afterwards. *)
Definition fuse_layer (ms : LayerModules R) : option (LayerParts R) :=
  let '(norm0_values, norm0_indices) := parse (norm_mask (norm0 ms)) in
  let '(norm1_values, norm1_indices) := parse (norm_mask (norm1 ms)) in
  let '(norm2_values, norm2_indices) := parse (norm_mask (norm2 ms)) in
  let '(qk_values, qk_indices) := parse (lc_mask (q_module ms)) in
  let '(vo_values, vo_indices) := parse (lc_mask (v_module ms)) in
  let '(ffn_values, ffn_indices) := parse (lm_mask (w2_module ms)) in
  (* 1. update layer-norm *)
  layer_norm1 ← LayerNorm_extract (norm1 ms) norm1_indices;
  layer_norm2 ← LayerNorm_extract (norm2 ms) norm2_indices;
  (* 2. update attention *)
  norm0_out_comp ←
    Compactor_extract (out_comp (norm0 ms)) Input norm0_indices (Some norm0_values);
  norm1_in_comp ←
    Compactor_extract (in_comp (norm1 ms)) Output norm1_indices (Some norm1_values);
  query ← fuse_projection norm0_out_comp (q_module ms) qk_indices (Some qk_values);
  key ← fuse_projection norm0_out_comp (k_module ms) qk_indices None;
  value ← fuse_projection norm0_out_comp (v_module ms) vo_indices (Some vo_values);
  output ←
    (c ← Compactor_extract (lc_compactor (o_module ms)) Input vo_indices None;
     m ← merge (mkLinearMixer c) (LinearWithCompactor_extract (o_module ms));
     unwrap <$> merge m norm1_in_comp);
  (* 3. update FFN *)
  norm1_out_comp ←
    Compactor_extract (out_comp (norm1 ms)) Input norm1_indices (Some norm1_values);
  norm2_in_comp ←
    Compactor_extract (in_comp (norm2 ms)) Output norm2_indices (Some norm2_values);
  w1 ←
    (m ← merge (mkLinearMixer norm1_out_comp) (w1_module ms);
     unwrap <$> merge_mask m ffn_indices);
  w2 ←
    (e ← LinearWithMaskBefore_extract (w2_module ms) ffn_indices ffn_values;
     unwrap <$> merge (mkLinearMixer e) norm2_in_comp);
  (* 4. update residual *)
  residual1 ← unwrap <$> merge (mkLinearMixer norm0_out_comp) norm1_in_comp;
  residual2 ← unwrap <$> merge (mkLinearMixer norm1_out_comp) norm2_in_comp;
  Some (mkLayerParts layer_norm1 layer_norm2 query key value output
          w1 w2 residual1 residual2).

(** The assignments of the loop body: every new module is a new object,
    and the slots of the layer are rebound to them. *)
Definition install_layer (p : LayerParts R) : M R BertLayer :=
  l_norm1 <~ alloc (MPackedLayerNorm (new_attention_output_LayerNorm p));
  l_norm2 <~ alloc (MPackedLayerNorm (new_output_LayerNorm p));
  l_query <~ alloc (MLinear (query p));
  l_key <~ alloc (MLinear (key p));
  l_value <~ alloc (MLinear (value p));
  l_output <~ alloc (MLinear (output p));
  l_w1 <~ alloc (MLinear (w1 p));
  l_w2 <~ alloc (MLinear (w2 p));
  l_residual1 <~ alloc (MLinear (new_attention_output_residual p));
  l_residual2 <~ alloc (MLinear (new_output_residual p));
  retM (mkBertLayer l_query l_key l_value l_output l_norm1 (Some l_residual1)
          l_w1 l_w2 l_norm2 (Some l_residual2)).

(** One iteration of the loop of [mix].  It returns the layer with its
    slots rebound and the next cursor: step 5 sets [past_layer_norm] to
    [norm2], the object the layer held before the iteration. *)
Definition compact_layer (past_layer_norm : loc) (module : BertLayer)
  : M R (BertLayer * loc) :=
  ms <~ load_layer past_layer_norm module;
  p <~ liftM (fuse_layer ms);
  module' <~ install_layer p;
  retM (module', output_LayerNorm module).

Fixpoint mix_layers (past_layer_norm : loc) (layers : list BertLayer)
  : M R (list BertLayer * loc) :=
  match layers with
  | [] => retM ([], past_layer_norm)
  | module :: rest =>
      '(module', past_layer_norm') <~ compact_layer past_layer_norm module;
      '(rest', last) <~ mix_layers past_layer_norm' rest;
      retM (module' :: rest', last)
  end.

(** [nn.Module.state_dict] of the model: the named parameters reachable
    from its slots.  The classes that name them are outside this file. *)
Variable state_dict : BertModel -> Store R -> gmap string (Tensor R).

(** The part of [mix] that rewrites the model: the loop, then the
    embedding normalization and the pooler. *)
Definition compact (model : BertModel) : M R BertModel :=
  let past_layer_norm := embeddings_LayerNorm model in
  '(layers, past_layer_norm) <~ mix_layers past_layer_norm (encoder_layer model);
  first_norm <~ load_as as_norm (embeddings_LayerNorm model);
  last_norm <~ load_as as_norm past_layer_norm;
  let '(first_values, first_indices) := parse (norm_mask first_norm) in
  let '(last_values, last_indices) := parse (norm_mask last_norm) in
  (* assert self.model.bert.pooler is not None *)
  pooler <~ liftM (pooler_dense model);
  seq0 <~ liftM (Compactor_extract (in_comp first_norm) Output first_indices
                   (Some first_values));
  seq1 <~ liftM (LayerNorm_extract first_norm first_indices);
  l_seq0 <~ alloc (MLinear seq0);
  l_seq1 <~ alloc (MPackedLayerNorm seq1);
  l_seq <~ alloc (MSequential [l_seq0; l_seq1]);
  dense <~ load_as as_linear pooler;
  new_dense <~ liftM
    (e ← Compactor_extract (out_comp last_norm) Input last_indices
           (Some last_values);
     unwrap <$> merge (mkLinearMixer e) dense);
  l_dense <~ alloc (MLinear new_dense);
  retM (mkBertModel (config model) l_seq layers (Some l_dense)).

(** [CompactorMixer.mix], for [self.factory = factory] and
    [self.model = model]: the model as [mix] leaves it and the packed model
    it returns. *)
Definition mix (factory : PackedBertConfig -> PModel R) (model : BertModel)
  : M R (BertModel * PModel R) :=
  model' <~ compact model;
  p_config_ <~ readM (fun s => get_packed_bert_config s model');
  let p_model := factory p_config_ in
  loaded <~ readM (fun s =>
    load_state_dict (p_state p_model) (state_dict model' s) false);
  retM (model', mkPModel (p_config p_model) loaded).

End Mix.

(** ** The loop of [mix] as a function of the store *)

Section MixPure.
Context {R : Type} `{Scalar R} `{Exceeds R}.

(** What [load_layer] reads. *)
Definition read_layer (s : Store R) (past_layer_norm : loc) (module : BertLayer)
  : option (LayerModules R) :=
  q ← s !! attention_self_query module ≫= as_with_compactor;
  k ← s !! attention_self_key module ≫= as_with_compactor;
  v ← s !! attention_self_value module ≫= as_with_compactor;
  o ← s !! attention_output_dense module ≫= as_with_compactor;
  w1 ← s !! intermediate_dense module ≫= as_linear;
  w2 ← s !! output_dense module ≫= as_with_mask;
  n0 ← s !! past_layer_norm ≫= as_norm;
  n1 ← s !! attention_output_LayerNorm module ≫= as_norm;
  n2 ← s !! output_LayerNorm module ≫= as_norm;
  Some (mkLayerModules q k v o w1 w2 n0 n1 n2).

(** The objects [install_layer] allocates, in order. *)
Definition layer_objects (p : LayerParts R) : list (Module R) :=
  [ MPackedLayerNorm (new_attention_output_LayerNorm p);
    MPackedLayerNorm (new_output_LayerNorm p);
    MLinear (query p); MLinear (key p); MLinear (value p); MLinear (output p);
    MLinear (w1 p); MLinear (w2 p);
    MLinear (new_attention_output_residual p);
    MLinear (new_output_residual p) ].

(** The layer [install_layer] returns when the store holds [n] objects. *)
Definition installed_layer (n : nat) : BertLayer :=
  mkBertLayer (n + 2) (n + 3) (n + 4) (n + 5) n (Some (n + 8))
    (n + 6) (n + 7) (n + 1) (Some (n + 9)).

Fixpoint installed_layers (n k : nat) : list BertLayer :=
  match k with
  | 0 => []
  | S k' => installed_layer n :: installed_layers (n + 10) k'
  end.

(** The parts fused for each layer, each layer reading the store the
    previous ones left. *)
Fixpoint fuse_layers (s : Store R) (past_layer_norm : loc)
    (layers : list BertLayer) : option (list (LayerParts R)) :=
  match layers with
  | [] => Some []
  | module :: rest =>
      ms ← read_layer s past_layer_norm module;
      p ← fuse_layer ms;
      ps ← fuse_layers (s ++ layer_objects p) (output_LayerNorm module) rest;
      Some (p :: ps)
  end.

(** The cursor after the loop. *)
Fixpoint last_cursor (past_layer_norm : loc) (layers : list BertLayer) : loc :=
  match layers with
  | [] => past_layer_norm
  | module :: rest => last_cursor (output_LayerNorm module) rest
  end.

(** The normalization that precedes layer [i]. *)
Definition cursor_at (past_layer_norm : loc) (layers : list BertLayer)
    (i : nat) : option loc :=
  (past_layer_norm :: map output_LayerNorm layers) !! i.

(** The configuration [get_packed_bert_config] reads off the installed
    parts, [d] being the packed size of the preceding normalization. *)
Definition layer_config_of (config : BertConfig) (d : nat) (p : LayerParts R)
  : PackedBertLayerConfig :=
  mkPackedBertLayerConfig d
    (packed_size (new_attention_output_LayerNorm p))
    (packed_size (new_output_LayerNorm p))
    (num_attention_heads config)
    (out_features (query p)) (out_features (value p)) (out_features (w1 p))
    false false.

Fixpoint configs_of (config : BertConfig) (d : nat) (ps : list (LayerParts R))
  : list PackedBertLayerConfig :=
  match ps with
  | [] => []
  | p :: ps' =>
      layer_config_of config d p
        :: configs_of config (packed_size (new_output_LayerNorm p)) ps'
  end.

(** What [compact] computes after the loop, on the store [s1] the loop
    left: the two modules of the new embedding normalization and the new
    pooler projection. *)
Definition fuse_ends (s1 : Store R) (model : BertModel) (last : loc)
  : option (Linear R * PackedLayerNorm R * Linear R) :=
  first_norm ← s1 !! embeddings_LayerNorm model ≫= as_norm;
  last_norm ← s1 !! last ≫= as_norm;
  let '(first_values, first_indices) := parse (norm_mask first_norm) in
  let '(last_values, last_indices) := parse (norm_mask last_norm) in
  pooler ← pooler_dense model;
  seq0 ← Compactor_extract (in_comp first_norm) Output first_indices
           (Some first_values);
  seq1 ← LayerNorm_extract first_norm first_indices;
  dense ← (s1 ++ [MLinear seq0; MPackedLayerNorm seq1;
                  MSequential [length s1; length s1 + 1]]) !! pooler
          ≫= as_linear;
  new_dense ←
    (e ← Compactor_extract (out_comp last_norm) Input last_indices
           (Some last_values);
     unwrap <$> merge (mkLinearMixer e) dense);
  Some (seq0, seq1, new_dense).

Definition end_objects (n : nat)
    (e : Linear R * PackedLayerNorm R * Linear R) : list (Module R) :=
  let '(seq0, seq1, new_dense) := e in
  [ MLinear seq0; MPackedLayerNorm seq1; MSequential [n; n + 1];
    MLinear new_dense ].

(** [compact] as a function of the store. *)
Definition compact_result (model : BertModel) (s : Store R)
  : option (BertModel * Store R) :=
  ps ← fuse_layers s (embeddings_LayerNorm model) (encoder_layer model);
  let s1 := s ++ concat (map layer_objects ps) in
  e ← fuse_ends s1 model
        (last_cursor (embeddings_LayerNorm model) (encoder_layer model));
  Some (mkBertModel (config model) (length s1 + 2)
          (installed_layers (length s) (length (encoder_layer model)))
          (Some (length s1 + 3)),
        s1 ++ end_objects (length s1) e).

(** The widths of a layer configuration are the numbers of indices kept by
    the masks of the modules the layer was compacted from. *)
Definition widths_match (c : PackedBertLayerConfig) (ms : LayerModules R)
  : Prop :=
  input_dim c = length (parse (norm_mask (norm0 ms))).2 /\
  attn_output_dim c = length (parse (norm_mask (norm1 ms))).2 /\
  ffn_output_dim c = length (parse (norm_mask (norm2 ms))).2 /\
  qk_dim c = length (parse (lc_mask (q_module ms))).2 /\
  vo_dim c = length (parse (lc_mask (v_module ms))).2 /\
  ffn_dim c = length (parse (lm_mask (w2_module ms))).2.

(** A transform with row [k] of its weight, and entry [k] of its bias,
    multiplied by [values[k]]. *)
Definition scale_out (values : list R) (l : Linear R) : Linear R :=
  mkLinear (in_features l) (out_features l)
    (scale_rows values (weight l)) (zip_with rmul values <$> bias l).

End MixPure.

(** The slots of a layer and of the model. *)
Definition layer_slots (l : BertLayer) : list loc :=
  [ attention_self_query l; attention_self_key l; attention_self_value l;
    attention_output_dense l; attention_output_LayerNorm l;
    intermediate_dense l; output_dense l; output_LayerNorm l ]
  ++ option_list (attention_output_residual l)
  ++ option_list (output_residual l).

Definition model_slots (model : BertModel) : list loc :=
  embeddings_LayerNorm model
  :: option_list (pooler_dense model)
  ++ concat (map layer_slots (encoder_layer model)).

(** ** Models that differ in the masks of their key modules *)

Definition key_slots (model : BertModel) : list loc :=
  map attention_self_key (encoder_layer model).

(** Two compactor-wrapped linears of the same class with the same compactor
    and the same base transform; their masks are free. *)
Definition same_but_mask {R : Type} (o1 o2 : Module R) : Prop :=
  match o1, o2 with
  | MLinearWithCompactorAfter m1, MLinearWithCompactorAfter m2
  | MLinearWithCompactorBefore m1, MLinearWithCompactorBefore m2 =>
      lc_compactor m1 = lc_compactor m2 /\ lc_linear m1 = lc_linear m2
  | _, _ => False
  end.

(** Two stores with the same objects, except that at the locations in [K]
    the objects may differ in their masks. *)
Definition stores_agree {R : Type} (K : list loc) (s1 s2 : Store R) : Prop :=
  length s1 = length s2 /\
  forall l o1 o2,
    s1 !! l = Some o1 -> s2 !! l = Some o2 ->
    o1 = o2 \/ (l ∈ K /\ same_but_mask o1 o2).

(** ** A one-layer model over the integers

    Hidden width 2, feed-forward width 3.  The embedding normalization
    keeps feature 0, the normalization after attention keeps feature 1 and
    the last one keeps both.  The masks of the query, key and value modules
    and of the feed-forward output projection are parameters. *)

Section Example.
Local Open Scope Z_scope.

Definition ex_compactor (w : list (list Z)) : Compactor Z :=
  mkCompactor (mkLinear 2%nat 2%nat w (Some [0; 0])).

Definition ex_norm (gates : list Z) : LayerNormWithCompactor Z :=
  mkLayerNormWithCompactor [1; 1] [0; 0] (mkMask gates 0)
    (ex_compactor [[1; 2]; [3; 4]]) (ex_compactor [[5; 6]; [7; 8]]).

Definition ex_projection (gates : list Z) : LinearWithCompactor Z :=
  mkLinearWithCompactor (mkMask gates 0) (ex_compactor [[1; 1]; [0; 1]])
    (mkLinear 2%nat 2%nat [[2; 0]; [1; 3]] (Some [1; 1])).

Definition ex_store_with (q_gates k_gates v_gates ffn_gates : list Z)
  : Store Z :=
  [ MLayerNormWithCompactor (ex_norm [1; 0]);
    MLinearWithCompactorAfter (ex_projection q_gates);
    MLinearWithCompactorAfter (ex_projection k_gates);
    MLinearWithCompactorAfter (ex_projection v_gates);
    MLinearWithCompactorBefore (ex_projection [1; 1]);
    MLayerNormWithCompactor (ex_norm [0; 1]);
    MLinear (mkLinear 2%nat 3%nat [[1; 0]; [0; 1]; [1; 1]] (Some [0; 0; 1]));
    MLinearWithMaskBefore
      (mkLinearWithMaskBefore (mkMask ffn_gates 0)
         (mkLinear 3%nat 2%nat [[1; 2; 3]; [4; 5; 6]] (Some [1; 0])));
    MLayerNormWithCompactor (ex_norm [1; 1]);
    MLinear (mkLinear 2%nat 2%nat [[1; 0]; [0; 1]] (Some [0; 0])) ].

(** The query mask keeps feature 1 with gate 2, the value mask feature 0
    with gate 3, the feed-forward mask features 0 and 2. *)
Definition ex_store : Store Z := ex_store_with [0; 2] [1; 1] [3; 0] [1; 0; 2].

(** The same model with another mask on the key module. *)
Definition ex_store_key : Store Z := ex_store_with [0; 2] [0; 5] [3; 0] [1; 0; 2].

(** The same model with attention and feed-forward masks that keep nothing. *)
Definition ex_store_pruned : Store Z := ex_store_with [0; 0] [1; 1] [0; 0] [0; 0; 0].

Definition ex_layer : BertLayer :=
  mkBertLayer 1%nat 2%nat 3%nat 4%nat 5%nat None 6%nat 7%nat 8%nat None.

Definition ex_model : BertModel :=
  mkBertModel (mkBertConfig 2 1 1 3) 0%nat [ex_layer] (Some 9%nat).

(** A state dictionary with a name the packed model lacks, and a packed
    model with a name the state dictionary lacks. *)
Definition ex_state_dict (_ : BertModel) (_ : Store Z) : gmap string (Tensor Z) :=
  {[ "bert.pooler.dense.bias" := mkTensor [2%nat] [7; 7];
     "bert.encoder.layer.0.attention.self.key.mask" := mkTensor [2%nat] [1; 1] ]}.

Definition ex_factory (c : PackedBertConfig) : PModel Z :=
  mkPModel c
    {[ "bert.pooler.dense.bias" := mkTensor [2%nat] [0; 0];
       "classifier.bias" := mkTensor [1%nat] [5] ]}.

(** The layer and the store after one iteration of the loop. *)
Definition ex_layer' : BertLayer :=
  Eval vm_compute in
    match compact_layer 0%nat ex_layer ex_store with
    | Some ((module', _), _) => module'
    | None => ex_layer
    end.

Definition ex_store_layer : Store Z :=
  Eval vm_compute in
    match compact_layer 0%nat ex_layer ex_store with
    | Some (_, s') => s'
    | None => []
    end.

(** The model, the packed model and the store after [mix]. *)
Definition ex_model' : BertModel :=
  Eval vm_compute in
    match mix ex_state_dict ex_factory ex_model ex_store with
    | Some ((model', _), _) => model'
    | None => ex_model
    end.

Definition ex_packed : PModel Z :=
  Eval vm_compute in
    match mix ex_state_dict ex_factory ex_model ex_store with
    | Some ((_, pm), _) => pm
    | None => ex_factory (mkPackedBertConfig (config ex_model) [])
    end.

Definition ex_store' : Store Z :=
  Eval vm_compute in
    match mix ex_state_dict ex_factory ex_model ex_store with
    | Some (_, s') => s'
    | None => []
    end.

End Example.

(** * The trainer (bert/pipeline/squad/trainer.py) *)

(** ** Layer matching in [DistillTrainer.compute_distill_loss] *)

Section LayerMatching.
Context {V : Type}.

(** The comparison of two distances, a strict order on the values. *)
Variable ltb : V -> V -> bool.

Fixpoint argmin_from (best : V) (best_i i : nat) (t : list V) : nat :=
  match t with
  | [] => best_i
  | x :: t' =>
      if ltb x best then argmin_from x i (S i) t'
      else argmin_from best best_i (S i) t'
  end.

(** [t.argmin().item()] for a 1-D tensor: the position of the first
    minimal value; the empty tensor raises. *)
Definition argmin (t : list V) : option nat :=
  match t with
  | [] => None
  | x :: t' => Some (argmin_from x 0 1 t')
  end.

(** The loop
    [for i in range(num_layers):
       match_index.append(dist[i, i:].argmin().item() + i)]
    on the matrix [dist] of distances between student and teacher layers. *)
Definition match_index (dist : list (list V)) (num_layers : nat)
  : option (list nat) :=
  mapM (fun i => row ← dist !! i;
                 j ← argmin (drop i row);
                 Some (j + i))
       (seq 0 num_layers).

End LayerMatching.

(** ** Prefixing the metric names in [DefaultTrainer.evaluate] and [predict] *)

Section MetricKeys.
Context {V : Type}.

(** [key.startswith(p)]. *)
Definition startswith (p key : string) : bool := String.prefix p key.

(** One turn of
    [for key in list(metrics.keys()):
       if not key.startswith(f"{metric_key_prefix}_"):
         metrics[f"{metric_key_prefix}_{key}"] = metrics.pop(key)];
    [pop] raises when the key is gone. *)
Definition prefix_metric_key (metric_key_prefix : string)
    (metrics : gmap string V) (key : string) : option (gmap string V) :=
  if negb (startswith (metric_key_prefix +:+ "_") key) then
    v ← metrics !! key;
    Some (<[metric_key_prefix +:+ "_" +:+ key := v]> (delete key metrics))
  else Some metrics.

(** The loop over [keys], the snapshot [list(metrics.keys())]. *)
Fixpoint prefix_metric_keys (metric_key_prefix : string) (keys : list string)
    (metrics : gmap string V) : option (gmap string V) :=
  match keys with
  | [] => Some metrics
  | key :: rest =>
      metrics' ← prefix_metric_key metric_key_prefix metrics key;
      prefix_metric_keys metric_key_prefix rest metrics'
  end.

(** [k[len(p):]] when [k] starts with [p]. *)
Fixpoint strip_prefix (p k : string) : option string :=
  match p, k with
  | EmptyString, _ => Some k
  | String a p', String b k' =>
      if Ascii.eqb a b then strip_prefix p' k' else None
  | String _ _, EmptyString => None
  end.

(** What the metrics hold at [k] once the keys in [done] have had their
    turn, in terms of the metrics [m] before the loop. *)
Definition metric_after (p_ : string) (done : list string)
    (m : gmap string V) (k : string) : option V :=
  match strip_prefix p_ k with
  | Some t =>
      if negb (startswith p_ t) && bool_decide (t ∈ done) then
        match m !! t with Some v => Some v | None => m !! k end
      else m !! k
  | None => if bool_decide (k ∈ done) then None else m !! k
  end.

End MetricKeys.

(** ** Parameter names *)

(** [name.endswith(suffix)]. *)
Fixpoint endswith (name suffix : string) : bool :=
  String.eqb name suffix ||
  match name with
  | EmptyString => false
  | String _ name' => endswith name' suffix
  end.

(** [sub in name]. *)
Fixpoint contains (sub name : string) : bool :=
  startswith sub name ||
  match name with
  | EmptyString => false
  | String _ name' => contains sub name'
  end.

(** ** The masks of the student model and [DistillTrainer.init_reg_params] *)

(** The masks of one encoder layer, each field named after the attribute
    path that [init_reg_params] reads under [layer]. *)
Record MaskedLayer (T : Type) := mkMaskedLayer {
  attention_output_LayerNorm_mask : T;
  output_LayerNorm_mask : T;
  attention_self_query_mask : T;
  attention_self_value_mask : T;
  attention_self_mask : T;
  output_dense_mask : T;
  attention_output_mask : T;
  output_mask : T;
}.
Arguments mkMaskedLayer {T} _ _ _ _ _ _ _ _.
Arguments attention_output_LayerNorm_mask {T} _.
Arguments output_LayerNorm_mask {T} _.
Arguments attention_self_query_mask {T} _.
Arguments attention_self_value_mask {T} _.
Arguments attention_self_mask {T} _.
Arguments output_dense_mask {T} _.
Arguments attention_output_mask {T} _.
Arguments output_mask {T} _.

(** The student model as the trainer sees it: the mask of
    [bert.embeddings.LayerNorm], the layers of [bert.encoder.layer], and
    [named_parameters()] as names with their [requires_grad]. *)
Record MaskedModel (T : Type) := mkMaskedModel {
  embeddings_LayerNorm_mask : T;
  bert_encoder_layer : list (MaskedLayer T);
  named_parameters : list (string * bool);
}.
Arguments mkMaskedModel {T} _ _ _.
Arguments embeddings_LayerNorm_mask {T} _.
Arguments bert_encoder_layer {T} _.
Arguments named_parameters {T} _.

(** The fields of the trainer that [init_reg_params] fills;
    [mask_groups] has the two keys 0 and 1. *)
Record RegState (T : Type) := mkRegState {
  reg_params : list string;
  mask_groups_0 : list T;
  mask_groups_1 : list T;
  per_layer_mask_groups : list (list T);
}.
Arguments mkRegState {T} _ _ _ _.
Arguments reg_params {T} _.
Arguments mask_groups_0 {T} _.
Arguments mask_groups_1 {T} _.
Arguments per_layer_mask_groups {T} _.

Section RegParams.
Context {T : Type}.

(** The empty lists that [__init__] sets before [init_reg_params]. *)
Definition new_reg_state : RegState T := mkRegState [] [] [] [].

Definition is_reg_param (name : string) : bool :=
  endswith name "reg_lambda_1" || endswith name "reg_lambda_2" ||
  endswith name "log_alpha".

(** The loop over [model.bert.encoder.layer]; [past_layer_norm_mask] is the
    mask of the cursor [past_layer_norm], the one attribute read off it. *)
Fixpoint init_layer_masks (layers : list (MaskedLayer T))
    (past_layer_norm_mask : T) (self : RegState T) : RegState T :=
  match layers with
  | [] => self
  | layer :: rest =>
      let hidden_mask0 := past_layer_norm_mask in
      let hidden_mask1 := attention_output_LayerNorm_mask layer in
      let hidden_mask2 := output_LayerNorm_mask layer in
      let qk_mask := attention_self_query_mask layer in
      let vo_mask := attention_self_value_mask layer in
      let head_mask := attention_self_mask layer in
      let filter_mask := output_dense_mask layer in
      let MHA_mask := attention_output_mask layer in
      let FFN_mask := output_mask layer in
      init_layer_masks rest (output_LayerNorm_mask layer)
        (mkRegState
           (reg_params self)
           (mask_groups_0 self ++
              [hidden_mask1; hidden_mask2; qk_mask; vo_mask; filter_mask])
           (mask_groups_1 self ++ [head_mask; MHA_mask; FFN_mask])
           (per_layer_mask_groups self ++
              [[hidden_mask0; hidden_mask1; hidden_mask2; qk_mask; vo_mask;
                head_mask; filter_mask; MHA_mask; FFN_mask]]))
  end.

Definition init_reg_params (self : RegState T) (model : MaskedModel T)
  : RegState T :=
  let names := List.filter is_reg_param (map fst (named_parameters model)) in
  let past_layer_norm_mask := embeddings_LayerNorm_mask model in
  init_layer_masks (bert_encoder_layer model) past_layer_norm_mask
    (mkRegState (reg_params self ++ names)
                (mask_groups_0 self ++ [past_layer_norm_mask])
                (mask_groups_1 self)
                (per_layer_mask_groups self)).

(** [set_mask_group0_state] and [set_mask_group1_state]: one call of
    [set_state(activate)] on every module of the group, in order, added to
    the calls made so far. *)
Definition set_mask_group0_state (self : RegState T) (activate : bool)
    (calls : list (T * bool)) : list (T * bool) :=
  calls ++ map (fun module => (module, activate)) (mask_groups_0 self).

Definition set_mask_group1_state (self : RegState T) (activate : bool)
    (calls : list (T * bool)) : list (T * bool) :=
  calls ++ map (fun module => (module, activate)) (mask_groups_1 self).



(** The tuple that the loop appends for [layer]. *)
Definition layer_tuple (past_layer_norm_mask : T) (layer : MaskedLayer T)
  : list T :=
  [past_layer_norm_mask; attention_output_LayerNorm_mask layer;
   output_LayerNorm_mask layer; attention_self_query_mask layer;
   attention_self_value_mask layer; attention_self_mask layer;
   output_dense_mask layer; attention_output_mask layer; output_mask layer].

Fixpoint layer_tuples (past_layer_norm_mask : T)
    (layers : list (MaskedLayer T)) : list (list T) :=
  match layers with
  | [] => []
  | layer :: rest =>
      layer_tuple past_layer_norm_mask layer ::
      layer_tuples (output_LayerNorm_mask layer) rest
  end.

(** The mask that enters layer [i] on the residual stream. *)
Definition hidden_mask_before (model : MaskedModel T) (i : nat) : option T :=
  match i with
  | 0 => Some (embeddings_LayerNorm_mask model)
  | S j => output_LayerNorm_mask <$> bert_encoder_layer model !! j
  end.

End RegParams.

(** ** Python slices *)

Section Slices.
Context {A : Type}.

(** A bound of a slice on a sequence of length [len]: counted from the
    end when negative, clipped to the sequence. *)
Definition slice_bound (len : nat) (i : Z) : nat :=
  Z.to_nat (Z.max 0 (Z.min (Z.of_nat len)
                           (if (i <? 0)%Z then (i + Z.of_nat len)%Z else i))).

(** [l[start:stop]], a missing bound being [None]. *)
Definition py_slice (start stop : option Z) (l : list A) : list A :=
  let a := match start with Some i => slice_bound (length l) i | None => 0 end in
  let b := match stop with
           | Some i => slice_bound (length l) i
           | None => length l
           end in
  take (b - a) (drop a l).

End Slices.

(** ** [DistillTrainer.compute_per_layer_sparsity] *)

Section PerLayerSparsity.
Context {T V : Type}.

(** What the trainer reads off a mask: [mask.L().sum().item()] and
    [mask.features]; the division of the one by the other, and the
    comparison [>= 0.5]. *)
Variable L_sum : T -> V.
Variable features : T -> nat.
Variable div : V -> nat -> V.
Variable ge_half : V -> bool.

(** [mask.L().sum().item() / mask.features]; dividing by 0 raises. *)
Definition kept_ratio (mask : T) : option V :=
  if Nat.eqb (features mask) 0 then None
  else Some (div (L_sum mask) (features mask)).

Definition compute_per_layer_sparsity (self : RegState T)
    (model : MaskedModel T)
  : option (list (list V) * list V * list V * list V * list V *
            list (bool * bool)) :=
  hidden_s ← mapM (fun layer =>
      a ← kept_ratio (attention_output_LayerNorm_mask layer);
      b ← kept_ratio (output_LayerNorm_mask layer);
      Some [a; b]) (bert_encoder_layer model);
  rows ← mapM (fun mask_group =>
      match py_slice (Some (-6)%Z) (Some (-2)%Z) mask_group with
      | [qk_mask; vo_mask; head_mask; filter_mask] =>
          qk ← kept_ratio qk_mask;
          vo ← kept_ratio vo_mask;
          head ← kept_ratio head_mask;
          filter ← kept_ratio filter_mask;
          Some (qk, vo, head, filter)
      | _ => None
      end) (per_layer_mask_groups self);
  layer_s ← mapM (fun mask_group =>
      match py_slice (Some (-2)%Z) None mask_group with
      | [MHA_mask; FFN_mask] =>
          Some (ge_half (L_sum MHA_mask), ge_half (L_sum FFN_mask))
      | _ => None
      end) (per_layer_mask_groups self);
  Some (hidden_s,
        map (fun r => r.1.1.1) rows,
        map (fun r => r.1.1.2) rows,
        map (fun r => r.1.2) rows,
        map (fun r => r.2) rows,
        layer_s).

End PerLayerSparsity.

(** ** [DistillTrainer.create_optimizer] *)

Record ParamGroup (V : Type) := mkParamGroup {
  params : list (string * bool);
  weight_decay : V;
  lr : option V;
}.
Arguments mkParamGroup {V} _ _ _.
Arguments params {V} _.
Arguments weight_decay {V} _.
Arguments lr {V} _.

Section Optimizer.
Context {V : Type}.

(** [args.weight_decay], [args.reg_learning_rate], [0.0] and negation. *)
Variable args_weight_decay args_reg_learning_rate zero : V.
Variable neg : V -> V.

(** The four parameter groups handed to the optimizer.  The names that
    [get_parameter_names(opt_model, ALL_LAYERNORM_LAYERS)] returns are
    given; a parameter is its name with its [requires_grad]. *)
Definition optimizer_grouped_parameters
    (named_parameters : list (string * bool))
    (parameter_names : list string) (reg_params : list string)
  : list (ParamGroup V) :=
  let decay_parameters :=
    List.filter (fun name => negb (contains "bias" name)) parameter_names in
  [ mkParamGroup
      (List.filter (fun np =>
         bool_decide (np.1 ∈ decay_parameters) && np.2 &&
         negb (bool_decide (np.1 ∈ reg_params))) named_parameters)
      args_weight_decay None;
    mkParamGroup
      (List.filter (fun np =>
         negb (bool_decide (np.1 ∈ decay_parameters)) && np.2 &&
         negb (bool_decide (np.1 ∈ reg_params))) named_parameters)
      zero None;
    mkParamGroup
      (List.filter (fun np =>
         bool_decide (np.1 ∈ reg_params) && negb (contains "reg" np.1))
         named_parameters)
      zero (Some args_reg_learning_rate);
    mkParamGroup
      (List.filter (fun np =>
         bool_decide (np.1 ∈ reg_params) && contains "reg" np.1)
         named_parameters)
      zero (Some (neg args_reg_learning_rate)) ].

End Optimizer.

(** ** [DistillTrainerCallback] *)

(** The callback's own fields.  Rationals stand for the floating-point
    numbers of the epochs and of the warm-up; [pruning_warmup_steps] is
    [None] until [on_train_begin]. *)
Record Callback := mkCallback {
  pruning_start_epoch : Q;
  pruning_warmup_epoch : Q;
  structural_pruning_start_epoch : Q;
  pruning_steps : nat;
  pruning_warmup_steps : option Q;
}.

(** The fields of the trainer that the callback reads and writes, with the
    calls of [set_state] made on the masks so far. *)
Record Switches (T : Type) := mkSwitches {
  masks : RegState T;
  use_structural_pruning : bool;
  pruning_switch : bool;
  structural_pruning_switch : bool;
  pruning_warmup_percent : Q;
  set_state_calls : list (T * bool);
}.
Arguments mkSwitches {T} _ _ _ _ _ _.
Arguments masks {T} _.
Arguments use_structural_pruning {T} _.
Arguments pruning_switch {T} _.
Arguments structural_pruning_switch {T} _.
Arguments pruning_warmup_percent {T} _.
Arguments set_state_calls {T} _.

(** [DistillTrainerCallback.__init__]. *)
Definition new_callback (args_pruning_start_epoch args_pruning_warmup_epoch
    args_structural_pruning_start_epoch : Q) : Callback :=
  mkCallback args_pruning_start_epoch args_pruning_warmup_epoch
             args_structural_pruning_start_epoch 0 None.

(** [on_train_begin]; the floor division raises when
    [gradient_accumulation_steps] is 0. *)
Definition on_train_begin (self : Callback)
    (len_dataloader gradient_accumulation_steps : nat) : option Callback :=
  if Nat.eqb gradient_accumulation_steps 0 then None
  else
    let num_update_steps_per_epoch :=
      len_dataloader / gradient_accumulation_steps in
    let num_update_steps_per_epoch := Nat.max num_update_steps_per_epoch 1 in
    Some (mkCallback
            (pruning_start_epoch self) (pruning_warmup_epoch self)
            (structural_pruning_start_epoch self) (pruning_steps self)
            (Some (pruning_warmup_epoch self *
                   inject_Z (Z.of_nat num_update_steps_per_epoch))%Q)).

Section CallbackSteps.
Context {T : Type}.

(** [on_epoch_begin] at [state.epoch = epoch]. *)
Definition on_epoch_begin (self : Callback) (trainer : Switches T) (epoch : Q)
  : Switches T :=
  let trainer :=
    if Qle_bool (pruning_start_epoch self) epoch then
      if negb (pruning_switch trainer) then
        mkSwitches (masks trainer) (use_structural_pruning trainer)
                   true (structural_pruning_switch trainer)
                   (pruning_warmup_percent trainer)
                   (set_mask_group0_state (masks trainer) true
                      (set_state_calls trainer))
      else trainer
    else trainer in
  if Qle_bool (structural_pruning_start_epoch self) epoch then
    if use_structural_pruning trainer &&
       negb (structural_pruning_switch trainer) then
      mkSwitches (masks trainer) (use_structural_pruning trainer)
                 (pruning_switch trainer) true
                 (pruning_warmup_percent trainer)
                 (set_mask_group1_state (masks trainer) true
                    (set_state_calls trainer))
    else trainer
  else trainer.

(** [min(1.0, x)]. *)
Definition min_one (x : Q) : Q := if Qlt_le_dec x 1 then x else 1%Q.

(** [on_step_begin] at [state.epoch = epoch]; the division raises when
    [pruning_warmup_steps] is still [None] or is 0. *)
Definition on_step_begin (self : Callback) (trainer : Switches T) (epoch : Q)
  : option (Callback * Switches T) :=
  if Qle_bool (pruning_start_epoch self) epoch then
    let steps := S (pruning_steps self) in
    warmup ← pruning_warmup_steps self;
    if Qeq_bool warmup 0 then None
    else
      Some (mkCallback
              (pruning_start_epoch self) (pruning_warmup_epoch self)
              (structural_pruning_start_epoch self) steps
              (pruning_warmup_steps self),
            mkSwitches (masks trainer) (use_structural_pruning trainer)
                       (pruning_switch trainer)
                       (structural_pruning_switch trainer)
                       (min_one (inject_Z (Z.of_nat steps) / warmup))
                       (set_state_calls trainer))
  else Some (self, trainer).

(** The events that the training loop sends to the callback. *)
Inductive callback_event :=
| TrainBegin (len_dataloader gradient_accumulation_steps : nat)
| EpochBegin (epoch : Q)
| StepBegin (epoch : Q).

Definition handle_event (st : Callback * Switches T) (e : callback_event)
  : option (Callback * Switches T) :=
  match e with
  | TrainBegin len_dataloader gradient_accumulation_steps =>
      self ← on_train_begin st.1 len_dataloader gradient_accumulation_steps;
      Some (self, st.2)
  | EpochBegin epoch => Some (st.1, on_epoch_begin st.1 st.2 epoch)
  | StepBegin epoch => on_step_begin st.1 st.2 epoch
  end.

(** Whether an epoch at or after [start] begins among the events. *)
Definition epoch_reached (start : Q) (events : list callback_event) : bool :=
  existsb (fun e => match e with
                    | EpochBegin epoch => Qle_bool start epoch
                    | _ => false
                    end) events.

Fixpoint handle_events (st : Callback * Switches T)
    (events : list callback_event) : option (Callback * Switches T) :=
  match events with
  | [] => Some st
  | e :: rest => st' ← handle_event st e; handle_events st' rest
  end.

End CallbackSteps.

(** ** The best score in [DistillTrainer.__init__], [evaluate] and [train] *)

Record ScoreState (V SD : Type) := mkScoreState {
  target_score_field : option string;
  distill_switch : bool;
  best_score : option V;
  best_state_dict : option SD;
}.
Arguments mkScoreState {V SD} _ _ _ _.
Arguments target_score_field {V SD} _.
Arguments distill_switch {V SD} _.
Arguments best_score {V SD} _.
Arguments best_state_dict {V SD} _.

Section BestScore.
Context {V SD : Type}.

(** The comparison [>] of two scores. *)
Variable gtb : V -> V -> bool.

Definition field_dict : gmap string string :=
  <["squad" := "eval_f1"]> (<["squad_v2" := "eval_f1"]> ∅).

(** The end of [__init__]: the attribute [self.target_score_field], [None]
    standing for an attribute that has not been set; an unknown
    [args.dataset_name] raises. *)
Definition init_score_state (args_target_score_field : option string)
    (args_dataset_name : string) : option (ScoreState V SD) :=
  field ← match args_target_score_field with
          | None => f ← field_dict !! args_dataset_name; Some (Some f)
          | Some _ => Some None
          end;
  Some (mkScoreState field false None None).

(** The end of [evaluate], once [super().evaluate] has returned [results]
    and [distill_switch] has been restored: [sparsity_close] is the outcome
    of [sparsity - self.args.target_sparsity <= sparsity_eps] and
    [state_dict] the model's at that time.  Reading an attribute that has
    not been set raises. *)
Definition record_best_score (self : ScoreState V SD) (local_rank : Z)
    (results : gmap string V) (sparsity_close : bool) (state_dict : SD)
  : option (ScoreState V SD) :=
  if negb (local_rank =? 0)%Z then Some self
  else
    field ← target_score_field self;
    match results !! field with
    | Some score =>
        if sparsity_close && distill_switch self then
          if match best_score self with
             | None => true
             | Some best => gtb score best
             end
          then Some (mkScoreState (target_score_field self)
                                  (distill_switch self)
                                  (Some score) (Some state_dict))
          else Some self
        else Some self
    | None => Some self
    end.





End BestScore.

(** * Properties *)

Section LinearAlgebraFacts.
Context {R : Type} `{Scalar R}.
Hypothesis SRth : semi_ring_theory rO rI radd rmul (@eq R).
Add Ring Rsr : SRth.

Lemma dot_nil_r (u : list R) : dot u [] = rO.
Proof. destruct u; reflexivity. Qed.

Lemma dot_cons (a b : R) (u v : list R) :
  dot (a :: u) (b :: v) = radd (rmul a b) (dot u v).
Proof. reflexivity. Qed.

Lemma dot_vadd (u v x : list R) :
  length u = length v ->
  dot (vadd u v) x = radd (dot u x) (dot v x).
Proof.
  revert v x. induction u as [|a u IH]; intros [|b v] [|c x] Hlen;
    simpl in Hlen; try discriminate; unfold vadd; simpl.
  - change (dot [] []) with rO. ring.
  - change (dot [] (c :: x)) with rO. ring.
  - rewrite !dot_nil_r. ring.
  - fold (vadd u v). rewrite !dot_cons, IH by lia. ring.
Qed.

Lemma dot_vscale (c : R) (u x : list R) :
  dot (vscale c u) x = rmul c (dot u x).
Proof.
  revert x. induction u as [|a u IH]; intros [|b x]; unfold vscale; simpl.
  - change (dot [] []) with rO. ring.
  - change (dot [] (b :: x)) with rO. ring.
  - rewrite !dot_nil_r. ring.
  - fold (vscale c u). rewrite !dot_cons, IH. ring.
Qed.

Lemma dot_zeros (n : nat) (f : nat -> R) (x : list R) (s : nat) :
  (forall j, s <= j < s + n -> f j = rO) -> dot (map f (seq s n)) x = rO.
Proof.
  revert s x. induction n as [|n IH]; intros s [|b x] Hf; simpl;
    try reflexivity.
  rewrite dot_cons, IH, Hf by (intros; try apply Hf; lia). ring.
Qed.

Lemma map_nth_seq_id (r : list R) (n : nat) :
  length r = n -> map (fun j => nth j r rO) (seq 0 n) = r.
Proof.
  revert n. induction r as [|a r IH]; intros n Hn; simpl in Hn; subst n.
  - reflexivity.
  - simpl. f_equal. rewrite <- seq_shift, map_map. simpl. now apply IH.
Qed.

Lemma zip_with_map_same {A B C D : Type} (f : B -> C -> D) (g : A -> B)
    (h : A -> C) (l : list A) :
  zip_with f (map g l) (map h l) = map (fun a => f (g a) (h a)) l.
Proof. induction l as [|a l IH]; simpl; [reflexivity | now rewrite IH]. Qed.

(** A row of a product is the combination of the rows of the right factor
    weighted by the row of the left factor. *)
Lemma matmul_row_cons (b : R) (rb ra : list R) (A : list (list R)) (n : nat) :
  length ra = n ->
  map (fun j => dot (b :: rb) (col j (ra :: A))) (seq 0 n) =
  vadd (vscale b ra) (map (fun j => dot rb (col j A)) (seq 0 n)).
Proof.
  intros Hra.
  assert (E : vscale b ra = map (fun j => rmul b (nth j ra rO)) (seq 0 n)).
  { unfold vscale. rewrite <- (map_map (fun j => nth j ra rO) (rmul b)).
    now rewrite map_nth_seq_id. }
  rewrite E. unfold vadd. rewrite zip_with_map_same.
  apply map_ext. intros j. reflexivity.
Qed.

Lemma dot_matmul_row (n : nat) (rb : list R) (A : list (list R)) (x : list R) :
  Forall (fun r => length r = n) A ->
  dot (map (fun j => dot rb (col j A)) (seq 0 n)) x = dot rb (matvec A x).
Proof.
  intros HA. revert rb. induction HA as [|ra A Hra HA IH]; intros rb.
  - simpl. rewrite dot_nil_r. apply dot_zeros. intros j _.
    destruct rb; reflexivity.
  - destruct rb as [|b rb].
    + apply dot_zeros. intros j _. reflexivity.
    + rewrite matmul_row_cons by exact Hra.
      rewrite dot_vadd.
      * rewrite dot_vscale, IH. simpl. rewrite dot_cons. reflexivity.
      * unfold vscale. rewrite !length_map, length_seq. exact Hra.
Qed.

(** [(B @ A) x = B (A x)]. *)
Lemma matvec_matmul (n : nat) (B A : list (list R)) (x : list R) :
  Forall (fun r => length r = n) A ->
  matvec (matmul n B A) x = matvec B (matvec A x).
Proof.
  intros HA. unfold matvec at 1 2, matmul. rewrite map_map.
  apply map_ext. intros rb. now apply dot_matmul_row.
Qed.

Lemma map_radd_zero (v : list R) : map (radd rO) v = v.
Proof.
  induction v as [|a v IH]; simpl; [reflexivity|]. rewrite IH. f_equal. ring.
Qed.

Lemma vadd_assoc (u v w : list R) : vadd (vadd u v) w = vadd u (vadd v w).
Proof.
  revert v w. induction u as [|a u IH]; intros [|b v] [|c w]; try reflexivity.
  unfold vadd in *. simpl. rewrite IH. f_equal. ring.
Qed.

Lemma dot_comm (u v : list R) : dot u v = dot v u.
Proof.
  revert v. induction u as [|a u IH]; intros [|b v]; try reflexivity.
  rewrite !dot_cons, IH. ring.
Qed.

Lemma matvec_vadd (W : list (list R)) (u v : list R) :
  length u = length v ->
  matvec W (vadd u v) = vadd (matvec W u) (matvec W v).
Proof.
  intros Hlen. unfold matvec, vadd at 2. rewrite zip_with_map_same.
  apply map_ext. intros r.
  rewrite (dot_comm r (vadd u v)), dot_vadd by exact Hlen.
  now rewrite (dot_comm u r), (dot_comm v r).
Qed.

Lemma length_matvec (W : list (list R)) (x : list R) :
  length (matvec W x) = length W.
Proof. unfold matvec. apply length_map. Qed.

Lemma length_matmul (n : nat) (B A : list (list R)) :
  length (matmul n B A) = length B.
Proof. unfold matmul. apply length_map. Qed.

Lemma matmul_rows (n : nat) (B A : list (list R)) :
  Forall (fun r => length r = n) (matmul n B A).
Proof.
  unfold matmul. apply Forall_forall. intros r Hr.
  apply list_elem_of_fmap in Hr as (rb & -> & _).
  now rewrite length_map, length_seq.
Qed.

Lemma col_matmul (n j : nat) (B A : list (list R)) :
  j < n -> col j (matmul n B A) = matvec B (col j A).
Proof.
  intros Hj. unfold col at 1, matmul, matvec. rewrite map_map.
  apply map_ext. intros rb.
  rewrite (nth_indep _ rO (dot rb (col 0 A)))
    by (rewrite length_map, length_seq; exact Hj).
  rewrite (map_nth (fun j => dot rb (col j A))), seq_nth by exact Hj.
  reflexivity.
Qed.

(** [(C @ B) @ A = C @ (B @ A)]. *)
Lemma matmul_assoc (n m : nat) (C B A : list (list R)) :
  Forall (fun r => length r = m) B ->
  matmul n (matmul m C B) A = matmul n C (matmul n B A).
Proof.
  intros HB. unfold matmul at 1 2 3. rewrite map_map.
  apply map_ext. intros rc. apply map_ext_in. intros j Hj.
  apply in_seq in Hj. rewrite col_matmul by lia.
  now apply dot_matmul_row.
Qed.

Lemma merge_eq (A B : Linear R) :
  in_features B = out_features A ->
  merge (mkLinearMixer A) B = Some (mkLinearMixer (merged A B)).
Proof.
  intros Hdim. unfold merge, merged, has_bias. simpl.
  destruct (decide _) as [_|Hne]; [|contradiction].
  destruct (bias A), (bias B); reflexivity.
Qed.

Lemma merge_inv (self : LinearMixer R) (other : Linear R) (M : LinearMixer R) :
  merge self other = Some M ->
  in_features other = out_features (linear self) /\
  M = mkLinearMixer (merged (linear self) other).
Proof.
  intros Hm. destruct self as [A]. simpl.
  destruct (decide (in_features other = out_features A)) as [Hdim|Hne].
  - rewrite merge_eq in Hm by exact Hdim. split; congruence.
  - unfold merge in Hm. simpl in Hm.
    destruct (decide _); [contradiction | discriminate].
Qed.

Lemma merged_wf (A B : Linear R) :
  Linear_wf B -> Linear_wf (merged A B).
Proof.
  intros (HlenB & HrowsB & HbiasB). unfold Linear_wf, merged. simpl.
  split; [|split].
  - now rewrite length_matmul.
  - apply matmul_rows.
  - intros v Hv. destruct (bias A) as [a|], (bias B) as [b|] eqn:Eb;
      try discriminate.
    injection Hv as <-. unfold vadd.
    rewrite length_zip_with, length_map, length_matvec, (HbiasB b eq_refl), HlenB. lia.
Qed.

(** When both transforms carry a bias, or neither does, the merged
    transform computes the second after the first. *)
Lemma merged_forward (A B : Linear R) (x : list R) :
  Linear_wf A -> Linear_wf B ->
  in_features B = out_features A ->
  has_bias A = has_bias B ->
  length x = in_features A ->
  forward (merged A B) x = forward A x ≫= forward B.
Proof.
  intros (HlenA & HrowsA & HbiasA) (HlenB & HrowsB & HbiasB) Hdim Hb Hx.
  unfold forward, merged, has_bias in *. simpl.
  destruct (decide (length x = in_features A)) as [_|]; [|contradiction].
  simpl.
  destruct (bias A) as [a|] eqn:Ea, (bias B) as [b|] eqn:Eb; try discriminate.
  - assert (Hlen : length (vadd (matvec (weight A) x) a) = in_features B).
    { unfold vadd. rewrite length_zip_with, length_matvec, (HbiasA a eq_refl). lia. }
    destruct (decide _) as [_|]; [|contradiction].
    f_equal. rewrite matvec_matmul by exact HrowsA.
    rewrite matvec_vadd
      by (rewrite length_matvec, (HbiasA a eq_refl); exact HlenA).
    rewrite map_radd_zero. symmetry. apply vadd_assoc.
  - assert (Hlen : length (matvec (weight A) x) = in_features B)
      by (rewrite length_matvec; lia).
    destruct (decide _) as [_|]; [|contradiction].
    f_equal. now apply matvec_matmul.
Qed.

Lemma merged_assoc (A B C : Linear R) :
  Linear_wf B -> merged (merged A B) C = merged A (merged B C).
Proof.
  intros (HlenB & HrowsB & HbiasB). unfold merged. simpl. f_equal.
  - symmetry. now apply matmul_assoc.
  - destruct (bias A) as [a|], (bias B) as [b|] eqn:Eb, (bias C) as [c|];
      try reflexivity.
    f_equal. rewrite !map_radd_zero.
    rewrite matvec_matmul by exact HrowsB.
    rewrite matvec_vadd
      by (rewrite length_matvec, (HbiasB b eq_refl); exact HlenB).
    apply vadd_assoc.
Qed.

(** C3.  Fusion is associative: for transforms [A], [B], [C] with
    compatible dimensions, [merge(merge(A,B),C)] and [merge(A,merge(B,C))]
    both succeed and are the same transform, so they agree on every input
    [x] and on whether they carry a bias. *)
Theorem merge_assoc (A B C : Linear R) (x : list R) :
  Linear_wf A -> Linear_wf B -> Linear_wf C ->
  in_features B = out_features A ->
  in_features C = out_features B ->
  length x = in_features A ->
  exists (L Rr : LinearMixer R) (y : list R),
    (merge (mkLinearMixer A) B ≫= fun m => merge m C) = Some L /\
    (merge (mkLinearMixer B) C ≫= fun m => merge (mkLinearMixer A) (unwrap m))
      = Some Rr /\
    forward (unwrap L) x = Some y /\
    forward (unwrap Rr) x = Some y /\
    has_bias (unwrap L) = has_bias (unwrap Rr) /\
    L = Rr.
Proof.
  intros HA HB HC HAB HBC Hx.
  assert (EL : (merge (mkLinearMixer A) B ≫= fun m => merge m C)
               = Some (mkLinearMixer (merged (merged A B) C))).
  { rewrite merge_eq by exact HAB. simpl. now apply merge_eq. }
  assert (ER : (merge (mkLinearMixer B) C ≫=
                  fun m => merge (mkLinearMixer A) (unwrap m))
               = Some (mkLinearMixer (merged A (merged B C)))).
  { rewrite merge_eq by exact HBC. simpl. now apply merge_eq. }
  rewrite merged_assoc in EL by exact HB.
  assert (Hy : is_Some (forward (merged A (merged B C)) x)).
  { unfold forward. simpl.
    destruct (decide (length x = in_features A)); [eauto | contradiction]. }
  destruct Hy as [y Hy].
  exists (mkLinearMixer (merged A (merged B C))),
         (mkLinearMixer (merged A (merged B C))), y.
  repeat split; assumption.
Qed.

End LinearAlgebraFacts.

(** ** Row selection *)

Section SelectionFacts.
Context {R : Type} `{Scalar R}.

Lemma index_select_map {A B : Type} (f : A -> B) (t : list A) (indices : list nat) :
  index_select (map f t) indices = map f <$> index_select t indices.
Proof.
  unfold index_select. induction indices as [|i indices IH]; [reflexivity|].
  simpl. rewrite IH. change (map f t) with (f <$> t).
  rewrite list_lookup_fmap. destruct (t !! i); [|reflexivity]. simpl.
  destruct (mapM (fun i => t !! i) indices); reflexivity.
Qed.

Lemma index_select_zip_with {A B C : Type} (f : A -> B -> C) (u : list A)
    (v : list B) (indices : list nat) (u' : list A) (v' : list B) :
  index_select u indices = Some u' ->
  index_select v indices = Some v' ->
  index_select (zip_with f u v) indices = Some (zip_with f u' v').
Proof.
  unfold index_select. revert u' v'.
  induction indices as [|i indices IH]; intros u' v' Hu Hv; simpl in *.
  - injection Hu as <-. injection Hv as <-. reflexivity.
  - destruct (u !! i) as [a|] eqn:Ea; [|discriminate].
    destruct (v !! i) as [b|] eqn:Eb; [|discriminate]. simpl in *.
    destruct (mapM (fun i => u !! i) indices) as [us|]; [|discriminate].
    destruct (mapM (fun i => v !! i) indices) as [vs|]; [|discriminate].
    simpl in *. injection Hu as <-. injection Hv as <-.
    rewrite lookup_zip_with, Ea. simpl. rewrite Eb. simpl.
    now rewrite (IH us vs eq_refl eq_refl).
Qed.

Lemma length_index_select {A : Type} (t : list A) (indices : list nat) (t' : list A) :
  index_select t indices = Some t' -> length t' = length indices.
Proof.
  unfold index_select. intros Hs. symmetry. eapply length_mapM. exact Hs.
Qed.

(** [merge_mask] is row selection: applying the restricted transform is
    selecting, at [indices], the entries of the full output. *)
Lemma merge_mask_forward (A : Linear R) (indices : list nat)
    (M : LinearMixer R) (x : list R) :
  merge_mask (mkLinearMixer A) indices = Some M ->
  length x = in_features A ->
  forward (unwrap M) x = forward A x ≫= fun y => index_select y indices.
Proof.
  intros Hm Hx. unfold merge_mask in Hm. simpl in Hm.
  destruct (index_select (weight A) indices) as [rows|] eqn:Erows;
    [|discriminate]. simpl in Hm.
  unfold forward.
  destruct (decide (length x = in_features A)) as [_|]; [|contradiction].
  assert (Hmv : index_select (matvec (weight A) x) indices
                = Some (matvec rows x)).
  { unfold matvec. now rewrite index_select_map, Erows. }
  destruct (bias A) as [b|] eqn:Eb.
  - destruct (index_select b indices) as [b'|] eqn:Eb'; [|discriminate].
    simpl in Hm. injection Hm as <-. simpl.
    destruct (decide _) as [_|]; [|contradiction]. symmetry.
    now apply index_select_zip_with.
  - injection Hm as <-. simpl.
    destruct (decide _) as [_|]; [|contradiction]. now symmetry.
Qed.

End SelectionFacts.

Section SelectionMatrixFacts.
Context {R : Type} `{Scalar R}.
Hypothesis SRth : semi_ring_theory rO rI radd rmul (@eq R).
Add Ring Rsr_sel : SRth.

Lemma dot_one_hot_from (d s i : nat) (v : list R) :
  s <= i ->
  dot (map (fun j => if decide (j = i) then rI else rO) (seq s d)) v
  = nth (i - s) (firstn d v) rO.
Proof.
  revert s v. induction d as [|d IH]; intros s v Hs.
  - simpl. now destruct (i - s).
  - destruct v as [|a v].
    + simpl. rewrite dot_nil_r. now destruct (i - s).
    + cbn [seq map firstn]. rewrite dot_cons.
      destruct (decide (s = i)) as [->|Hne].
      * rewrite Nat.sub_diag. simpl.
        rewrite (dot_zeros SRth d _ v (S i))
          by (intros j Hj; destruct (decide (j = i)); [lia | reflexivity]).
        ring.
      * rewrite IH by lia.
        replace (i - s) with (S (i - S s)) by lia. simpl. ring.
Qed.

Lemma dot_one_hot (d i : nat) (v : list R) :
  length v = d -> dot (one_hot d i) v = nth i v rO.
Proof.
  intros Hv. unfold one_hot. rewrite dot_one_hot_from by lia.
  rewrite Nat.sub_0_r, firstn_all2 by lia. reflexivity.
Qed.

Lemma matmul_one_hot (n : nat) (W : list (list R)) (i : nat) (r : list R) :
  W !! i = Some r -> length r = n ->
  map (fun j => dot (one_hot (length W) i) (col j W)) (seq 0 n) = r.
Proof.
  intros Hi Hr.
  transitivity (map (fun j => nth j r rO) (seq 0 n));
    [|now apply map_nth_seq_id].
  apply map_ext. intros j.
  rewrite dot_one_hot by (unfold col; apply length_map).
  unfold col. erewrite nth_indep
    by (rewrite length_map; eapply lookup_lt_Some; exact Hi).
  rewrite (map_nth (fun r => nth j r rO)).
  f_equal. apply nth_lookup_Some with (d := []) in Hi. exact Hi.
Qed.

(** For a transform without bias, [merge_mask] at indices in range is
    [merge] with the selection matrix: the refinement the claim C2 states
    holds where [merge] has no bias to lose. *)
Lemma merge_mask_eq_merge_selection (A : Linear R) (indices : list nat)
    (M : LinearMixer R) :
  Linear_wf A -> bias A = None ->
  merge_mask (mkLinearMixer A) indices = Some M ->
  merge (mkLinearMixer A) (SelectionMatrix (out_features A) indices) = Some M.
Proof.
  intros (Hlen & Hrows & _) Hb Hm.
  assert (Hw : forall indices rows,
             index_select (weight A) indices = Some rows ->
             map (fun i =>
                    map (fun j => dot (one_hot (length (weight A)) i)
                                      (col j (weight A)))
                        (seq 0 (in_features A))) indices = rows).
  { unfold index_select. clear Hm indices.
    induction indices as [|i indices IH]; intros rows Erows; simpl in Erows.
    - now injection Erows as <-.
    - destruct (weight A !! i) as [r|] eqn:Ei; [|discriminate]. simpl in Erows.
      destruct (mapM (fun i => weight A !! i) indices) as [rows'|];
        [|discriminate]. simpl in Erows. injection Erows as <-.
      simpl. f_equal; [|now apply IH].
      apply matmul_one_hot; [exact Ei|].
      rewrite Forall_forall in Hrows. apply Hrows.
      eapply list_elem_of_lookup_2. exact Ei. }
  rewrite merge_eq by reflexivity.
  unfold merge_mask in Hm. simpl in Hm. rewrite Hb in Hm.
  destruct (index_select (weight A) indices) as [rows|] eqn:Erows;
    [|discriminate]. simpl in Hm. injection Hm as <-.
  unfold merged, SelectionMatrix. simpl. rewrite Hb.
  unfold matmul. rewrite map_map, <- Hlen, (Hw _ _ Erows). reflexivity.
Qed.

End SelectionMatrixFacts.

(** ** The bias kept by [merge] *)

(** C1.  [merge] keeps a bias only when both transforms carry one.  With
    [A(x) = x + 1] and the bias-free [B(x) = x], the merged transform has no
    bias and sends [0] to [0], whereas [B(A(0)) = 1]. *)
Theorem merge_drops_single_bias :
  let A := mkLinear 1 1 [[1%Z]] (Some [1%Z]) in
  let B := mkLinear 1 1 [[1%Z]] None in
  exists M : LinearMixer Z,
    merge (mkLinearMixer A) B = Some M /\
    bias (unwrap M) = None /\
    forward (unwrap M) [0%Z] = Some [0%Z] /\
    (forward A [0%Z] ≫= forward B) = Some [1%Z].
Proof. eexists. repeat split; reflexivity. Qed.

(** C2.  [merge_mask(A, idx)] selects rows and bias entries, so it agrees
    with selecting from [A(x)]; [merge(A, SelectionMatrix(idx))] loses the
    bias of [A], the selection matrix carrying none.  With [A(x) = x + 1]
    and [idx = [0]] the two transforms differ: on [0] the first gives [1],
    the second [0]. *)
Theorem merge_mask_not_merge_selection :
  let A := mkLinear 1 1 [[1%Z]] (Some [1%Z]) in
  exists M1 M2 : LinearMixer Z,
    merge_mask (mkLinearMixer A) [0] = Some M1 /\
    merge (mkLinearMixer A) (SelectionMatrix 1 [0]) = Some M2 /\
    forward (unwrap M1) [0%Z] = Some [1%Z] /\
    (forward A [0%Z] ≫= fun y => index_select y [0]) = Some [1%Z] /\
    forward (unwrap M2) [0%Z] = Some [0%Z] /\
    M1 <> M2.
Proof. do 2 eexists. repeat split; try reflexivity. discriminate. Qed.

(** ** The loop of [mix] *)

Section MixFacts.
Context {R : Type} `{Scalar R} `{Exceeds R}.
Hypothesis SRth : semi_ring_theory rO rI radd rmul (@eq R).
Add Ring Rsr_mix : SRth.

Local Arguments Compactor_extract : simpl never.
Local Arguments LayerNorm_extract : simpl never.
Local Arguments LinearWithMaskBefore_extract : simpl never.
Local Arguments merge : simpl never.
Local Arguments merge_mask : simpl never.
Local Arguments fuse_projection : simpl never.
Local Arguments fuse_layer : simpl never.
Local Arguments parse : simpl never.

Lemma load_as_eq {A : Type} (f : Module R -> option A) (l : loc) (s : Store R) :
  load_as f l s = (fun a => (a, s)) <$> (s !! l ≫= f).
Proof.
  unfold load_as, bindM, load, liftM. destruct (s !! l) as [o|]; [|reflexivity].
  simpl. destruct (f o); reflexivity.
Qed.

Lemma bindM_load_as {A B : Type} (f : Module R -> option A) (l : loc)
    (k : A -> M R B) (s : Store R) :
  bindM (load_as f l) k s
  = match s !! l ≫= f with Some a => k a s | None => None end.
Proof.
  unfold bindM. rewrite load_as_eq. destruct (s !! l ≫= f); reflexivity.
Qed.

Lemma bindM_liftM {A B : Type} (o : option A) (k : A -> M R B) (s : Store R) :
  bindM (liftM o) k s = match o with Some a => k a s | None => None end.
Proof. unfold bindM, liftM. destruct o; reflexivity. Qed.

Lemma bindM_alloc {B : Type} (o : Module R) (k : loc -> M R B) (s : Store R) :
  bindM (alloc o) k s = k (length s) (s ++ [o]).
Proof. reflexivity. Qed.

Ltac step_load :=
  rewrite bindM_load_as;
  match goal with
  | |- context [?s !! ?l ≫= ?f] => destruct (s !! l ≫= f); [|reflexivity]
  end; simpl.

Lemma load_layer_eq (past : loc) (module : BertLayer) (s : Store R) :
  load_layer past module s = (fun ms => (ms, s)) <$> read_layer s past module.
Proof. unfold load_layer, read_layer. repeat step_load. reflexivity. Qed.

Lemma install_layer_eq (p : LayerParts R) (s : Store R) :
  install_layer p s = Some (installed_layer (length s), s ++ layer_objects p).
Proof.
  unfold install_layer. rewrite !bindM_alloc. unfold retM.
  rewrite !length_app. simpl. rewrite <- !app_assoc. simpl.
  unfold installed_layer, layer_objects.
  rewrite <- !Nat.add_assoc. reflexivity.
Qed.

Lemma compact_layer_eq (past : loc) (module : BertLayer) (s : Store R) :
  compact_layer past module s
  = (fun p => ((installed_layer (length s), output_LayerNorm module),
               s ++ layer_objects p))
    <$> (read_layer s past module ≫= fuse_layer).
Proof.
  unfold compact_layer, bindM at 1. rewrite load_layer_eq.
  destruct (read_layer s past module) as [ms|]; [|reflexivity]. simpl.
  rewrite bindM_liftM. destruct (fuse_layer ms) as [p|]; [|reflexivity]. simpl.
  unfold bindM. now rewrite install_layer_eq.
Qed.

Lemma mix_layers_eq (layers : list BertLayer) (past : loc) (s : Store R) :
  mix_layers past layers s
  = (fun ps => ((installed_layers (length s) (length layers),
                 last_cursor past layers),
                s ++ concat (map layer_objects ps)))
    <$> fuse_layers s past layers.
Proof.
  revert past s. induction layers as [|module rest IH]; intros past s.
  - simpl. unfold retM. now rewrite app_nil_r.
  - simpl. unfold bindM at 1. rewrite compact_layer_eq.
    destruct (read_layer s past module) as [ms|]; [|reflexivity]. simpl.
    destruct (fuse_layer ms) as [p|]; [|reflexivity]. simpl.
    unfold bindM at 1. rewrite IH.
    destruct (fuse_layers _ _ rest) as [ps|]; [|reflexivity]. simpl.
    unfold retM. rewrite length_app. simpl. now rewrite <- app_assoc.
Qed.

Lemma compact_eq (model : BertModel) (s : Store R) :
  compact model s = compact_result model s.
Proof.
  unfold compact, compact_result. unfold bindM at 1. rewrite mix_layers_eq.
  destruct (fuse_layers s _ _) as [ps|]; [|reflexivity]. simpl.
  set (s1 := s ++ concat (map layer_objects ps)).
  unfold fuse_ends.
  rewrite bindM_load_as.
  destruct (s1 !! embeddings_LayerNorm model ≫= as_norm) as [first_norm|];
    [|reflexivity]. simpl.
  rewrite bindM_load_as.
  destruct (s1 !! last_cursor _ _ ≫= as_norm) as [last_norm|];
    [|reflexivity]. simpl.
  destruct (parse (norm_mask first_norm)) as [first_values first_indices].
  destruct (parse (norm_mask last_norm)) as [last_values last_indices].
  rewrite bindM_liftM. destruct (pooler_dense model) as [pooler|]; [|reflexivity].
  simpl. rewrite bindM_liftM.
  destruct (Compactor_extract (in_comp first_norm) Output first_indices
              (Some first_values)) as [seq0|]; [|reflexivity].
  simpl. rewrite bindM_liftM.
  destruct (LayerNorm_extract first_norm first_indices) as [seq1|]; [|reflexivity].
  simpl. rewrite !bindM_alloc, !length_app. simpl.
  rewrite <- !app_assoc. simpl. rewrite <- !Nat.add_assoc. simpl.
  rewrite bindM_load_as.
  match goal with
  | |- context [?st !! pooler ≫= as_linear] =>
      destruct (st !! pooler ≫= as_linear) as [dense|]; [|reflexivity]
  end.
  simpl. rewrite bindM_liftM.
  match goal with
  | |- context [Compactor_extract ?c Input ?i ?v ≫= ?k] =>
      destruct (Compactor_extract c Input i v ≫= k) as [new_dense|];
        [|reflexivity]
  end.
  simpl. rewrite bindM_alloc. unfold retM.
  rewrite !length_app. simpl. rewrite <- !app_assoc. simpl.
  rewrite <- ?Nat.add_assoc. reflexivity.
Qed.

(** *** Widths of the extracted and fused transforms *)

Lemma parse_from_lengths (i : nat) (t : R) (gs : list R) :
  length (parse_from i t gs).1 = length (parse_from i t gs).2 /\
  Forall (fun k => i <= k < i + length gs) (parse_from i t gs).2.
Proof.
  revert i. induction gs as [|g gs IH]; intros i; simpl.
  - split; [reflexivity | constructor].
  - destruct (IH (S i)) as [Hlen Hrange].
    destruct (parse_from (S i) t gs) as [values indices]. simpl in *.
    assert (Hrange' : Forall (fun k => i <= k < i + S (length gs)) indices)
      by (eapply Forall_impl; [exact Hrange | simpl; intros; lia]).
    destruct (exceeds g t); simpl.
    + split; [now f_equal | constructor; [lia | exact Hrange']].
    + split; assumption.
Qed.

(** [parse] returns as many values as indices, the indices within the
    feature universe. *)
Lemma parse_lengths (m : Mask R) :
  length (parse m).1 = length (parse m).2 /\
  Forall (fun k => k < length (gate m)) (parse m).2.
Proof.
  unfold parse. destruct (parse_from_lengths 0 (drop_threshold m) (gate m))
    as [Hlen Hrange].
  split; [exact Hlen|]. eapply Forall_impl; [exact Hrange|].
  simpl. intros k Hk. lia.
Qed.

Ltac inv_bind H :=
  match type of H with
  | mbind _ ?o = Some _ =>
      let E := fresh "E" in
      destruct o eqn:E; [simpl in H | discriminate H]
  | fmap _ ?o = Some _ =>
      let E := fresh "E" in
      destruct o eqn:E; [simpl in H | discriminate H]
  end.

Lemma merge_dims (self : LinearMixer R) (other : Linear R) (M : LinearMixer R) :
  merge self other = Some M ->
  in_features (unwrap M) = in_features (linear self) /\
  out_features (unwrap M) = out_features other.
Proof.
  unfold merge. destruct (decide _); [|discriminate].
  destruct (has_bias (linear self) && has_bias other).
  - destruct (bias (linear self)), (bias other); simpl;
      try discriminate; intros [= <-]; split; reflexivity.
  - intros [= <-]. split; reflexivity.
Qed.

Lemma merge_mask_dims (self : LinearMixer R) (indices : list nat)
    (M : LinearMixer R) :
  merge_mask self indices = Some M ->
  in_features (unwrap M) = in_features (linear self) /\
  out_features (unwrap M) = length indices.
Proof.
  unfold merge_mask. intros Hm. inv_bind Hm.
  destruct (bias (linear self)).
  - inv_bind Hm. injection Hm as <-. split; reflexivity.
  - injection Hm as <-. split; reflexivity.
Qed.

Lemma Compactor_extract_output_dims (c : Compactor R) (indices : list nat)
    (values : option (list R)) (l : Linear R) :
  Compactor_extract c Output indices values = Some l ->
  in_features l = in_features (probe c) /\ out_features l = length indices.
Proof.
  unfold Compactor_extract. intros He. do 2 inv_bind He.
  destruct values as [vs|].
  - destruct (decide _); [|discriminate]. injection He as <-. split; reflexivity.
  - injection He as <-. split; reflexivity.
Qed.

Lemma Compactor_extract_input_dims (c : Compactor R) (indices : list nat)
    (values : option (list R)) (l : Linear R) :
  Compactor_extract c Input indices values = Some l ->
  in_features l = length indices /\ out_features l = out_features (probe c) /\
  select_cols (weight (probe c)) indices = Some (weight l).
Proof.
  unfold Compactor_extract. intros He. inv_bind He.
  injection He as <-. repeat split; reflexivity.
Qed.

Lemma LayerNorm_extract_size (n : LayerNormWithCompactor R)
    (indices : list nat) (pn : PackedLayerNorm R) :
  LayerNorm_extract n indices = Some pn -> packed_size pn = length indices.
Proof.
  unfold LayerNorm_extract. intros He. do 2 inv_bind He.
  now injection He as <-.
Qed.

Lemma fuse_projection_dims (head : Linear R) (m : LinearWithCompactor R)
    (indices : list nat) (values : option (list R)) (Q : Linear R) :
  fuse_projection head m indices values = Some Q ->
  in_features Q = in_features head /\ out_features Q = length indices.
Proof.
  unfold fuse_projection. intros Hf. do 3 inv_bind Hf. injection Hf as <-.
  apply merge_dims in E as [Hin _]. apply merge_dims in E1 as [Hin' Hout].
  apply Compactor_extract_output_dims in E0 as [_ Hc].
  unfold unwrap in *. simpl in *. split; congruence.
Qed.

(** The steps of [fuse_layer], one equation for each. *)
Lemma fuse_layer_inv (ms : LayerModules R) (p : LayerParts R) :
  fuse_layer ms = Some p ->
  let n0 := parse (norm_mask (norm0 ms)) in
  let n1 := parse (norm_mask (norm1 ms)) in
  let n2 := parse (norm_mask (norm2 ms)) in
  let qk := parse (lc_mask (q_module ms)) in
  let vo := parse (lc_mask (v_module ms)) in
  let ffn := parse (lm_mask (w2_module ms)) in
  exists norm0_out_comp norm1_in_comp norm1_out_comp norm2_in_comp : Linear R,
    LayerNorm_extract (norm1 ms) n1.2 = Some (new_attention_output_LayerNorm p) /\
    LayerNorm_extract (norm2 ms) n2.2 = Some (new_output_LayerNorm p) /\
    Compactor_extract (out_comp (norm0 ms)) Input n0.2 (Some n0.1)
      = Some norm0_out_comp /\
    Compactor_extract (in_comp (norm1 ms)) Output n1.2 (Some n1.1)
      = Some norm1_in_comp /\
    fuse_projection norm0_out_comp (q_module ms) qk.2 (Some qk.1) = Some (query p) /\
    fuse_projection norm0_out_comp (k_module ms) qk.2 None = Some (key p) /\
    fuse_projection norm0_out_comp (v_module ms) vo.2 (Some vo.1) = Some (value p) /\
    (c ← Compactor_extract (lc_compactor (o_module ms)) Input vo.2 None;
     m ← merge (mkLinearMixer c) (LinearWithCompactor_extract (o_module ms));
     unwrap <$> merge m norm1_in_comp) = Some (output p) /\
    Compactor_extract (out_comp (norm1 ms)) Input n1.2 (Some n1.1)
      = Some norm1_out_comp /\
    Compactor_extract (in_comp (norm2 ms)) Output n2.2 (Some n2.1)
      = Some norm2_in_comp /\
    (m ← merge (mkLinearMixer norm1_out_comp) (w1_module ms);
     unwrap <$> merge_mask m ffn.2) = Some (w1 p) /\
    (e ← LinearWithMaskBefore_extract (w2_module ms) ffn.2 ffn.1;
     unwrap <$> merge (mkLinearMixer e) norm2_in_comp) = Some (w2 p) /\
    unwrap <$> merge (mkLinearMixer norm0_out_comp) norm1_in_comp
      = Some (new_attention_output_residual p) /\
    unwrap <$> merge (mkLinearMixer norm1_out_comp) norm2_in_comp
      = Some (new_output_residual p).
Proof.
  unfold fuse_layer. intros Hf.
  destruct (parse (norm_mask (norm0 ms))) as [norm0_values norm0_indices].
  destruct (parse (norm_mask (norm1 ms))) as [norm1_values norm1_indices].
  destruct (parse (norm_mask (norm2 ms))) as [norm2_values norm2_indices].
  destruct (parse (lc_mask (q_module ms))) as [qk_values qk_indices].
  destruct (parse (lc_mask (v_module ms))) as [vo_values vo_indices].
  destruct (parse (lm_mask (w2_module ms))) as [ffn_values ffn_indices].
  simpl. do 14 inv_bind Hf. injection Hf as <-. simpl.
  match goal with
  | E0 : Compactor_extract (out_comp (norm0 ms)) _ _ _ = Some ?a,
    E1 : Compactor_extract (in_comp (norm1 ms)) _ _ _ = Some ?b,
    E2 : Compactor_extract (out_comp (norm1 ms)) _ _ _ = Some ?c,
    E3 : Compactor_extract (in_comp (norm2 ms)) _ _ _ = Some ?d |- _ =>
      exists a, b, c, d
  end.
  repeat split; assumption.
Qed.

Lemma fuse_layer_dims (ms : LayerModules R) (p : LayerParts R) :
  fuse_layer ms = Some p ->
  packed_size (new_attention_output_LayerNorm p)
    = length (parse (norm_mask (norm1 ms))).2 /\
  packed_size (new_output_LayerNorm p)
    = length (parse (norm_mask (norm2 ms))).2 /\
  out_features (query p) = length (parse (lc_mask (q_module ms))).2 /\
  out_features (value p) = length (parse (lc_mask (v_module ms))).2 /\
  out_features (w1 p) = length (parse (lm_mask (w2_module ms))).2.
Proof.
  intros Hf. apply fuse_layer_inv in Hf. simpl in Hf.
  destruct Hf as (a & b & c & d & Hn1 & Hn2 & _ & _ & Hq & _ & Hv & _ & _ & _
                  & Hw1 & _).
  apply LayerNorm_extract_size in Hn1, Hn2.
  apply fuse_projection_dims in Hq as [_ Hq], Hv as [_ Hv].
  do 2 inv_bind Hw1. injection Hw1 as Hw1.
  apply merge_mask_dims in E0 as [_ Hm]. rewrite <- Hw1.
  repeat split; assumption.
Qed.

Lemma fuse_layers_length (layers : list BertLayer) (s : Store R) (past : loc)
    (ps : list (LayerParts R)) :
  fuse_layers s past layers = Some ps -> length ps = length layers.
Proof.
  revert s past ps. induction layers as [|module rest IH]; intros s past ps Hf;
    simpl in Hf.
  - now injection Hf as <-.
  - destruct (read_layer s past module) as [ms|]; [|discriminate]. simpl in Hf.
    destruct (fuse_layer ms) as [p|]; [|discriminate]. simpl in Hf.
    destruct (fuse_layers _ _ rest) as [ps'|] eqn:E; [|discriminate].
    injection Hf as <-. simpl. f_equal. eapply IH. exact E.
Qed.

Lemma length_layer_objects (ps : list (LayerParts R)) :
  length (concat (map layer_objects ps)) = 10 * length ps.
Proof.
  induction ps as [|p ps IH]; [reflexivity|].
  simpl. rewrite IH. lia.
Qed.

Lemma installed_slots_bounds (k n : nat) :
  Forall (fun l => n <= l < n + 10 * k)
    (concat (map layer_slots (installed_layers n k))).
Proof.
  revert n. induction k as [|k IH]; intros n; simpl; [constructor|].
  unfold layer_slots at 1. simpl.
  repeat (apply Forall_cons; split; [lia|]).
  eapply Forall_impl; [apply IH|]. simpl. intros l Hl. lia.
Qed.

Lemma installed_slots_NoDup (k n : nat) :
  NoDup (concat (map layer_slots (installed_layers n k))).
Proof.
  revert n. induction k as [|k IH]; intros n; [constructor|].
  change (concat (map layer_slots (installed_layers n (S k))))
    with (layer_slots (installed_layer n)
          ++ concat (map layer_slots (installed_layers (n + 10) k))).
  apply NoDup_app. split; [|split].
  - unfold layer_slots. simpl.
    repeat (apply NoDup_cons; split;
            [rewrite ?elem_of_cons, elem_of_nil; lia|]).
    constructor.
  - intros l Hl Hl'.
    pose proof (installed_slots_bounds k (n + 10)) as Hb.
    rewrite Forall_forall in Hb. apply Hb in Hl'.
    unfold layer_slots in Hl. simpl in Hl.
    rewrite ?elem_of_cons, elem_of_nil in Hl. lia.
  - apply IH.
Qed.

Lemma mix_eq (state_dict : BertModel -> Store R -> gmap string (Tensor R))
    (factory : PackedBertConfig -> PModel R) (model : BertModel) (s : Store R) :
  mix state_dict factory model s
  = ('(model', s') ← compact model s;
     cfg ← get_packed_bert_config s' model';
     loaded ← load_state_dict (p_state (factory cfg)) (state_dict model' s') false;
     Some ((model', mkPModel (p_config (factory cfg)) loaded), s')).
Proof.
  unfold mix, bindM, readM, liftM, retM.
  destruct (compact model s) as [[model' s']|]; [|reflexivity]. simpl.
  destruct (get_packed_bert_config s' model') as [cfg|]; [|reflexivity]. simpl.
  destruct (load_state_dict _ _ false); reflexivity.
Qed.

Lemma mix_compact (state_dict : BertModel -> Store R -> gmap string (Tensor R))
    (factory : PackedBertConfig -> PModel R) (model model' : BertModel)
    (pm : PModel R) (s s' : Store R) :
  mix state_dict factory model s = Some ((model', pm), s') ->
  compact model s = Some (model', s').
Proof.
  rewrite mix_eq. destruct (compact model s) as [[m1 s1]|]; [|discriminate].
  simpl. destruct (get_packed_bert_config s1 m1); [|discriminate]. simpl.
  destruct (load_state_dict _ _ false); [|discriminate]. simpl.
  intros [= -> _ ->]. reflexivity.
Qed.

(** What [compact] leaves: the old store with new objects after it, and a
    model whose slots all refer to the new objects. *)
Lemma compact_frame (model model' : BertModel) (s s' : Store R) :
  compact model s = Some (model', s') ->
  (exists new, s' = s ++ new) /\
  Forall (fun l => length s <= l < length s') (model_slots model') /\
  NoDup (model_slots model').
Proof.
  rewrite compact_eq. unfold compact_result.
  destruct (fuse_layers s _ _) as [ps|] eqn:Eps; [|discriminate]. simpl.
  destruct (fuse_ends _ _ _) as [[[seq0 seq1] new_dense]|]; [|discriminate].
  simpl. intros [= <- <-].
  apply fuse_layers_length in Eps.
  set (k := length (encoder_layer model)) in *.
  pose proof (installed_slots_bounds k (length s)) as Hb.
  pose proof (installed_slots_NoDup k (length s)) as Hn.
  split; [|split].
  - eexists. rewrite <- app_assoc. reflexivity.
  - unfold model_slots. simpl.
    rewrite !length_app, length_layer_objects, Eps. simpl.
    repeat (apply Forall_cons; split; [lia|]).
    eapply Forall_impl; [exact Hb|]. simpl. intros l Hl. lia.
  - unfold model_slots. simpl.
    rewrite !length_app, length_layer_objects, Eps.
    rewrite Forall_forall in Hb.
    apply NoDup_cons. split.
    { rewrite elem_of_cons. intros [Heq | Hin]; [lia|].
      apply Hb in Hin. lia. }
    apply NoDup_cons. split; [|exact Hn].
    intros Hin. apply Hb in Hin. lia.
Qed.

(** C6 (amended).  [mix] never writes to an object of the input store:
    every object is still there, unchanged, when it returns.  What it
    changes is the model: every slot is rebound to an object allocated by
    [mix], and these new objects are pairwise distinct. *)
Theorem mix_frame (state_dict : BertModel -> Store R -> gmap string (Tensor R))
    (factory : PackedBertConfig -> PModel R) (model model' : BertModel)
    (pm : PModel R) (s s' : Store R) :
  mix state_dict factory model s = Some ((model', pm), s') ->
  (forall l o, s !! l = Some o -> s' !! l = Some o) /\
  Forall (fun l => length s <= l < length s') (model_slots model') /\
  NoDup (model_slots model').
Proof.
  intros Hmix. apply mix_compact in Hmix.
  destruct (compact_frame _ _ _ _ Hmix) as ([new ->] & Hfresh & Hnodup).
  split; [|split]; try assumption.
  intros l o Hl. now apply lookup_app_l_Some.
Qed.

(** *** One iteration of the loop *)

Lemma compact_layer_inv (past : loc) (module module' : BertLayer) (past' : loc)
    (s s' : Store R) :
  compact_layer past module s = Some ((module', past'), s') ->
  exists ms p,
    read_layer s past module = Some ms /\
    fuse_layer ms = Some p /\
    module' = installed_layer (length s) /\
    past' = output_LayerNorm module /\
    s' = s ++ layer_objects p.
Proof.
  rewrite compact_layer_eq.
  destruct (read_layer s past module) as [ms|]; [|discriminate]. simpl.
  destruct (fuse_layer ms) as [p|] eqn:Ep; [|discriminate]. simpl.
  intros [= <- <- <-]. exists ms, p. repeat split; assumption.
Qed.

Lemma lookup_new_object (s : Store R) (objs : list (Module R)) (j : nat) :
  (s ++ objs) !! (length s + j) = objs !! j.
Proof. rewrite lookup_app_r by lia. f_equal. lia. Qed.

(** C4 (amended).  In one iteration of the loop, the chain fused into the
    query transform begins with [norm0.out_comp] extracted on its "input"
    side at the kept indices of [norm0], the kept values being passed: the
    columns of the compactor weight at these indices, a transform from the
    [K] kept features to the [D] features of the compactor.  The chain of
    the feed-forward up-projection begins in the same way with
    [norm1.out_comp] at the kept indices of [norm1]. *)
Theorem chains_begin_on_input_side (past : loc) (module module' : BertLayer)
    (past' : loc) (s s' : Store R) :
  compact_layer past module s = Some ((module', past'), s') ->
  exists ms h0 h1 Q W1,
    read_layer s past module = Some ms /\
    let n0 := parse (norm_mask (norm0 ms)) in
    let n1 := parse (norm_mask (norm1 ms)) in
    let qk := parse (lc_mask (q_module ms)) in
    let ffn := parse (lm_mask (w2_module ms)) in
    Compactor_extract (out_comp (norm0 ms)) Input n0.2 (Some n0.1) = Some h0 /\
    select_cols (weight (probe (out_comp (norm0 ms)))) n0.2 = Some (weight h0) /\
    in_features h0 = length n0.2 /\
    out_features h0 = out_features (probe (out_comp (norm0 ms))) /\
    fuse_projection h0 (q_module ms) qk.2 (Some qk.1) = Some Q /\
    s' !! attention_self_query module' = Some (MLinear Q) /\
    in_features Q = length n0.2 /\
    Compactor_extract (out_comp (norm1 ms)) Input n1.2 (Some n1.1) = Some h1 /\
    select_cols (weight (probe (out_comp (norm1 ms)))) n1.2 = Some (weight h1) /\
    in_features h1 = length n1.2 /\
    out_features h1 = out_features (probe (out_comp (norm1 ms))) /\
    (m ← merge (mkLinearMixer h1) (w1_module ms);
     unwrap <$> merge_mask m ffn.2) = Some W1 /\
    s' !! intermediate_dense module' = Some (MLinear W1) /\
    in_features W1 = length n1.2.
Proof.
  intros Hc. apply compact_layer_inv in Hc
    as (ms & p & Hms & Hp & -> & -> & ->).
  pose proof (fuse_layer_inv ms p Hp) as Hinv. simpl in Hinv.
  destruct Hinv as (h0 & b & h1 & d & _ & _ & Hh0 & _ & Hq & _ & _ & _ & Hh1
                    & _ & Hw1 & _).
  exists ms, h0, h1, (query p), (w1 p). simpl.
  destruct (Compactor_extract_input_dims _ _ _ _ Hh0) as (Hin0 & Hout0 & Hcols0).
  destruct (Compactor_extract_input_dims _ _ _ _ Hh1) as (Hin1 & Hout1 & Hcols1).
  destruct (fuse_projection_dims _ _ _ _ _ Hq) as [HinQ _].
  assert (HinW : in_features (w1 p) = in_features h1).
  { pose proof Hw1 as Hw. do 2 inv_bind Hw. injection Hw as Hw.
    apply merge_dims in E as [Hm _]. apply merge_mask_dims in E0 as [Hmm _].
    rewrite <- Hw. unfold unwrap in *. simpl in *. congruence. }
  repeat split; try assumption; try congruence.
  - unfold installed_layer. simpl. now rewrite lookup_new_object.
  - unfold installed_layer. simpl. now rewrite lookup_new_object.
Qed.

(** *** Query and key *)

Lemma matmul_scale_rows (n : nat) (values : list R) (rows A : list (list R)) :
  matmul n (scale_rows values rows) A = scale_rows values (matmul n rows A).
Proof.
  unfold matmul, scale_rows. revert rows.
  induction values as [|v values IH]; intros [|r rows]; try reflexivity.
  simpl. f_equal; [|apply IH].
  unfold vscale at 2. rewrite map_map. apply map_ext. intros j.
  now apply dot_vscale.
Qed.

Lemma matvec_scale_rows (values : list R) (rows : list (list R)) (x : list R) :
  matvec (scale_rows values rows) x = zip_with rmul values (matvec rows x).
Proof.
  unfold matvec, scale_rows. revert rows.
  induction values as [|v values IH]; intros [|r rows]; try reflexivity.
  simpl. f_equal; [|apply IH]. now apply dot_vscale.
Qed.

Lemma vadd_scale (values u v : list R) :
  vadd (zip_with rmul values u) (zip_with rmul values v)
  = zip_with rmul values (vadd u v).
Proof.
  unfold vadd. revert u v.
  induction values as [|c values IH]; intros [|a u] [|b v];
    try (simpl; reflexivity).
  simpl. rewrite IH. f_equal. ring.
Qed.

Lemma merged_scale_out (X c : Linear R) (values : list R) :
  merged X (scale_out values c) = scale_out values (merged X c).
Proof.
  unfold merged, scale_out. simpl. f_equal.
  - apply matmul_scale_rows.
  - destruct (bias X) as [a|], (bias c) as [b|]; try reflexivity. simpl.
    f_equal. rewrite !(map_radd_zero SRth), matvec_scale_rows.
    apply vadd_scale.
Qed.

Lemma Compactor_extract_scaled (c : Compactor R) (indices : list nat)
    (values : list R) (l : Linear R) :
  Compactor_extract c Output indices (Some values) = Some l ->
  exists l0,
    Compactor_extract c Output indices None = Some l0 /\ l = scale_out values l0.
Proof.
  unfold Compactor_extract. intros He. do 2 inv_bind He.
  destruct (decide _); [|discriminate]. injection He as <-.
  eexists. split; reflexivity.
Qed.

(** The chain fused with the gate values is the chain fused without them,
    each output row then multiplied by its gate value. *)
Lemma fuse_projection_scaled (head : Linear R) (m : LinearWithCompactor R)
    (indices : list nat) (values : list R) (Q : Linear R) :
  fuse_projection head m indices (Some values) = Some Q ->
  exists Q0,
    fuse_projection head m indices None = Some Q0 /\ Q = scale_out values Q0.
Proof.
  unfold fuse_projection. intros Hf. inv_bind Hf. inv_bind Hf.
  apply Compactor_extract_scaled in E0 as (c0 & Hc0 & ->).
  rewrite Hc0. simpl. inv_bind Hf. injection Hf as <-.
  apply merge_inv in E0 as [Hdim ->].
  destruct l as [X]. simpl in *.
  rewrite (merge_eq X c0) by exact Hdim. simpl.
  eexists. split; [reflexivity|]. unfold unwrap. simpl.
  apply merged_scale_out.
Qed.

(** C5.  In one iteration of the loop, query and key are fused by the same
    chain from the same [norm0_out_comp] and at the same kept indices, those
    of the query module's mask; the query chain is given the gate values and
    the key chain is not.  Giving the values changes nothing but the
    scaling: the query is its own chain fused without values, each output
    row (and bias entry) then multiplied by its gate value. *)
Theorem key_shares_indices_without_scaling (past : loc)
    (module module' : BertLayer) (past' : loc) (s s' : Store R) :
  compact_layer past module s = Some ((module', past'), s') ->
  exists ms h0 Q K Q0,
    read_layer s past module = Some ms /\
    let n0 := parse (norm_mask (norm0 ms)) in
    let qk := parse (lc_mask (q_module ms)) in
    Compactor_extract (out_comp (norm0 ms)) Input n0.2 (Some n0.1) = Some h0 /\
    s' !! attention_self_query module' = Some (MLinear Q) /\
    s' !! attention_self_key module' = Some (MLinear K) /\
    fuse_projection h0 (q_module ms) qk.2 (Some qk.1) = Some Q /\
    fuse_projection h0 (k_module ms) qk.2 None = Some K /\
    fuse_projection h0 (q_module ms) qk.2 None = Some Q0 /\
    Q = scale_out qk.1 Q0.
Proof.
  intros Hc. apply compact_layer_inv in Hc
    as (ms & p & Hms & Hp & -> & -> & ->).
  pose proof (fuse_layer_inv ms p Hp) as Hinv. simpl in Hinv.
  destruct Hinv as (h0 & b & h1 & d & _ & _ & Hh0 & _ & Hq & Hk & _).
  destruct (fuse_projection_scaled _ _ _ _ _ Hq) as (Q0 & HQ0 & Hscale).
  exists ms, h0, (query p), (key p), Q0. simpl.
  repeat split; try assumption.
  - unfold installed_layer. simpl. now rewrite lookup_new_object.
  - unfold installed_layer. simpl. now rewrite lookup_new_object.
Qed.

(** *** The configuration read off the compacted model *)

Lemma layer_configs_flags (s : Store R) (config : BertConfig) (past : loc)
    (layers : list BertLayer) (cs : list PackedBertLayerConfig) :
  layer_configs s config past layers = Some cs ->
  Forall (fun c => prune_attn c = false /\ prune_ffn c = false) cs.
Proof.
  revert past cs. induction layers as [|layer rest IH]; intros past cs Hc;
    simpl in Hc.
  - injection Hc as <-. constructor.
  - do 7 inv_bind Hc. injection Hc as <-.
    constructor; [split; reflexivity|]. eapply IH. eassumption.
Qed.

Lemma lookup_installed (pre ext : Store R) (objs : list (Module R)) (j : nat) :
  j < length objs ->
  (pre ++ objs ++ ext) !! (length pre + j) = objs !! j.
Proof.
  intros Hj. rewrite lookup_app_r by lia.
  replace (length pre + j - length pre) with j by lia.
  now apply lookup_app_l.
Qed.

Lemma layer_configs_installed (ps : list (LayerParts R)) (pre ext : Store R)
    (config : BertConfig) (past : loc) (d : nat) :
  packed_size_at (pre ++ concat (map layer_objects ps) ++ ext) past = Some d ->
  layer_configs (pre ++ concat (map layer_objects ps) ++ ext) config past
    (installed_layers (length pre) (length ps))
  = Some (configs_of config d ps).
Proof.
  revert pre past d. induction ps as [|p ps IH]; intros pre past d Hd;
    [reflexivity|].
  set (st := pre ++ concat (map layer_objects (p :: ps)) ++ ext) in *.
  assert (Hst : st = pre ++ layer_objects p
                      ++ (concat (map layer_objects ps) ++ ext)).
  { unfold st. simpl. reflexivity. }
  assert (Hobj : forall j, j < 10 ->
                 st !! (length pre + j) = layer_objects p !! j).
  { intros j Hj. rewrite Hst. now apply lookup_installed. }
  change (length (p :: ps)) with (S (length ps)).
  cbn [installed_layers layer_configs installed_layer
       attention_output_LayerNorm output_LayerNorm attention_self_query
       attention_self_value intermediate_dense].
  rewrite Hd. cbn [mbind option_bind].
  unfold packed_size_at, out_features_at.
  rewrite <- (Nat.add_0_r (length pre)) at 1.
  rewrite !Hobj by lia. cbn [mbind option_bind fmap option_fmap option_map
    layer_objects lookup list_lookup as_packed_norm as_linear].
  assert (Hst' : st = (pre ++ layer_objects p)
                      ++ concat (map layer_objects ps) ++ ext).
  { rewrite Hst. now rewrite <- app_assoc. }
  assert (Hlen : length pre + 10 = length (pre ++ layer_objects p))
    by (rewrite length_app; reflexivity).
  rewrite Hlen, Hst'.
  rewrite (IH _ _ (packed_size (new_output_LayerNorm p))).
  - reflexivity.
  - rewrite <- Hst'. unfold packed_size_at.
    rewrite (Hobj 1) by lia. reflexivity.
Qed.

Lemma compact_config (model model' : BertModel) (s s' : Store R) :
  compact model s = Some (model', s') ->
  exists ps seq0 seq1 new_dense,
    fuse_layers s (embeddings_LayerNorm model) (encoder_layer model) = Some ps /\
    fuse_ends (s ++ concat (map layer_objects ps)) model
      (last_cursor (embeddings_LayerNorm model) (encoder_layer model))
      = Some (seq0, seq1, new_dense) /\
    get_packed_bert_config s' model'
      = Some (mkPackedBertConfig (config model)
                (configs_of (config model) (packed_size seq1) ps)).
Proof.
  rewrite compact_eq. unfold compact_result.
  destruct (fuse_layers s _ _) as [ps|] eqn:Eps; [|discriminate]. simpl.
  destruct (fuse_ends _ _ _) as [[[seq0 seq1] new_dense]|] eqn:Ee;
    [|discriminate].
  simpl. intros [= <- <-].
  exists ps, seq0, seq1, new_dense. split; [reflexivity|]. split; [exact Ee|].
  set (s1 := s ++ concat (map layer_objects ps)).
  set (ends := [MLinear seq0; MPackedLayerNorm seq1;
                MSequential [length s1; length s1 + 1]; MLinear new_dense]).
  assert (Hends : forall j, (s1 ++ ends) !! (length s1 + j) = ends !! j).
  { intros j. rewrite lookup_app_r by lia. f_equal. lia. }
  unfold get_packed_bert_config.
  cbn [embeddings_LayerNorm config encoder_layer].
  rewrite Hends. cbn [ends lookup list_lookup mbind option_bind as_sequential].
  rewrite <- (fuse_layers_length _ _ _ _ Eps).
  replace (s1 ++ ends) with (s ++ concat (map layer_objects ps) ++ ends)
    by (unfold s1; now rewrite app_assoc).
  rewrite (layer_configs_installed ps s ends (config model) _ (packed_size seq1)).
  - reflexivity.
  - rewrite app_assoc. fold s1. unfold packed_size_at.
    rewrite Hends. reflexivity.
Qed.

(** C8 (amended).  Every layer of a configuration computed by
    [get_packed_bert_config] has both flags false, whatever the masks. *)
Theorem packed_config_never_pruned (s : Store R) (model : BertModel)
    (cfg : PackedBertConfig) :
  get_packed_bert_config s model = Some cfg ->
  Forall (fun c => prune_attn c = false /\ prune_ffn c = false)
    (per_layer_config cfg).
Proof.
  unfold get_packed_bert_config. intros Hc. do 3 inv_bind Hc.
  injection Hc as <-. simpl. eapply layer_configs_flags. eassumption.
Qed.

(** *** Reading a model whose slots are all allocated *)

Lemma read_layer_app (s0 ext : Store R) (past : loc) (module : BertLayer) :
  Forall (fun l => l < length s0) (past :: layer_slots module) ->
  read_layer (s0 ++ ext) past module = read_layer s0 past module.
Proof.
  intros Hc. rewrite Forall_forall in Hc. unfold read_layer.
  rewrite !lookup_app_l
    by (apply Hc; unfold layer_slots; rewrite ?elem_of_cons, ?elem_of_app,
        ?elem_of_cons; tauto).
  reflexivity.
Qed.

Lemma read_layer_norms (s : Store R) (past : loc) (module : BertLayer)
    (ms : LayerModules R) :
  read_layer s past module = Some ms ->
  s !! past ≫= as_norm = Some (norm0 ms) /\
  s !! output_LayerNorm module ≫= as_norm = Some (norm2 ms).
Proof.
  unfold read_layer. intros Hr. do 9 inv_bind Hr. injection Hr as <-.
  split; reflexivity.
Qed.

Lemma length_configs_of (config : BertConfig) (d : nat) (ps : list (LayerParts R)) :
  length (configs_of config d ps) = length ps.
Proof.
  revert d. induction ps as [|p ps IH]; intros d; [reflexivity|].
  simpl. now rewrite IH.
Qed.

Lemma fuse_layers_widths (layers : list BertLayer) (s0 ext : Store R)
    (past : loc) (ps : list (LayerParts R)) (d : nat) (config : BertConfig) :
  Forall (fun l => l < length s0) (past :: concat (map layer_slots layers)) ->
  fuse_layers (s0 ++ ext) past layers = Some ps ->
  (forall n0, s0 !! past ≫= as_norm = Some n0 ->
              d = length (parse (norm_mask n0)).2) ->
  forall i layer c,
    layers !! i = Some layer ->
    configs_of config d ps !! i = Some c ->
    exists pl ms,
      cursor_at past layers i = Some pl /\
      read_layer s0 pl layer = Some ms /\
      widths_match c ms.
Proof.
  revert ext past ps d.
  induction layers as [|module rest IH]; intros ext past ps d Hc Hf Hd i layer c
    Hi Hci; [discriminate|].
  apply Forall_cons in Hc as [Hpast Hc].
  change (concat (map layer_slots (module :: rest)))
    with (layer_slots module ++ concat (map layer_slots rest)) in Hc.
  apply Forall_app in Hc as [Hmod Hrest].
  simpl in Hf.
  rewrite read_layer_app in Hf by (constructor; assumption).
  destruct (read_layer s0 past module) as [ms|] eqn:Ems; [|discriminate].
  simpl in Hf.
  destruct (fuse_layer ms) as [p|] eqn:Ep; [|discriminate]. simpl in Hf.
  rewrite <- app_assoc in Hf.
  destruct (fuse_layers _ _ rest) as [ps'|] eqn:Eps; [|discriminate].
  injection Hf as <-.
  pose proof (fuse_layer_dims ms p Ep) as (Hn1 & Hn2 & Hq & Hv & Hw).
  pose proof (read_layer_norms _ _ _ _ Ems) as [Hnorm0 Hnorm2].
  destruct i as [|i].
  - injection Hi as <-. injection Hci as <-.
    exists past, ms. split; [reflexivity|]. split; [exact Ems|].
    unfold widths_match, layer_config_of. simpl.
    rewrite (Hd _ Hnorm0). repeat split; assumption.
  - simpl in Hi, Hci.
    assert (Hout : output_LayerNorm module < length s0).
    { rewrite Forall_forall in Hmod. apply Hmod. unfold layer_slots.
      rewrite ?elem_of_cons, ?elem_of_app, ?elem_of_cons. tauto. }
    assert (Hc' : Forall (fun l => l < length s0)
                    (output_LayerNorm module :: concat (map layer_slots rest)))
      by (constructor; assumption).
    assert (Hd' : forall n0,
               s0 !! output_LayerNorm module ≫= as_norm = Some n0 ->
               packed_size (new_output_LayerNorm p)
               = length (parse (norm_mask n0)).2).
    { intros n0 Hn0. rewrite Hn2. congruence. }
    destruct (IH _ _ _ _ Hc' Eps Hd' i layer c Hi Hci)
      as (pl & ms' & Hpl & Hms' & Hw').
    exists pl, ms'. split; [exact Hpl | split; [exact Hms' | exact Hw']].
Qed.

Lemma fuse_ends_first (s1 : Store R) (model : BertModel) (last : loc)
    (seq0 : Linear R) (seq1 : PackedLayerNorm R) (new_dense : Linear R) :
  fuse_ends s1 model last = Some (seq0, seq1, new_dense) ->
  exists first_norm,
    s1 !! embeddings_LayerNorm model ≫= as_norm = Some first_norm /\
    packed_size seq1 = length (parse (norm_mask first_norm)).2.
Proof.
  unfold fuse_ends. intros He. do 2 inv_bind He.
  destruct (parse (norm_mask l)) as [first_values first_indices] eqn:Ef.
  destruct (parse (norm_mask l0)) as [last_values last_indices].
  do 5 inv_bind He. injection He as <- <- <-.
  exists l. split; [reflexivity|]. rewrite Ef. simpl.
  eapply LayerNorm_extract_size. eassumption.
Qed.

(** C7.  After [mix], the configuration computed from the compacted model
    has one entry per layer, and its widths are the numbers of indices kept
    by the masks of the input model: [input_dim] for the normalization that
    precedes the layer, [attn_output_dim] and [ffn_output_dim] for the
    normalizations after attention and after the feed-forward block,
    [qk_dim] for the query module, [vo_dim] for the value module and
    [ffn_dim] for the feed-forward output projection. *)
Theorem packed_config_widths
    (state_dict : BertModel -> Store R -> gmap string (Tensor R))
    (factory : PackedBertConfig -> PModel R) (model model' : BertModel)
    (pm : PModel R) (s s' : Store R) :
  Forall (fun l => l < length s) (model_slots model) ->
  mix state_dict factory model s = Some ((model', pm), s') ->
  exists cfg,
    get_packed_bert_config s' model' = Some cfg /\
    length (per_layer_config cfg) = length (encoder_layer model) /\
    forall i layer c,
      encoder_layer model !! i = Some layer ->
      per_layer_config cfg !! i = Some c ->
      exists past ms,
        cursor_at (embeddings_LayerNorm model) (encoder_layer model) i
          = Some past /\
        read_layer s past layer = Some ms /\
        widths_match c ms.
Proof.
  intros Hclosed Hmix. apply mix_compact in Hmix.
  destruct (compact_config _ _ _ _ Hmix)
    as (ps & seq0 & seq1 & new_dense & Hps & Hends & Hcfg).
  eexists. split; [exact Hcfg|]. simpl.
  split.
  { rewrite length_configs_of. eapply fuse_layers_length. exact Hps. }
  unfold model_slots in Hclosed.
  apply Forall_cons in Hclosed as [Hemb Hclosed].
  apply Forall_app in Hclosed as [_ Hlayers].
  destruct (fuse_ends_first _ _ _ _ _ _ Hends) as (first_norm & Hfirst & Hsize).
  rewrite lookup_app_l in Hfirst by exact Hemb.
  intros i layer c Hi Hc.
  eapply (fuse_layers_widths (encoder_layer model) s [] _ ps (packed_size seq1));
    try eassumption.
  - constructor; assumption.
  - now rewrite app_nil_r.
  - intros n0 Hn0. rewrite Hsize. congruence.
Qed.

(** *** Weight transfer *)

Lemma load_state_dict_raises (self state_dict : gmap string (Tensor R)) :
  load_state_dict self state_dict false = None <->
  ~ map_Forall (shape_ok state_dict) self.
Proof.
  unfold load_state_dict. destruct (decide _) as [Hok|Hno]; simpl.
  - split; [discriminate | contradiction].
  - split; [intros _; exact Hno | reflexivity].
Qed.

Lemma load_state_dict_lookup (self state_dict loaded : gmap string (Tensor R))
    (strict : bool) (k : string) :
  load_state_dict self state_dict strict = Some loaded ->
  loaded !! k = (fun t => default t (state_dict !! k)) <$> self !! k.
Proof.
  unfold load_state_dict. destruct (decide _); [|discriminate].
  destruct (strict && _); [discriminate|]. intros [= <-].
  rewrite map_lookup_imap. destruct (self !! k); reflexivity.
Qed.

(** Without [strict], only a size mismatch on a common name makes the
    transfer fail. *)
Lemma load_state_dict_permissive (self state_dict : gmap string (Tensor R)) :
  map_Forall (shape_ok state_dict) self ->
  is_Some (load_state_dict self state_dict false).
Proof.
  intros Hok. unfold load_state_dict.
  destruct (decide _); [|contradiction]. simpl. eauto.
Qed.

(** C9.  The transfer of [mix] is permissive.  Once the model is compacted
    and its configuration computed, loading its state dictionary into the
    packed model built by the factory succeeds whatever names the two sides
    have, as long as the names they share carry the same shapes, and [mix]
    returns the packed model: a name the target lacks is skipped, a target
    parameter the source lacks keeps its value, a shared name takes the
    source value. *)
Theorem weight_transfer_permissive
    (state_dict : BertModel -> Store R -> gmap string (Tensor R))
    (factory : PackedBertConfig -> PModel R) (model model' : BertModel)
    (s s' : Store R) (cfg : PackedBertConfig) :
  compact model s = Some (model', s') ->
  get_packed_bert_config s' model' = Some cfg ->
  map_Forall (shape_ok (state_dict model' s')) (p_state (factory cfg)) ->
  exists loaded,
    mix state_dict factory model s
      = Some ((model', mkPModel (p_config (factory cfg)) loaded), s') /\
    (forall k, p_state (factory cfg) !! k = None -> loaded !! k = None) /\
    (forall k t, p_state (factory cfg) !! k = Some t ->
                 state_dict model' s' !! k = None -> loaded !! k = Some t) /\
    (forall k t v, p_state (factory cfg) !! k = Some t ->
                   state_dict model' s' !! k = Some v -> loaded !! k = Some v).
Proof.
  intros Hcompact Hcfg Hok.
  destruct (load_state_dict_permissive _ _ Hok) as [loaded Hload].
  exists loaded. split.
  { rewrite mix_eq, Hcompact. simpl. rewrite Hcfg. simpl.
    rewrite Hload. reflexivity. }
  pose proof (fun k => load_state_dict_lookup _ _ _ _ k Hload) as Hlook.
  repeat split.
  - intros k Hk. now rewrite Hlook, Hk.
  - intros k t Ht Hsrc. now rewrite Hlook, Ht, Hsrc.
  - intros k t v Ht Hsrc. now rewrite Hlook, Ht, Hsrc.
Qed.

(** *** The mask of the key module *)

Lemma stores_agree_lookup (K : list loc) (s1 s2 : Store R) (l : loc) :
  stores_agree K s1 s2 ->
  match s1 !! l, s2 !! l with
  | Some o1, Some o2 => o1 = o2 \/ (l ∈ K /\ same_but_mask o1 o2)
  | None, None => True
  | _, _ => False
  end.
Proof.
  intros [Hlen Hobj].
  destruct (s1 !! l) as [o1|] eqn:E1, (s2 !! l) as [o2|] eqn:E2.
  - eapply Hobj; eassumption.
  - apply lookup_lt_Some in E1. apply lookup_ge_None in E2. lia.
  - apply lookup_ge_None in E1. apply lookup_lt_Some in E2. lia.
  - exact I.
Qed.

Lemma stores_agree_off (K : list loc) (s1 s2 : Store R) (l : loc) :
  stores_agree K s1 s2 -> l ∉ K -> s1 !! l = s2 !! l.
Proof.
  intros Ha Hl. pose proof (stores_agree_lookup K s1 s2 l Ha) as Hlk.
  destruct (s1 !! l), (s2 !! l); try contradiction; [|reflexivity].
  destruct Hlk as [-> | [Hin _]]; [reflexivity | contradiction].
Qed.

(** A reader that rejects the compactor-wrapped linears sees the same
    thing in both stores, at every location. *)
Lemma stores_agree_read {A : Type} (f : Module R -> option A) (K : list loc)
    (s1 s2 : Store R) (l : loc) :
  (forall m, f (MLinearWithCompactorAfter m) = None) ->
  (forall m, f (MLinearWithCompactorBefore m) = None) ->
  stores_agree K s1 s2 ->
  s1 !! l ≫= f = s2 !! l ≫= f.
Proof.
  intros Hf1 Hf2 Ha. pose proof (stores_agree_lookup K s1 s2 l Ha) as Hlk.
  destruct (s1 !! l) as [o1|], (s2 !! l) as [o2|]; try contradiction;
    [|reflexivity].
  destruct Hlk as [-> | [_ Hsame]]; [reflexivity|]. simpl.
  destruct o1, o2; try contradiction; now rewrite ?Hf1, ?Hf2.
Qed.

Lemma stores_agree_key (K : list loc) (s1 s2 : Store R) (l : loc) :
  stores_agree K s1 s2 ->
  match s1 !! l ≫= as_with_compactor, s2 !! l ≫= as_with_compactor with
  | Some m1, Some m2 =>
      lc_compactor m1 = lc_compactor m2 /\ lc_linear m1 = lc_linear m2
  | None, None => True
  | _, _ => False
  end.
Proof.
  intros Ha. pose proof (stores_agree_lookup K s1 s2 l Ha) as Hlk.
  destruct (s1 !! l) as [o1|], (s2 !! l) as [o2|]; try contradiction;
    [|exact I].
  destruct Hlk as [-> | [_ Hsame]].
  - simpl. destruct (as_with_compactor o2); [split; reflexivity | exact I].
  - destruct o1, o2; try contradiction; exact Hsame.
Qed.

Lemma stores_agree_app (K : list loc) (s1 s2 new : Store R) :
  stores_agree K s1 s2 -> stores_agree K (s1 ++ new) (s2 ++ new).
Proof.
  intros [Hlen Hobj]. split; [rewrite !length_app; lia|].
  intros l o1 o2 H1 H2.
  destruct (decide (l < length s1)) as [Hl|Hl].
  - rewrite lookup_app_l in H1 by lia. rewrite lookup_app_l in H2 by lia.
    eapply Hobj; eassumption.
  - rewrite lookup_app_r in H1 by lia. rewrite lookup_app_r in H2 by lia.
    rewrite Hlen in H1. left. congruence.
Qed.

(** [fuse_layer] never reads the mask of the key module. *)
Lemma fuse_layer_key_mask (q k k' v o : LinearWithCompactor R) (w1 : Linear R)
    (w2 : LinearWithMaskBefore R) (n0 n1 n2 : LayerNormWithCompactor R) :
  lc_compactor k = lc_compactor k' ->
  lc_linear k = lc_linear k' ->
  fuse_layer (mkLayerModules q k v o w1 w2 n0 n1 n2)
  = fuse_layer (mkLayerModules q k' v o w1 w2 n0 n1 n2).
Proof.
  intros Hc Hl. unfold fuse_layer, fuse_projection, LinearWithCompactor_extract.
  simpl. rewrite Hc, Hl. reflexivity.
Qed.

Lemma read_layer_agree (K : list loc) (s1 s2 : Store R) (past : loc)
    (module : BertLayer) :
  stores_agree K s1 s2 ->
  attention_self_query module ∉ K ->
  attention_self_value module ∉ K ->
  attention_output_dense module ∉ K ->
  read_layer s1 past module ≫= fuse_layer
  = read_layer s2 past module ≫= fuse_layer.
Proof.
  intros Ha Hq Hv Ho. unfold read_layer.
  rewrite (stores_agree_off K s1 s2 _ Ha Hq),
          (stores_agree_off K s1 s2 _ Ha Hv),
          (stores_agree_off K s1 s2 _ Ha Ho).
  rewrite !(stores_agree_read as_linear K s1 s2) by (reflexivity || exact Ha).
  rewrite !(stores_agree_read as_with_mask K s1 s2) by (reflexivity || exact Ha).
  rewrite !(stores_agree_read as_norm K s1 s2) by (reflexivity || exact Ha).
  destruct (s2 !! attention_self_query module ≫= as_with_compactor) as [q|];
    [|reflexivity]. simpl.
  pose proof (stores_agree_key K s1 s2 (attention_self_key module) Ha) as Hk.
  destruct (s1 !! attention_self_key module ≫= as_with_compactor) as [k1|],
           (s2 !! attention_self_key module ≫= as_with_compactor) as [k2|];
    try contradiction; [|reflexivity].
  destruct Hk as [Hkc Hkl]. simpl.
  destruct (s2 !! attention_self_value module ≫= as_with_compactor) as [v|];
    [|reflexivity]. simpl.
  destruct (s2 !! attention_output_dense module ≫= as_with_compactor) as [o|];
    [|reflexivity]. simpl.
  destruct (s2 !! intermediate_dense module ≫= as_linear) as [w1|];
    [|reflexivity]. simpl.
  destruct (s2 !! output_dense module ≫= as_with_mask) as [w2|];
    [|reflexivity]. simpl.
  destruct (s2 !! past ≫= as_norm) as [n0|]; [|reflexivity]. simpl.
  destruct (s2 !! attention_output_LayerNorm module ≫= as_norm) as [n1|];
    [|reflexivity]. simpl.
  destruct (s2 !! output_LayerNorm module ≫= as_norm) as [n2|];
    [|reflexivity]. simpl.
  now apply fuse_layer_key_mask.
Qed.

Lemma fuse_layers_agree (K : list loc) (layers : list BertLayer)
    (s1 s2 : Store R) (past : loc) :
  stores_agree K s1 s2 ->
  Forall (fun layer => (attention_self_query layer ∉ K) /\
                       (attention_self_value layer ∉ K) /\
                       (attention_output_dense layer ∉ K)) layers ->
  fuse_layers s1 past layers = fuse_layers s2 past layers.
Proof.
  revert s1 s2 past. induction layers as [|module rest IH];
    intros s1 s2 past Ha Hl; [reflexivity|].
  apply Forall_cons in Hl as [(Hq & Hv & Ho) Hrest].
  cbn [fuse_layers].
  pose proof (read_layer_agree K s1 s2 past module Ha Hq Hv Ho) as Hr.
  destruct (read_layer s1 past module) as [ms1|],
           (read_layer s2 past module) as [ms2|]; simpl in Hr |- *.
  - rewrite Hr. destruct (fuse_layer ms2) as [p|]; [|reflexivity]. simpl.
    rewrite (IH (s1 ++ layer_objects p) (s2 ++ layer_objects p));
      [reflexivity | now apply stores_agree_app | exact Hrest].
  - rewrite Hr. reflexivity.
  - rewrite <- Hr. reflexivity.
  - reflexivity.
Qed.

Lemma fuse_ends_agree (K : list loc) (s1 s2 : Store R) (model : BertModel)
    (last : loc) :
  stores_agree K s1 s2 ->
  fuse_ends s1 model last = fuse_ends s2 model last.
Proof.
  intros Ha. unfold fuse_ends.
  rewrite !(stores_agree_read as_norm K s1 s2) by (reflexivity || exact Ha).
  destruct (s2 !! embeddings_LayerNorm model ≫= as_norm) as [first_norm|];
    [|reflexivity]. simpl.
  destruct (s2 !! last ≫= as_norm) as [last_norm|]; [|reflexivity]. simpl.
  destruct (parse (norm_mask first_norm)) as [first_values first_indices].
  destruct (parse (norm_mask last_norm)) as [last_values last_indices].
  destruct (pooler_dense model) as [pooler|]; [|reflexivity]. simpl.
  destruct (Compactor_extract (in_comp first_norm) Output first_indices
              (Some first_values)) as [seq0|]; [|reflexivity]. simpl.
  destruct (LayerNorm_extract first_norm first_indices) as [seq1|];
    [|reflexivity]. simpl.
  assert (Hp : forall new,
             (s1 ++ new) !! pooler ≫= as_linear
             = (s2 ++ new) !! pooler ≫= as_linear).
  { intros new. apply (stores_agree_read as_linear K);
      [reflexivity | reflexivity | now apply stores_agree_app]. }
  destruct Ha as [Hlen _]. rewrite Hlen, Hp. reflexivity.
Qed.

(** C10.  Take two stores that hold the same objects, except that the key
    modules of the model may carry different masks, the key modules being
    objects of their own (no query, value or attention-output slot refers
    to one).  Then compaction fails on both, or it succeeds on both with the
    same model, the same new objects (the fused transforms among them) and
    the same configuration. *)
Theorem key_mask_irrelevant (model : BertModel) (s1 s2 : Store R) :
  stores_agree (key_slots model) s1 s2 ->
  Forall (fun layer => (attention_self_query layer ∉ key_slots model) /\
                       (attention_self_value layer ∉ key_slots model) /\
                       (attention_output_dense layer ∉ key_slots model))
    (encoder_layer model) ->
  (compact model s1 = None /\ compact model s2 = None) \/
  exists model' new cfg,
    compact model s1 = Some (model', s1 ++ new) /\
    compact model s2 = Some (model', s2 ++ new) /\
    (forall l, l ∈ model_slots model' ->
               (s1 ++ new) !! l = (s2 ++ new) !! l) /\
    get_packed_bert_config (s1 ++ new) model' = Some cfg /\
    get_packed_bert_config (s2 ++ new) model' = Some cfg.
Proof.
  intros Ha Hl.
  destruct (compact model s1) as [[model1 s1']|] eqn:E1.
  - right.
    pose proof (compact_config _ _ _ _ E1)
      as (ps & seq0 & seq1 & new_dense & Hps & Hends & Hcfg1).
    pose proof E1 as E1'. rewrite compact_eq in E1'.
    unfold compact_result in E1'. rewrite Hps in E1'. simpl in E1'.
    rewrite Hends in E1'. simpl in E1'. injection E1' as <- <-.
    assert (Ha' : stores_agree (key_slots model)
                    (s1 ++ concat (map layer_objects ps))
                    (s2 ++ concat (map layer_objects ps)))
      by now apply stores_agree_app.
    assert (E2 : compact model s2
                 = Some (mkBertModel (config model)
                           (length (s1 ++ concat (map layer_objects ps)) + 2)
                           (installed_layers (length s1)
                              (length (encoder_layer model)))
                           (Some (length (s1 ++ concat (map layer_objects ps)) + 3)),
                         (s2 ++ concat (map layer_objects ps))
                         ++ end_objects
                              (length (s1 ++ concat (map layer_objects ps)))
                              (seq0, seq1, new_dense))).
    { rewrite compact_eq. unfold compact_result.
      rewrite <- (fuse_layers_agree _ _ s1 s2 _ Ha Hl), Hps. simpl.
      rewrite <- (fuse_ends_agree _ _ _ _ _ Ha'), Hends. simpl.
      destruct Ha as [Hlen _]. destruct Ha' as [Hlen' _].
      now rewrite Hlen, Hlen'. }
    pose proof (compact_config _ _ _ _ E2)
      as (ps2 & seq02 & seq12 & new_dense2 & Hps2 & Hends2 & Hcfg2).
    rewrite <- (fuse_layers_agree _ _ s1 s2 _ Ha Hl), Hps in Hps2.
    injection Hps2 as <-.
    rewrite <- (fuse_ends_agree _ _ _ _ _ Ha'), Hends in Hends2.
    injection Hends2 as <- <- <-.
    eexists _, (concat (map layer_objects ps)
                ++ end_objects (length (s1 ++ concat (map layer_objects ps)))
                     (seq0, seq1, new_dense)), _.
    rewrite !app_assoc. split; [reflexivity|]. split; [exact E2|].
    split; [|split; [exact Hcfg1 | exact Hcfg2]].
    intros l Hin.
    destruct (compact_frame _ _ _ _ E1) as (_ & Hfresh & _).
    rewrite Forall_forall in Hfresh.
    apply Hfresh in Hin as [Hge _].
    destruct Ha as [Hlen _].
    rewrite <- !app_assoc.
    rewrite (lookup_app_r s1), (lookup_app_r s2) by lia. now rewrite Hlen.
  - left. split; [reflexivity|].
    rewrite compact_eq in E1 |- *. unfold compact_result in *.
    rewrite <- (fuse_layers_agree _ _ s1 s2 _ Ha Hl).
    destruct (fuse_layers s1 _ _) as [ps|]; [|reflexivity]. simpl in *.
    pose proof (stores_agree_app _ _ _ (concat (map layer_objects ps)) Ha)
      as Ha'.
    rewrite <- (fuse_ends_agree _ _ _ model _ Ha').
    destruct (fuse_ends _ _ _); [discriminate | reflexivity].
Qed.

End MixFacts.

(** * The properties on the one-layer model *)

Lemma Z_semi_ring : semi_ring_theory (R := Z) rO rI radd rmul eq.
Proof. constructor; simpl; intros; ring. Qed.

(** Associativity on three small transforms with biases. *)
Lemma merge_assoc_witness :
  let A := mkLinear 2 2 [[1; 2]; [3; 4]]%Z (Some [1; 0]%Z) in
  let B := mkLinear 2 1 [[1; 1]]%Z (Some [2]%Z) in
  let C := mkLinear 1 2 [[2]; [3]]%Z (Some [0; 1]%Z) in
  let x := [1; 1]%Z in
  exists (L Rr : LinearMixer Z) (y : list Z),
    (merge (mkLinearMixer A) B ≫= fun m => merge m C) = Some L /\
    (merge (mkLinearMixer B) C ≫= fun m => merge (mkLinearMixer A) (unwrap m))
      = Some Rr /\
    forward (unwrap L) x = Some y /\
    forward (unwrap Rr) x = Some y /\
    has_bias (unwrap L) = has_bias (unwrap Rr) /\
    L = Rr.
Proof.
  intros A B C x.
  assert (Hwf : forall l b, bias l = Some b ->
            length (weight l) = out_features l ->
            Forall (fun r : list Z => length r = in_features l) (weight l) ->
            length b = out_features l -> Linear_wf l).
  { intros l b Hb H1 H2 H3. repeat split; try assumption.
    intros b' Hb'. congruence. }
  apply (merge_assoc Z_semi_ring A B C x);
    first [ reflexivity
          | eapply Hwf; [reflexivity | reflexivity | repeat constructor
                         | reflexivity] ].
Defined.

(** The heads of the two chains in the one iteration of the one-layer model. *)
Lemma chains_begin_on_input_side_witness :
  compact_layer 0 ex_layer ex_store = Some ((ex_layer', 8), ex_store_layer) /\
  exists ms h0 h1 Q W1,
    read_layer ex_store 0 ex_layer = Some ms /\
    let n0 := parse (norm_mask (norm0 ms)) in
    let n1 := parse (norm_mask (norm1 ms)) in
    let qk := parse (lc_mask (q_module ms)) in
    let ffn := parse (lm_mask (w2_module ms)) in
    Compactor_extract (out_comp (norm0 ms)) Input n0.2 (Some n0.1) = Some h0 /\
    select_cols (weight (probe (out_comp (norm0 ms)))) n0.2 = Some (weight h0) /\
    in_features h0 = length n0.2 /\
    out_features h0 = out_features (probe (out_comp (norm0 ms))) /\
    fuse_projection h0 (q_module ms) qk.2 (Some qk.1) = Some Q /\
    ex_store_layer !! attention_self_query ex_layer' = Some (MLinear Q) /\
    in_features Q = length n0.2 /\
    Compactor_extract (out_comp (norm1 ms)) Input n1.2 (Some n1.1) = Some h1 /\
    select_cols (weight (probe (out_comp (norm1 ms)))) n1.2 = Some (weight h1) /\
    in_features h1 = length n1.2 /\
    out_features h1 = out_features (probe (out_comp (norm1 ms))) /\
    (m ← merge (mkLinearMixer h1) (w1_module ms);
     unwrap <$> merge_mask m ffn.2) = Some W1 /\
    ex_store_layer !! intermediate_dense ex_layer' = Some (MLinear W1) /\
    in_features W1 = length n1.2.
Proof.
  split; [vm_compute; reflexivity|].
  apply (chains_begin_on_input_side 0 ex_layer ex_layer' 8 ex_store
           ex_store_layer).
  vm_compute. reflexivity.
Defined.

(** C4, as stated, on the one-layer model.  Extracted on its "output"
    side, [norm0.out_comp] is a transform from the 2 features of the
    compactor to the single kept feature; the query chain does not begin
    with it: fused from it, the chain does not even compose, whereas the
    query installed by the loop takes the single kept feature as input.
    The same holds of the up-projection chain and [norm1.out_comp]. *)
Lemma chains_not_on_output_side :
  exists ms p h0 h1,
    read_layer ex_store 0 ex_layer = Some ms /\
    fuse_layer ms = Some p /\
    ex_store_layer !! attention_self_query ex_layer' = Some (MLinear (query p)) /\
    ex_store_layer !! intermediate_dense ex_layer' = Some (MLinear (w1 p)) /\
    let n0 := parse (norm_mask (norm0 ms)) in
    let n1 := parse (norm_mask (norm1 ms)) in
    let qk := parse (lc_mask (q_module ms)) in
    let ffn := parse (lm_mask (w2_module ms)) in
    Compactor_extract (out_comp (norm0 ms)) Output n0.2 (Some n0.1) = Some h0 /\
    (in_features h0, out_features h0) = (2, 1) /\
    fuse_projection h0 (q_module ms) qk.2 (Some qk.1) = None /\
    in_features (query p) = 1 /\
    Compactor_extract (out_comp (norm1 ms)) Output n1.2 (Some n1.1) = Some h1 /\
    (in_features h1, out_features h1) = (2, 1) /\
    (m ← merge (mkLinearMixer h1) (w1_module ms);
     unwrap <$> merge_mask m ffn.2) = None /\
    in_features (w1 p) = 1.
Proof. do 4 eexists. repeat split; vm_compute; reflexivity. Qed.

(** Query and key of the one-layer model: the query mask keeps feature 1 with
    gate 2, and the fused query is twice the unscaled chain. *)
Lemma key_shares_indices_without_scaling_witness :
  compact_layer 0 ex_layer ex_store = Some ((ex_layer', 8), ex_store_layer) /\
  exists ms h0 Q K Q0,
    read_layer ex_store 0 ex_layer = Some ms /\
    let n0 := parse (norm_mask (norm0 ms)) in
    let qk := parse (lc_mask (q_module ms)) in
    Compactor_extract (out_comp (norm0 ms)) Input n0.2 (Some n0.1) = Some h0 /\
    ex_store_layer !! attention_self_query ex_layer' = Some (MLinear Q) /\
    ex_store_layer !! attention_self_key ex_layer' = Some (MLinear K) /\
    fuse_projection h0 (q_module ms) qk.2 (Some qk.1) = Some Q /\
    fuse_projection h0 (k_module ms) qk.2 None = Some K /\
    fuse_projection h0 (q_module ms) qk.2 None = Some Q0 /\
    Q = scale_out qk.1 Q0.
Proof.
  split; [vm_compute; reflexivity|].
  apply (key_shares_indices_without_scaling Z_semi_ring 0 ex_layer ex_layer' 8
           ex_store ex_store_layer).
  vm_compute. reflexivity.
Defined.

(** The store and the slots of the one-layer model after [mix]. *)
Lemma mix_frame_witness :
  mix ex_state_dict ex_factory ex_model ex_store
    = Some ((ex_model', ex_packed), ex_store') /\
  (forall l o, ex_store !! l = Some o -> ex_store' !! l = Some o) /\
  Forall (fun l => length ex_store <= l < length ex_store')
    (model_slots ex_model') /\
  NoDup (model_slots ex_model').
Proof.
  split; [vm_compute; reflexivity|].
  apply (mix_frame ex_state_dict ex_factory ex_model ex_model' ex_packed
           ex_store ex_store').
  vm_compute. reflexivity.
Defined.

(** C6, as stated, on the one-layer model: [mix] does not leave the input
    model as it was.  Its query slot referred to the compactor-wrapped
    module at location 1; after [mix] it refers to the fused transform, a
    new object. *)
Lemma mix_rebinds_the_model :
  mix ex_state_dict ex_factory ex_model ex_store
    = Some ((ex_model', ex_packed), ex_store') /\
  ex_model' <> ex_model /\
  attention_self_query <$> encoder_layer ex_model !! 0 = Some 1 /\
  attention_self_query <$> encoder_layer ex_model' !! 0 = Some 12 /\
  ex_store' !! 1
    = Some (MLinearWithCompactorAfter (ex_projection [0; 2]%Z)) /\
  ex_store' !! 12
    = Some (MLinear (mkLinear 1 1 [[52]]%Z (Some [2]%Z))).
Proof.
  split; [vm_compute; reflexivity|].
  split; [discriminate|].
  repeat split; reflexivity.
Qed.

(** The widths of the one-layer model: 1, 1, 2 for the normalizations, 1 and 1
    for query and value, 2 for the feed-forward block. *)
Lemma packed_config_widths_witness :
  Forall (fun l => l < length ex_store) (model_slots ex_model) /\
  mix ex_state_dict ex_factory ex_model ex_store
    = Some ((ex_model', ex_packed), ex_store') /\
  exists cfg,
    get_packed_bert_config ex_store' ex_model' = Some cfg /\
    length (per_layer_config cfg) = length (encoder_layer ex_model) /\
    forall i layer c,
      encoder_layer ex_model !! i = Some layer ->
      per_layer_config cfg !! i = Some c ->
      exists past ms,
        cursor_at (embeddings_LayerNorm ex_model) (encoder_layer ex_model) i
          = Some past /\
        read_layer ex_store past layer = Some ms /\
        widths_match c ms.
Proof.
  assert (Hclosed : Forall (fun l => l < length ex_store) (model_slots ex_model)).
  { unfold model_slots, ex_model, ex_layer, layer_slots. simpl.
    repeat (constructor; [lia|]). constructor. }
  split; [exact Hclosed|].
  split; [vm_compute; reflexivity|].
  apply (packed_config_widths ex_state_dict ex_factory ex_model ex_model'
           ex_packed ex_store ex_store' Hclosed).
  vm_compute. reflexivity.
Defined.

(** The flags of the one-layer model. *)
Lemma packed_config_never_pruned_witness :
  get_packed_bert_config ex_store' ex_model' = Some (p_config ex_packed) /\
  Forall (fun c => prune_attn c = false /\ prune_ffn c = false)
    (per_layer_config (p_config ex_packed)).
Proof.
  split; [vm_compute; reflexivity|].
  apply (packed_config_never_pruned ex_store' ex_model' (p_config ex_packed)).
  vm_compute. reflexivity.
Defined.

(** C8, as stated, on the model whose query, value and feed-forward masks
    keep no feature: after [mix], the attention transforms and the
    up-projection of the layer have width 0, so both sub-blocks are pruned
    away entirely, and both flags are false. *)
Lemma flags_false_on_pruned_blocks :
  exists model' pm s' c,
    mix ex_state_dict ex_factory ex_model ex_store_pruned
      = Some ((model', pm), s') /\
    per_layer_config <$> get_packed_bert_config s' model' = Some [c] /\
    (qk_dim c, vo_dim c, ffn_dim c) = (0, 0, 0) /\
    prune_attn c = false /\
    prune_ffn c = false.
Proof. do 4 eexists. repeat split; vm_compute; reflexivity. Qed.

(** The transfer on the one-layer model: the key mask of the source is
    skipped, the classifier bias of the target is kept, the pooler bias is
    copied. *)
Lemma weight_transfer_permissive_witness :
  compact ex_model ex_store = Some (ex_model', ex_store') /\
  get_packed_bert_config ex_store' ex_model' = Some (p_config ex_packed) /\
  map_Forall (shape_ok (ex_state_dict ex_model' ex_store'))
    (p_state (ex_factory (p_config ex_packed))) /\
  exists loaded,
    mix ex_state_dict ex_factory ex_model ex_store
      = Some ((ex_model',
               mkPModel (p_config (ex_factory (p_config ex_packed))) loaded),
              ex_store') /\
    (forall k, p_state (ex_factory (p_config ex_packed)) !! k = None ->
               loaded !! k = None) /\
    (forall k t, p_state (ex_factory (p_config ex_packed)) !! k = Some t ->
                 ex_state_dict ex_model' ex_store' !! k = None ->
                 loaded !! k = Some t) /\
    (forall k t v, p_state (ex_factory (p_config ex_packed)) !! k = Some t ->
                   ex_state_dict ex_model' ex_store' !! k = Some v ->
                   loaded !! k = Some v).
Proof.
  assert (Hok : map_Forall (shape_ok (ex_state_dict ex_model' ex_store'))
                  (p_state (ex_factory (p_config ex_packed)))).
  { apply (bool_decide_unpack _). vm_compute. exact I. }
  split; [vm_compute; reflexivity|].
  split; [vm_compute; reflexivity|].
  split; [exact Hok|].
  apply (weight_transfer_permissive ex_state_dict ex_factory ex_model ex_model'
           ex_store ex_store' (p_config ex_packed));
    [vm_compute; reflexivity | vm_compute; reflexivity | exact Hok].
Defined.

(** The one-layer model under two masks of its key module. *)
Lemma key_mask_irrelevant_witness :
  stores_agree (key_slots ex_model) ex_store ex_store_key /\
  Forall (fun layer => (attention_self_query layer ∉ key_slots ex_model) /\
                       (attention_self_value layer ∉ key_slots ex_model) /\
                       (attention_output_dense layer ∉ key_slots ex_model))
    (encoder_layer ex_model) /\
  ((compact ex_model ex_store = None /\ compact ex_model ex_store_key = None) \/
   exists model' new cfg,
     compact ex_model ex_store = Some (model', ex_store ++ new) /\
     compact ex_model ex_store_key = Some (model', ex_store_key ++ new) /\
     (forall l, l ∈ model_slots model' ->
                (ex_store ++ new) !! l = (ex_store_key ++ new) !! l) /\
     get_packed_bert_config (ex_store ++ new) model' = Some cfg /\
     get_packed_bert_config (ex_store_key ++ new) model' = Some cfg).
Proof.
  assert (Hagree : stores_agree (key_slots ex_model) ex_store ex_store_key).
  { split; [reflexivity|]. intros l o1 o2 H1 H2.
    do 10 (destruct l as [|l];
           [ injection H1 as <-; injection H2 as <-;
             first [ left; reflexivity
                   | right; split; [apply list_elem_of_here
                                   | split; reflexivity] ] |]).
    discriminate. }
  assert (Hslots :
    Forall (fun layer => (attention_self_query layer ∉ key_slots ex_model) /\
                         (attention_self_value layer ∉ key_slots ex_model) /\
                         (attention_output_dense layer ∉ key_slots ex_model))
      (encoder_layer ex_model)).
  { constructor; [|constructor].
    repeat split; intros Hin; apply list_elem_of_In in Hin;
      simpl in Hin; intuition discriminate. }
  split; [exact Hagree|]. split; [exact Hslots|].
  apply (key_mask_irrelevant ex_model ex_store ex_store_key Hagree Hslots).
Defined.

(** * Further properties of the fusion primitive *)

Section MergeMore.
Context {R : Type} `{Scalar R}.
Hypothesis SRth : semi_ring_theory rO rI radd rmul (@eq R).

Local Arguments merge : simpl never.

Lemma index_select_is_Some {A : Type} (t : list A) (indices : list nat) :
  is_Some (index_select t indices) <-> Forall (fun i => i < length t) indices.
Proof.
  unfold index_select. induction indices as [|i indices IH]; simpl.
  - split; [constructor | eauto].
  - rewrite Forall_cons, <- IH, <- lookup_lt_is_Some.
    destruct (t !! i) as [a|]; simpl.
    + destruct (mapM (fun i => t !! i) indices); simpl.
      * split; eauto.
      * split; [intros [? [=]] | intros [_ [? [=]]]].
    + split; [intros [? [=]] | intros [[? [=]] _]].
Qed.

Lemma index_select_all {A : Type} (t : list A) :
  index_select t (seq 0 (length t)) = Some t.
Proof.
  unfold index_select.
  assert (Hgen : forall pre, mapM (fun i => (pre ++ t) !! i)
                               (seq (length pre) (length t)) = Some t).
  { induction t as [|a t IH]; intros pre; [reflexivity|].
    cbn [length seq mapM]. rewrite lookup_app_r by lia.
    rewrite Nat.sub_diag. simpl.
    specialize (IH (pre ++ [a])). rewrite <- app_assoc in IH. simpl in IH.
    rewrite length_app in IH. simpl in IH. rewrite Nat.add_1_r in IH.
    now rewrite IH. }
  apply (Hgen []).
Qed.

(** X1.  [merge] raises exactly when the input width of the second
    transform differs from the output width of the first. *)
Theorem merge_defined_iff (self : LinearMixer R) (other : Linear R) :
  is_Some (merge self other) <->
  in_features other = out_features (linear self).
Proof.
  split.
  - intros [M HM]. now apply merge_inv in HM as [Hdim _].
  - intros Hdim. destruct self as [A]. simpl in Hdim.
    rewrite merge_eq by exact Hdim. eauto.
Qed.

(** X2.  When both transforms carry a bias, or neither does, [merge]
    succeeds on compatible widths and the merged transform computes the
    second after the first. *)
Theorem merge_forward_matching_bias (A B : Linear R) (x : list R) :
  Linear_wf A -> Linear_wf B ->
  in_features B = out_features A ->
  has_bias A = has_bias B ->
  length x = in_features A ->
  exists M y,
    merge (mkLinearMixer A) B = Some M /\
    forward (unwrap M) x = Some y /\
    (forward A x ≫= forward B) = Some y.
Proof.
  intros HA HB Hdim Hb Hx.
  pose proof (merged_forward SRth A B x HA HB Hdim Hb Hx) as Hf.
  assert (Hy : is_Some (forward (merged A B) x)).
  { unfold forward. simpl.
    destruct (decide (length x = in_features A)); [eauto | contradiction]. }
  destruct Hy as [y Hy].
  exists (mkLinearMixer (merged A B)), y.
  split; [now apply merge_eq|]. split; [exact Hy|]. now rewrite <- Hf.
Qed.

(** X3.  The transform [merge] returns is a well-formed [nn.Linear] from
    the inputs of the first transform to the outputs of the second,
    whenever the second is well formed. *)
Theorem merge_well_formed (self : LinearMixer R) (other : Linear R)
    (M : LinearMixer R) :
  Linear_wf other ->
  merge self other = Some M ->
  Linear_wf (unwrap M) /\
  in_features (unwrap M) = in_features (linear self) /\
  out_features (unwrap M) = out_features other.
Proof.
  intros Hwf HM. apply merge_inv in HM as [_ ->].
  split; [now apply merged_wf | split; reflexivity].
Qed.

(** X4.  On a well-formed transform, [merge_mask] at indices within its
    outputs succeeds, and applying the restricted transform to [x] gives
    the entries of [A(x)] at these indices, in the order of the indices. *)
Theorem merge_mask_selects_outputs (A : Linear R) (indices : list nat)
    (x : list R) :
  Linear_wf A ->
  Forall (fun i => i < out_features A) indices ->
  length x = in_features A ->
  exists M y,
    merge_mask (mkLinearMixer A) indices = Some M /\
    forward (unwrap M) x = Some y /\
    (forward A x ≫= fun y => index_select y indices) = Some y /\
    length y = length indices.
Proof.
  intros (Hlen & Hrows & Hbias) Hidx Hx.
  assert (HM : is_Some (merge_mask (mkLinearMixer A) indices)).
  { unfold merge_mask. simpl.
    destruct (index_select_is_Some (weight A) indices) as [_ Hw].
    destruct Hw as [rows Hrows']; [now rewrite Hlen|]. rewrite Hrows'. simpl.
    destruct (bias A) as [b|] eqn:Eb; [|eauto].
    destruct (index_select_is_Some b indices) as [_ Hb].
    destruct Hb as [b' Hb']; [now rewrite (Hbias b eq_refl)|].
    rewrite Hb'. simpl. eauto. }
  destruct HM as [M HM].
  pose proof (merge_mask_forward A indices M x HM Hx) as Hf.
  assert (Hy : is_Some (forward (unwrap M) x)).
  { unfold forward. apply merge_mask_dims in HM as [Hin _]. simpl in Hin.
    destruct (decide (length x = in_features (unwrap M))); [eauto|].
    congruence. }
  destruct Hy as [y Hy]. exists M, y.
  split; [exact HM|]. split; [exact Hy|]. split; [now rewrite <- Hf|].
  rewrite Hf in Hy. destruct (forward A x) as [y0|]; [|discriminate].
  simpl in Hy. eapply length_index_select. exact Hy.
Qed.

Lemma merge_mask_in_range (A : Linear R) (indices : list nat) :
  Linear_wf A ->
  Forall (fun i => i < out_features A) indices ->
  is_Some (merge_mask (mkLinearMixer A) indices).
Proof.
  intros (Hlen & Hrows & Hbias) Hidx. unfold merge_mask. simpl.
  rewrite <- Hlen in Hidx.
  destruct (proj2 (index_select_is_Some (weight A) indices) Hidx)
    as [rows ->]. simpl.
  destruct (bias A) as [b|] eqn:Eb; [|eauto].
  destruct (proj2 (index_select_is_Some b indices)) as [b' ->];
    [now rewrite (Hbias b eq_refl), <- Hlen | simpl; eauto].
Qed.


(** X6.  [merge_mask] at all the output positions, in order, gives back a
    well-formed transform unchanged. *)
Theorem merge_mask_all_is_identity (A : Linear R) :
  Linear_wf A ->
  merge_mask (mkLinearMixer A) (seq 0 (out_features A)) = Some (mkLinearMixer A).
Proof.
  intros (Hlen & Hrows & Hbias). unfold merge_mask. simpl.
  rewrite <- Hlen at 1. rewrite index_select_all. simpl.
  rewrite length_seq. destruct A as [i o w b]. simpl in *.
  destruct b as [b|]; [|reflexivity].
  rewrite <- (Hbias b eq_refl) at 1. rewrite index_select_all. simpl.
  reflexivity.
Qed.

Lemma index_select_same_length {A B : Type} (t : list A) (t' : list B)
    (indices : list nat) :
  length t = length t' ->
  is_Some (index_select t indices) -> is_Some (index_select t' indices).
Proof.
  intros Hlen. rewrite !index_select_is_Some. now rewrite Hlen.
Qed.

(** X7.  Restricting the outputs after fusing is fusing with the
    restricted transform: for a well-formed [B],
    [merge(A, B).merge_mask(idx)] and [merge(A, merge_mask(B, idx))] raise
    together or return the same transform. *)
Theorem merge_mask_commutes_with_merge (A B : Linear R) (indices : list nat) :
  Linear_wf B ->
  (merge (mkLinearMixer A) B ≫= fun m => merge_mask m indices)
  = (merge_mask (mkLinearMixer B) indices ≫=
       fun b => merge (mkLinearMixer A) (unwrap b)).
Proof.
  intros (Hlen & Hrows & Hbias).
  destruct (decide (in_features B = out_features A)) as [Hdim|Hdim].
  - rewrite merge_eq by exact Hdim. simpl.
    unfold merge_mask. simpl. unfold matmul at 1.
    rewrite index_select_map.
    destruct (index_select (weight B) indices) as [rows|] eqn:Erows;
      [|reflexivity]. simpl.
    destruct (bias B) as [b|] eqn:Eb.
    + destruct (index_select_same_length (weight B) b indices) as [b' Hb'];
        [now rewrite (Hbias b eq_refl) | eauto |].
      rewrite Hb'. simpl. rewrite merge_eq by exact Hdim.
      unfold merged. simpl.
      destruct (bias A) as [a|]; [|reflexivity].
      assert (Hsel : index_select (map (radd rO) (matvec (weight B) a)) indices
                     = Some (map (radd rO) (matvec rows a))).
      { unfold matvec. now rewrite !index_select_map, Erows. }
      unfold vadd. rewrite (index_select_zip_with _ _ _ _ _ _ Hsel Hb').
      reflexivity.
    + simpl. rewrite merge_eq by exact Hdim. unfold merged. simpl.
      destruct (bias A); reflexivity.
  - assert (Hl : merge (mkLinearMixer A) B = None).
    { destruct (merge (mkLinearMixer A) B) as [M|] eqn:E; [|reflexivity].
      apply merge_inv in E as [E _]. contradiction. }
    rewrite Hl. simpl.
    destruct (merge_mask (mkLinearMixer B) indices) as [b|] eqn:Eb;
      [|reflexivity]. simpl.
    apply merge_mask_dims in Eb as [Hin _]. simpl in Hin.
    destruct (merge (mkLinearMixer A) (unwrap b)) as [M|] eqn:E; [|reflexivity].
    apply merge_inv in E as [E _]. simpl in E. congruence.
Qed.

(** X8.  For a well-formed transform without bias, [merge_mask] at indices
    within its outputs is [merge] with the selection matrix of these
    indices. *)
Theorem merge_mask_is_selection_merge (A : Linear R) (indices : list nat) :
  Linear_wf A -> bias A = None ->
  Forall (fun i => i < out_features A) indices ->
  exists M,
    merge_mask (mkLinearMixer A) indices = Some M /\
    merge (mkLinearMixer A) (SelectionMatrix (out_features A) indices) = Some M.
Proof.
  intros HA Hb Hidx.
  destruct (merge_mask_in_range A indices HA Hidx) as [M HM].
  exists M. split; [exact HM|].
  now apply (merge_mask_eq_merge_selection SRth).
Qed.

End MergeMore.

(** * Further properties of [mix] and [get_packed_bert_config] *)

Section MixMore.
Context {R : Type} `{Scalar R} `{Exceeds R}.

Local Arguments Compactor_extract : simpl never.
Local Arguments LayerNorm_extract : simpl never.
Local Arguments LinearWithMaskBefore_extract : simpl never.
Local Arguments merge : simpl never.
Local Arguments merge_mask : simpl never.
Local Arguments fuse_projection : simpl never.
Local Arguments fuse_layer : simpl never.
Local Arguments parse : simpl never.

Ltac inv_opt H :=
  match type of H with
  | mbind _ ?o = Some _ =>
      let E := fresh "E" in
      destruct o eqn:E; [simpl in H | discriminate H]
  | fmap _ ?o = Some _ =>
      let E := fresh "E" in
      destruct o eqn:E; [simpl in H | discriminate H]
  end.

Lemma unwrap_merge_dims (A B C : Linear R) :
  unwrap <$> merge (mkLinearMixer A) B = Some C ->
  in_features C = in_features A /\ out_features C = out_features B.
Proof.
  intros Hm. inv_opt Hm. injection Hm as <-.
  now apply merge_dims in E.
Qed.

(** X9.  In the layer one iteration of the loop fuses, each residual
    transform has the widths of the branch it is added to: query, key, value
    and the attention residual take the same input width; the attention
    output and its residual give the same output width, which is the input
    width of the up-projection and of the feed-forward residual; the
    down-projection and the feed-forward residual give the same output
    width. *)
Theorem fused_layer_widths_agree (ms : LayerModules R) (p : LayerParts R) :
  fuse_layer ms = Some p ->
  in_features (key p) = in_features (query p) /\
  in_features (value p) = in_features (query p) /\
  in_features (new_attention_output_residual p) = in_features (query p) /\
  out_features (key p) = out_features (query p) /\
  out_features (new_attention_output_residual p) = out_features (output p) /\
  in_features (w1 p) = out_features (output p) /\
  in_features (new_output_residual p) = in_features (w1 p) /\
  out_features (new_output_residual p) = out_features (w2 p).
Proof.
  intros Hf. apply fuse_layer_inv in Hf. simpl in Hf.
  destruct Hf as (a & b & c & d & _ & _ & Ha & Hb & Hq & Hk & Hv & Ho & Hc
                  & Hd & Hw1 & Hw2 & Hr1 & Hr2).
  apply fuse_projection_dims in Hq as [Hq1 Hq2], Hk as [Hk1 Hk2],
    Hv as [Hv1 Hv2].
  apply unwrap_merge_dims in Hr1 as [Hr1i Hr1o], Hr2 as [Hr2i Hr2o].
  do 2 inv_opt Ho. apply unwrap_merge_dims in Ho as [_ Hoo].
  do 1 inv_opt Hw1. inv_opt Hw1. injection Hw1 as Hw1.
  apply merge_dims in E1 as [Hm1 _]. apply merge_mask_dims in E2 as [Hm2 _].
  inv_opt Hw2. apply unwrap_merge_dims in Hw2 as [_ Hw2o].
  apply Compactor_extract_input_dims in Hc as (Hci & _).
  apply Compactor_extract_output_dims in Hb as (_ & Hbo).
  assert (Hw1i : in_features (w1 p) = in_features c).
  { rewrite <- Hw1. unfold unwrap in *. simpl in *. congruence. }
  repeat split; congruence.
Qed.

(** X10.  [mix] raises on a model without pooler, whatever its layers. *)
Theorem mix_requires_pooler
    (state_dict : BertModel -> Store R -> gmap string (Tensor R))
    (factory : PackedBertConfig -> PModel R) (model : BertModel) (s : Store R) :
  pooler_dense model = None ->
  mix state_dict factory model s = None.
Proof.
  intros Hp. rewrite mix_eq, compact_eq. unfold compact_result.
  destruct (fuse_layers s _ _) as [ps|]; [|reflexivity]. simpl.
  unfold fuse_ends. rewrite Hp.
  destruct (_ !! embeddings_LayerNorm model ≫= as_norm) as [n1|];
    [|reflexivity]. simpl.
  destruct (_ !! last_cursor _ _ ≫= as_norm) as [n2|]; [|reflexivity]. simpl.
  destruct (parse (norm_mask n1)), (parse (norm_mask n2)). reflexivity.
Qed.

Lemma compact_shape (model model' : BertModel) (s s' : Store R) :
  compact model s = Some (model', s') ->
  exists ps e,
    length ps = length (encoder_layer model) /\
    s' = (s ++ concat (map layer_objects ps))
         ++ end_objects (length (s ++ concat (map layer_objects ps))) e /\
    model' = mkBertModel (config model)
               (length (s ++ concat (map layer_objects ps)) + 2)
               (installed_layers (length s) (length (encoder_layer model)))
               (Some (length (s ++ concat (map layer_objects ps)) + 3)).
Proof.
  rewrite compact_eq. unfold compact_result.
  destruct (fuse_layers s _ _) as [ps|] eqn:Eps; [|discriminate]. simpl.
  destruct (fuse_ends _ _ _) as [e|]; [|discriminate]. simpl.
  intros [= <- <-]. exists ps, e.
  split; [eapply fuse_layers_length; exact Eps|]. split; reflexivity.
Qed.



(** X12.  [mix] cannot be run twice: on the model and the store a first
    run leaves, a second run raises, its slots now referring to plain
    transforms and to a [Sequential]. *)
Theorem mix_single_shot
    (state_dict state_dict2 : BertModel -> Store R -> gmap string (Tensor R))
    (factory factory2 : PackedBertConfig -> PModel R)
    (model model' : BertModel) (pm : PModel R) (s s' : Store R) :
  mix state_dict factory model s = Some ((model', pm), s') ->
  mix state_dict2 factory2 model' s' = None.
Proof.
  intros Hmix. apply mix_compact in Hmix.
  apply compact_shape in Hmix as (ps & [[seq0 seq1] nd] & Hlen & -> & ->).
  rewrite mix_eq, compact_eq. unfold compact_result.
  cbn [embeddings_LayerNorm encoder_layer].
  set (s1 := s ++ concat (map layer_objects ps)).
  destruct (encoder_layer model) as [|layer rest].
  - cbn [length installed_layers fuse_layers mbind option_bind concat map
         last_cursor].
    rewrite app_nil_r. unfold fuse_ends. cbn [embeddings_LayerNorm].
    rewrite lookup_new_object. reflexivity.
  - destruct ps as [|p ps]; [discriminate|].
    cbn [length installed_layers fuse_layers].
    assert (Hq : read_layer (s1 ++ end_objects (length s1) (seq0, seq1, nd))
                   (length s1 + 2) (installed_layer (length s)) = None).
    { unfold read_layer, installed_layer. cbn [attention_self_query].
      unfold s1. cbn [concat map]. rewrite <- !app_assoc.
      rewrite lookup_installed by (simpl; lia). reflexivity. }
    rewrite Hq. reflexivity.
Qed.

(** X13.  A configuration computed by [get_packed_bert_config] carries the
    configuration of the model and has one entry per layer; every entry has
    the model's number of attention heads, and the input width of each
    layer after the first is the feed-forward output width of the layer
    before it. *)
Theorem packed_config_structure (s : Store R) (model : BertModel)
    (cfg : PackedBertConfig) :
  get_packed_bert_config s model = Some cfg ->
  base_config cfg = config model /\
  length (per_layer_config cfg) = length (encoder_layer model) /\
  Forall (fun c => num_heads c = num_attention_heads (config model))
    (per_layer_config cfg) /\
  forall i c c',
    per_layer_config cfg !! i = Some c ->
    per_layer_config cfg !! S i = Some c' ->
    input_dim c' = ffn_output_dim c.
Proof.
  unfold get_packed_bert_config. intros Hc. do 3 inv_opt Hc.
  injection Hc as <-. simpl. split; [reflexivity|].
  rename l0 into cs. rename E1 into Hcs. clear E E0.
  revert n cs Hcs. generalize (config model) as config.
  induction (encoder_layer model) as [|layer rest IH]; intros config past cs Hcs;
    simpl in Hcs.
  - injection Hcs as <-. repeat split; [constructor|]. intros i c c' [=].
  - do 7 inv_opt Hcs. injection Hcs as <-.
    destruct (IH _ _ _ E5) as (Hlen & Hheads & Hchain).
    split; [simpl; now rewrite Hlen|].
    split; [constructor; [reflexivity | exact Hheads]|].
    intros [|i] c c' Hi Hi'; simpl in Hi, Hi'.
    + injection Hi as <-. simpl.
      destruct rest as [|layer' rest']; simpl in E5.
      * injection E5 as <-. discriminate.
      * do 7 inv_opt E5. injection E5 as <-. injection Hi' as <-. simpl.
        congruence.
    + eapply Hchain; eassumption.
Qed.

End MixMore.

(** * Properties of the trainer *)

(** ** Layer matching *)

Section LayerMatchingFacts.
Context {V : Type} (ltb : V -> V -> bool).

Lemma argmin_from_range (t : list V) (best : V) (best_i i : nat) :
  argmin_from ltb best best_i i t = best_i \/
  i <= argmin_from ltb best best_i i t < i + length t.
Proof.
  revert best best_i i. induction t as [|x t IH]; intros best best_i i; simpl.
  - now left.
  - destruct (ltb x best).
    + destruct (IH x i (S i)) as [-> | Hr]; right; lia.
    + destruct (IH best best_i (S i)) as [-> | Hr]; [now left | right; lia].
Qed.

Lemma argmin_range (t : list V) (j : nat) :
  argmin ltb t = Some j -> j < length t.
Proof.
  destruct t as [|x t]; [discriminate|]. simpl. intros [= <-].
  destruct (argmin_from_range t x 0 1) as [-> | Hr]; lia.
Qed.

Lemma match_index_entry (dist : list (list V)) (n : nat) (ms : list nat)
    (i m : nat) :
  match_index ltb dist n = Some ms ->
  ms !! i = Some m ->
  exists row j,
    dist !! i = Some row /\ argmin ltb (drop i row) = Some j /\ m = j + i.
Proof.
  unfold match_index. intros Hms Hm.
  apply mapM_Some in Hms.
  destruct (Forall2_lookup_r _ _ _ _ _ Hms Hm) as (i' & Hi' & Hrow).
  apply lookup_seq in Hi' as [-> _]. simpl in Hrow.
  destruct (dist !! i) as [row|]; [|discriminate]. simpl in Hrow.
  destruct (argmin ltb (drop i row)) as [j|] eqn:Ej; [|discriminate].
  injection Hrow as <-. exists row, j. auto.
Qed.

(** X14.  On a square matrix of distances between [n] student and [n]
    teacher layers, the matching never raises: every student layer [i] is
    matched with a teacher layer at [i] or after it, within range, and the
    last student layer with the last teacher layer. *)
Theorem match_index_in_range (dist : list (list V)) (n : nat) :
  length dist = n ->
  Forall (fun row => length row = n) dist ->
  exists ms,
    match_index ltb dist n = Some ms /\
    length ms = n /\
    (forall i m, ms !! i = Some m -> i <= m < n) /\
    (0 < n -> ms !! (n - 1) = Some (n - 1)).
Proof.
  intros Hlen Hrows.
  assert (Hsome : is_Some (match_index ltb dist n)).
  { unfold match_index. apply mapM_is_Some, Forall_forall. intros i Hi.
    apply elem_of_seq in Hi as [_ Hi]. simpl in Hi.
    destruct (lookup_lt_is_Some_2 dist i) as [row Hrow]; [lia|].
    simpl. rewrite Hrow. simpl.
    assert (Hr : length row = n)
      by (rewrite Forall_forall in Hrows; eapply Hrows,
          list_elem_of_lookup_2, Hrow).
    destruct (drop i row) as [|x t] eqn:Ed.
    - apply (f_equal length) in Ed. rewrite length_drop in Ed. simpl in Ed. lia.
    - simpl. eauto. }
  destruct Hsome as [ms Hms]. exists ms. split; [exact Hms|].
  assert (Hl : length ms = n).
  { unfold match_index in Hms. apply length_mapM in Hms.
    now rewrite length_seq in Hms. }
  assert (Hb : forall i m, ms !! i = Some m -> i <= m < n).
  { intros i m Hm.
    destruct (match_index_entry _ _ _ _ _ Hms Hm) as (row & j & Hrow & Hj & ->).
    apply argmin_range in Hj. rewrite length_drop in Hj.
    assert (Hr : length row = n)
      by (rewrite Forall_forall in Hrows; eapply Hrows,
          list_elem_of_lookup_2, Hrow).
    lia. }
  split; [exact Hl|]. split; [exact Hb|].
  intros Hn. destruct (lookup_lt_is_Some_2 ms (n - 1)) as [m Hm]; [lia|].
  rewrite Hm. f_equal. apply Hb in Hm. lia.
Qed.

Section Minimal.
Hypothesis ltb_irrefl : forall x, ltb x x = false.
Hypothesis ltb_trans :
  forall x y z, ltb x y = true -> ltb y z = true -> ltb x z = true.

Lemma argmin_from_minimal (t pre : list V) (best : V) (best_i : nat) :
  pre !! best_i = Some best ->
  (forall y, y ∈ pre -> ltb y best = false) ->
  exists v,
    (pre ++ t) !! argmin_from ltb best best_i (length pre) t = Some v /\
    forall y, y ∈ pre ++ t -> ltb y v = false.
Proof.
  revert pre best best_i. induction t as [|x t IH]; intros pre best best_i Hb Hmin.
  - simpl. exists best. rewrite app_nil_r. split; assumption.
  - simpl. replace (pre ++ x :: t) with ((pre ++ [x]) ++ t)
      by (now rewrite <- app_assoc).
    replace (S (length pre)) with (length (pre ++ [x]))
      by (rewrite length_app; simpl; lia).
    destruct (ltb x best) eqn:Ex.
    + apply IH.
      * rewrite lookup_app_r by lia. now rewrite Nat.sub_diag.
      * intros y Hy. apply elem_of_app in Hy as [Hy | Hy].
        -- destruct (ltb y x) eqn:Eyx; [|reflexivity].
           specialize (Hmin y Hy). rewrite (ltb_trans _ _ _ Eyx Ex) in Hmin.
           discriminate.
        -- apply list_elem_of_singleton in Hy as ->. apply ltb_irrefl.
    + apply IH.
      * apply lookup_app_l_Some. exact Hb.
      * intros y Hy. apply elem_of_app in Hy as [Hy | Hy]; [now apply Hmin|].
        apply list_elem_of_singleton in Hy as ->. exact Ex.
Qed.

(** X15.  For distances compared by a strict order, the teacher layer
    matched with student layer [i] is a closest one among the teacher
    layers at [i] or after it. *)
Theorem match_index_minimal (dist : list (list V)) (n : nat) (ms : list nat)
    (i m : nat) :
  match_index ltb dist n = Some ms ->
  ms !! i = Some m ->
  exists row v,
    dist !! i = Some row /\
    row !! m = Some v /\
    forall j w, i <= j -> row !! j = Some w -> ltb w v = false.
Proof.
  intros Hms Hm.
  destruct (match_index_entry _ _ _ _ _ Hms Hm) as (row & j & Hrow & Hj & ->).
  destruct (drop i row) as [|x t] eqn:Ed; [discriminate|].
  simpl in Hj. injection Hj as <-.
  destruct (argmin_from_minimal t [x] x 0 eq_refl) as (v & Hv & Hmin).
  { intros y Hy. apply list_elem_of_singleton in Hy as ->. apply ltb_irrefl. }
  simpl in Hv. exists row, v. split; [exact Hrow|].
  assert (Hdrop : forall k, row !! (k + i) = (x :: t) !! k).
  { intros k. rewrite <- Ed, lookup_drop. f_equal. lia. }
  split; [now rewrite Hdrop|].
  intros j' w Hj' Hw. apply Hmin.
  replace j' with ((j' - i) + i) in Hw by lia. rewrite Hdrop in Hw.
  eapply list_elem_of_lookup_2. exact Hw.
Qed.

End Minimal.
End LayerMatchingFacts.

(** ** Metric names *)

Section MetricKeysFacts.
Context {V : Type}.

Lemma append_assoc (a b c : string) : (a +:+ b) +:+ c = a +:+ b +:+ c.
Proof.
  induction a as [|x a IH]; [reflexivity|].
  change (String x ((a +:+ b) +:+ c) = String x (a +:+ b +:+ c)).
  now f_equal.
Qed.

Lemma strip_prefix_app (p t : string) : strip_prefix p (p +:+ t) = Some t.
Proof.
  induction p as [|a p IH]; [reflexivity|].
  change (strip_prefix (String a p) (String a (p +:+ t)) = Some t).
  simpl. now rewrite Ascii.eqb_refl.
Qed.

Lemma strip_prefix_Some (p k t : string) :
  strip_prefix p k = Some t -> k = p +:+ t.
Proof.
  revert k. induction p as [|a p IH]; intros k; simpl.
  - now intros [= ->].
  - destruct k as [|b k]; [discriminate|].
    destruct (Ascii.eqb a b) eqn:E; [|discriminate].
    apply Ascii.eqb_eq in E as ->. intros H. rewrite (IH _ H). reflexivity.
Qed.

Lemma startswith_strip_prefix (p k : string) :
  startswith p k = true <-> is_Some (strip_prefix p k).
Proof.
  unfold startswith. revert k.
  induction p as [|a p IH]; intros k; destruct k as [|b k]; simpl.
  - split; [intros _; eexists; reflexivity | reflexivity].
  - split; [intros _; eexists; reflexivity | reflexivity].
  - split; [discriminate | intros [? [=]]].
  - destruct (Ascii.ascii_dec a b) as [->|Hne].
    + rewrite Ascii.eqb_refl. apply IH.
    + apply Ascii.eqb_neq in Hne. rewrite Hne.
      split; [discriminate | intros [? [=]]].
Qed.

Lemma startswith_app (p t : string) : startswith p (p +:+ t) = true.
Proof. apply startswith_strip_prefix. rewrite strip_prefix_app. eauto. Qed.

Lemma strip_prefix_None (p k : string) :
  startswith p k = false -> strip_prefix p k = None.
Proof.
  intros H. destruct (strip_prefix p k) eqn:E; [|reflexivity].
  assert (Ht : startswith p k = true)
    by (apply startswith_strip_prefix; rewrite E; eauto).
  congruence.
Qed.

Lemma bool_decide_elem_of_snoc (done : list string) (key t : string) :
  t <> key ->
  bool_decide (t ∈ done ++ [key]) = bool_decide (t ∈ done).
Proof.
  intros Hne. apply bool_decide_ext. rewrite elem_of_app, list_elem_of_singleton.
  tauto.
Qed.

Lemma metric_after_nil (p_ : string) (m : gmap string V) (k : string) :
  metric_after p_ [] m k = m !! k.
Proof.
  unfold metric_after. destruct (strip_prefix p_ k); [|reflexivity].
  now rewrite andb_false_r.
Qed.

Lemma prefix_metric_key_after (p : string) (done : list string)
    (m c : gmap string V) (key : string) :
  key ∉ done ->
  is_Some (m !! key) ->
  (forall k, c !! k = metric_after (p +:+ "_") done m k) ->
  exists c',
    prefix_metric_key p c key = Some c' /\
    forall k, c' !! k = metric_after (p +:+ "_") (done ++ [key]) m k.
Proof.
  intros Hnew [v Hv] Hc. unfold prefix_metric_key.
  destruct (startswith (p +:+ "_") key) eqn:Ep; simpl.
  - exists c. split; [reflexivity|]. intros k. rewrite Hc. unfold metric_after.
    destruct (strip_prefix (p +:+ "_") k) as [t|] eqn:Ek.
    + destruct (decide (t = key)) as [->|Hne].
      * now rewrite Ep.
      * now rewrite bool_decide_elem_of_snoc.
    + rewrite bool_decide_elem_of_snoc; [reflexivity|].
      intros ->. apply startswith_strip_prefix in Ep as [? Ep]. congruence.
  - assert (Hkey : c !! key = Some v).
    { rewrite Hc. unfold metric_after. rewrite (strip_prefix_None _ _ Ep).
      now rewrite bool_decide_eq_false_2. }
    rewrite Hkey. simpl. eexists. split; [reflexivity|]. intros k.
    destruct (decide (k = p +:+ "_" +:+ key)) as [->|Hk1].
    + rewrite lookup_insert_eq. unfold metric_after.
      replace (p +:+ "_" +:+ key) with ((p +:+ "_") +:+ key)
        by (apply append_assoc).
      rewrite strip_prefix_app, Ep. simpl.
      rewrite bool_decide_eq_true_2, Hv; [reflexivity|].
      apply elem_of_app. right. now apply list_elem_of_singleton.
    + rewrite lookup_insert_ne by congruence.
      destruct (decide (k = key)) as [->|Hk2].
      * rewrite lookup_delete_eq. unfold metric_after.
        rewrite (strip_prefix_None _ _ Ep), bool_decide_eq_true_2; [reflexivity|].
        apply elem_of_app. right. now apply list_elem_of_singleton.
      * rewrite lookup_delete_ne by congruence. rewrite Hc. unfold metric_after.
        destruct (strip_prefix (p +:+ "_") k) as [t|] eqn:Ek.
        -- rewrite bool_decide_elem_of_snoc; [reflexivity|].
           intros ->. apply strip_prefix_Some in Ek.
           rewrite append_assoc in Ek. congruence.
        -- now rewrite bool_decide_elem_of_snoc.
Qed.

Lemma prefix_metric_keys_after (p : string) (keys done : list string)
    (m c : gmap string V) :
  NoDup (done ++ keys) ->
  (forall k, k ∈ keys -> is_Some (m !! k)) ->
  (forall k, c !! k = metric_after (p +:+ "_") done m k) ->
  exists m',
    prefix_metric_keys p keys c = Some m' /\
    forall k, m' !! k = metric_after (p +:+ "_") (done ++ keys) m k.
Proof.
  revert done c. induction keys as [|key rest IH]; intros done c Hnd Hdom Hc.
  - exists c. split; [reflexivity|]. now rewrite app_nil_r.
  - simpl.
    destruct (prefix_metric_key_after p done m c key) as (c' & -> & Hc').
    + apply NoDup_app in Hnd as (_ & Hd & _). intros Hin.
      apply (Hd _ Hin). left.
    + apply Hdom. left.
    + exact Hc.
    + simpl. replace (done ++ key :: rest) with ((done ++ [key]) ++ rest)
        by (now rewrite <- app_assoc).
      apply IH.
      * now rewrite <- app_assoc.
      * intros k Hk. apply Hdom. now right.
      * exact Hc'.
Qed.

(** X16.  Run over a snapshot of the metric names, the renaming loop never
    raises, whatever the order of the snapshot.  Afterwards every name
    carries the prefix; a metric that had no prefix is found under its
    prefixed name, even where a metric of that name was there before; a
    prefixed metric keeps its value unless it has been replaced in this way;
    and no value comes from anywhere else. *)
Theorem prefix_metric_keys_renames (p : string) (keys : list string)
    (m : gmap string V) :
  NoDup keys ->
  (forall k, k ∈ keys <-> is_Some (m !! k)) ->
  exists m',
    prefix_metric_keys p keys m = Some m' /\
    (forall k, is_Some (m' !! k) -> startswith (p +:+ "_") k = true) /\
    (forall k v, startswith (p +:+ "_") k = false -> m !! k = Some v ->
       m' !! (p +:+ "_" +:+ k) = Some v) /\
    (forall k v, startswith (p +:+ "_") k = true -> m !! k = Some v ->
       (forall t, k = p +:+ "_" +:+ t -> startswith (p +:+ "_") t = false ->
          m !! t = None) ->
       m' !! k = Some v) /\
    (forall k v, m' !! k = Some v ->
       m !! k = Some v \/ exists t, k = p +:+ "_" +:+ t /\ m !! t = Some v).
Proof.
  intros Hnd Hdom.
  destruct (prefix_metric_keys_after p keys [] m m) as (m' & Hm' & Hafter).
  - exact Hnd.
  - intros k Hk. now apply Hdom.
  - intros k. now rewrite metric_after_nil.
  - simpl in Hafter. exists m'. split; [exact Hm'|].
    split; [|split; [|split]].
    + intros k [v Hk]. rewrite Hafter in Hk. unfold metric_after in Hk.
      destruct (strip_prefix (p +:+ "_") k) as [t|] eqn:Ek.
      * apply startswith_strip_prefix. rewrite Ek. eauto.
      * destruct (bool_decide (k ∈ keys)) eqn:Eb; [discriminate|].
        apply bool_decide_eq_false in Eb. exfalso. apply Eb, Hdom.
        rewrite Hk. eauto.
    + intros k v Hp Hk. rewrite Hafter. unfold metric_after.
      replace (p +:+ "_" +:+ k) with ((p +:+ "_") +:+ k)
        by (apply append_assoc).
      rewrite strip_prefix_app, Hp. simpl.
      rewrite bool_decide_eq_true_2, Hk; [reflexivity|].
      apply Hdom. rewrite Hk. eauto.
    + intros k v Hp Hk Hfree. rewrite Hafter. unfold metric_after.
      apply startswith_strip_prefix in Hp as [t Ht]. rewrite Ht.
      destruct (startswith (p +:+ "_") t) eqn:Et; simpl; [exact Hk|].
      rewrite (Hfree t), Hk.
      * now destruct (bool_decide (t ∈ keys)).
      * apply strip_prefix_Some in Ht. now rewrite append_assoc in Ht.
      * exact Et.
    + intros k v Hk. rewrite Hafter in Hk. unfold metric_after in Hk.
      destruct (strip_prefix (p +:+ "_") k) as [t|] eqn:Ek.
      * destruct (negb (startswith (p +:+ "_") t) && bool_decide (t ∈ keys));
          [|now left].
        destruct (m !! t) as [w|] eqn:Et; [|now left].
        right. exists t. split; [|congruence].
        apply strip_prefix_Some in Ek. now rewrite append_assoc in Ek.
      * destruct (bool_decide (k ∈ keys)); [discriminate | now left].
Qed.

End MetricKeysFacts.

(** ** Mask groups *)

Section RegParamsFacts.
Context {T : Type}.

Lemma init_layer_masks_eq (layers : list (MaskedLayer T)) (past : T)
    (self : RegState T) :
  init_layer_masks layers past self =
  mkRegState
    (reg_params self)
    (mask_groups_0 self ++
       concat (map (fun layer =>
         [attention_output_LayerNorm_mask layer; output_LayerNorm_mask layer;
          attention_self_query_mask layer; attention_self_value_mask layer;
          output_dense_mask layer]) layers))
    (mask_groups_1 self ++
       concat (map (fun layer =>
         [attention_self_mask layer; attention_output_mask layer;
          output_mask layer]) layers))
    (per_layer_mask_groups self ++ layer_tuples past layers).
Proof.
  revert past self. induction layers as [|layer rest IH]; intros past self.
  - simpl. rewrite !app_nil_r. now destruct self.
  - simpl. rewrite IH. simpl. rewrite <- !app_assoc. reflexivity.
Qed.

Lemma init_reg_params_eq (model : MaskedModel T) :
  init_reg_params new_reg_state model =
  mkRegState
    (List.filter is_reg_param (map fst (named_parameters model)))
    (embeddings_LayerNorm_mask model ::
       concat (map (fun layer =>
         [attention_output_LayerNorm_mask layer; output_LayerNorm_mask layer;
          attention_self_query_mask layer; attention_self_value_mask layer;
          output_dense_mask layer]) (bert_encoder_layer model)))
    (concat (map (fun layer =>
         [attention_self_mask layer; attention_output_mask layer;
          output_mask layer]) (bert_encoder_layer model)))
    (layer_tuples (embeddings_LayerNorm_mask model) (bert_encoder_layer model)).
Proof. unfold init_reg_params. rewrite init_layer_masks_eq. reflexivity. Qed.

Lemma length_layer_tuples (layers : list (MaskedLayer T)) (past : T) :
  length (layer_tuples past layers) = length layers.
Proof.
  revert past. induction layers as [|layer rest IH]; intros past; simpl;
    [reflexivity | now rewrite IH].
Qed.

Lemma lookup_layer_tuples (layers : list (MaskedLayer T)) (past : T)
    (i : nat) (layer : MaskedLayer T) :
  layers !! i = Some layer ->
  exists hidden_mask0,
    match i with
    | 0 => Some past
    | S j => output_LayerNorm_mask <$> layers !! j
    end = Some hidden_mask0 /\
    layer_tuples past layers !! i = Some (layer_tuple hidden_mask0 layer).
Proof.
  revert past i. induction layers as [|l0 rest IH]; intros past i Hi.
  - destruct i; discriminate.
  - destruct i as [|i]; simpl in *.
    + injection Hi as ->. eauto.
    + destruct (IH (output_LayerNorm_mask l0) i Hi) as (h & Hh & Ht).
      exists h. split; [|exact Ht].
      destruct i as [|j]; simpl in *; [exact Hh | exact Hh].
Qed.

Lemma length_concat_const {A B : Type} (f : A -> list B) (n : nat)
    (l : list A) :
  (forall x, length (f x) = n) ->
  length (concat (map f l)) = n * length l.
Proof.
  intros Hf. induction l as [|x l IH]; simpl; [lia|].
  rewrite length_app, Hf, IH. lia.
Qed.

(** X17.  For a model of L layers [init_reg_params] files L tuples of nine
    masks, 1 + 5 L masks in group 0 and 3 L in group 1.  The tuple of layer
    [i] holds that layer's own eight masks after the mask on the residual
    stream that enters it: the embedding normalization's for the first
    layer, and for every other one the mask of the previous layer's last
    normalization. *)
Theorem init_reg_params_layout (model : MaskedModel T) :
  let self := init_reg_params new_reg_state model in
  let L := length (bert_encoder_layer model) in
  length (per_layer_mask_groups self) = L /\
  length (mask_groups_0 self) = 1 + 5 * L /\
  length (mask_groups_1 self) = 3 * L /\
  forall i layer,
    bert_encoder_layer model !! i = Some layer ->
    exists hidden_mask0,
      hidden_mask_before model i = Some hidden_mask0 /\
      per_layer_mask_groups self !! i =
        Some [hidden_mask0; attention_output_LayerNorm_mask layer;
              output_LayerNorm_mask layer; attention_self_query_mask layer;
              attention_self_value_mask layer; attention_self_mask layer;
              output_dense_mask layer; attention_output_mask layer;
              output_mask layer].
Proof.
  intros self L. subst self L. rewrite init_reg_params_eq. simpl.
  split; [apply length_layer_tuples|].
  split; [now rewrite (length_concat_const _ 5)|].
  split; [now rewrite (length_concat_const _ 3)|].
  intros i layer Hi.
  destruct (lookup_layer_tuples _ (embeddings_LayerNorm_mask model) _ _ Hi)
    as (h & Hh & Ht).
  exists h. split; [|exact Ht]. destruct i; exact Hh.
Qed.




End RegParamsFacts.

(** ** Per-layer sparsity *)

Section PerLayerSparsityFacts.
Context {T V : Type}.
Variable L_sum : T -> V.
Variable features : T -> nat.
Variable div : V -> nat -> V.
Variable ge_half : V -> bool.

Lemma mapM_layer_tuples {B : Type} (F : list T -> option B)
    (G : MaskedLayer T -> option B) :
  (forall past layer, F (layer_tuple past layer) = G layer) ->
  forall past layers, mapM F (layer_tuples past layers) = mapM G layers.
Proof.
  intros HFG past layers. revert past.
  induction layers as [|layer rest IH]; intros past; [reflexivity|].
  simpl. rewrite HFG, IH. reflexivity.
Qed.

Lemma mapM_total {A B : Type} (f : A -> option B) (g : A -> B) (l : list A) :
  (forall x, x ∈ l -> f x = Some (g x)) -> mapM f l = Some (map g l).
Proof.
  intros Hf. induction l as [|x l IH]; [reflexivity|].
  simpl. rewrite Hf by apply list_elem_of_here.
  rewrite IH by (intros y Hy; apply Hf, list_elem_of_further, Hy).
  reflexivity.
Qed.

Lemma kept_ratio_Some (mask : T) :
  features mask <> 0 ->
  kept_ratio L_sum features div mask =
  Some (div (L_sum mask) (features mask)).
Proof.
  intros Hm. unfold kept_ratio.
  destruct (Nat.eqb_spec (features mask) 0); [contradiction | reflexivity].
Qed.

(** X19.  On the groups filed by [init_reg_params], the slices [[-6:-2]]
    and [[-2:]] of [compute_per_layer_sparsity] always unpack, and they pick
    each layer's own query, value, head and filter masks and its two layer
    masks.  So long as no mask that is read has 0 features, the function
    returns, layer by layer, the kept ratios of the two normalizations and
    of those four masks and the two layer flags. *)
Theorem per_layer_sparsity_reads_own_masks (model : MaskedModel T) :
  (forall layer, layer ∈ bert_encoder_layer model ->
     Forall (fun mask => features mask <> 0)
       [attention_output_LayerNorm_mask layer; output_LayerNorm_mask layer;
        attention_self_query_mask layer; attention_self_value_mask layer;
        attention_self_mask layer; output_dense_mask layer]) ->
  let ratio := fun mask => div (L_sum mask) (features mask) in
  compute_per_layer_sparsity L_sum features div ge_half
    (init_reg_params new_reg_state model) model =
  Some (map (fun layer => [ratio (attention_output_LayerNorm_mask layer);
                           ratio (output_LayerNorm_mask layer)])
            (bert_encoder_layer model),
        map (fun layer => ratio (attention_self_query_mask layer))
            (bert_encoder_layer model),
        map (fun layer => ratio (attention_self_value_mask layer))
            (bert_encoder_layer model),
        map (fun layer => ratio (attention_self_mask layer))
            (bert_encoder_layer model),
        map (fun layer => ratio (output_dense_mask layer))
            (bert_encoder_layer model),
        map (fun layer => (ge_half (L_sum (attention_output_mask layer)),
                           ge_half (L_sum (output_mask layer))))
            (bert_encoder_layer model)).
Proof.
  intros Hpos ratio. unfold compute_per_layer_sparsity.
  rewrite init_reg_params_eq. simpl per_layer_mask_groups.
  rewrite (mapM_total _
    (fun layer => [ratio (attention_output_LayerNorm_mask layer);
                   ratio (output_LayerNorm_mask layer)])).
  2:{ intros layer Hl. specialize (Hpos layer Hl).
      rewrite !Forall_cons in Hpos.
      destruct Hpos as (H1 & H2 & _).
      rewrite !kept_ratio_Some by assumption. reflexivity. }
  simpl.
  rewrite (mapM_layer_tuples _ (fun layer =>
    qk ← kept_ratio L_sum features div (attention_self_query_mask layer);
    vo ← kept_ratio L_sum features div (attention_self_value_mask layer);
    head ← kept_ratio L_sum features div (attention_self_mask layer);
    filter ← kept_ratio L_sum features div (output_dense_mask layer);
    Some (qk, vo, head, filter))) by reflexivity.
  rewrite (mapM_total _ (fun layer =>
    (ratio (attention_self_query_mask layer),
     ratio (attention_self_value_mask layer),
     ratio (attention_self_mask layer),
     ratio (output_dense_mask layer)))).
  2:{ intros layer Hl. specialize (Hpos layer Hl).
      rewrite !Forall_cons in Hpos.
      destruct Hpos as (_ & _ & H3 & H4 & H5 & H6 & _).
      rewrite !kept_ratio_Some by assumption. reflexivity. }
  simpl.
  rewrite (mapM_layer_tuples _ (fun layer =>
    Some (ge_half (L_sum (attention_output_mask layer)),
          ge_half (L_sum (output_mask layer))))) by reflexivity.
  rewrite (mapM_total _ (fun layer =>
    (ge_half (L_sum (attention_output_mask layer)),
     ge_half (L_sum (output_mask layer))))) by reflexivity.
  simpl. rewrite !map_map. reflexivity.
Qed.

End PerLayerSparsityFacts.

(** ** Parameter groups of the optimizer *)

Section OptimizerFacts.
Context {V : Type}.
Variable args_weight_decay args_reg_learning_rate zero : V.
Variable neg : V -> V.

Lemma filter_partition4 {A : Type} (p1 p2 p3 p4 q : A -> bool) (l : list A) :
  (forall x, q x = p1 x || p2 x || p3 x || p4 x) ->
  (forall x, p1 x && (p2 x || p3 x || p4 x) = false) ->
  (forall x, p2 x && (p3 x || p4 x) = false) ->
  (forall x, p3 x && p4 x = false) ->
  List.filter p1 l ++ List.filter p2 l ++ List.filter p3 l ++ List.filter p4 l
  ≡ₚ List.filter q l.
Proof.
  intros Hq H1 H2 H3. induction l as [|x l IH]; [reflexivity|].
  simpl. specialize (Hq x). specialize (H1 x). specialize (H2 x).
  specialize (H3 x). rewrite Hq.
  destruct (p1 x), (p2 x), (p3 x), (p4 x); simpl in *; try discriminate.
  - apply perm_skip, IH.
  - etransitivity; [apply Permutation_sym, Permutation_middle|].
    apply perm_skip, IH.
  - rewrite (app_assoc (List.filter p1 l)).
    etransitivity; [apply Permutation_sym, Permutation_middle|].
    rewrite <- app_assoc. apply perm_skip, IH.
  - rewrite (app_assoc (List.filter p2 l)), (app_assoc (List.filter p1 l)).
    etransitivity; [apply Permutation_sym, Permutation_middle|].
    rewrite <- !app_assoc. apply perm_skip, IH.
  - exact IH.
Qed.

(** X20.  The four parameter groups share no parameter: together they hold,
    each once, the parameters that require a gradient or are filed in
    [reg_params], and no other. *)
Theorem optimizer_groups_partition (named_parameters : list (string * bool))
    (parameter_names reg_params : list string) :
  concat (map params
    (optimizer_grouped_parameters args_weight_decay args_reg_learning_rate
       zero neg named_parameters parameter_names reg_params))
  ≡ₚ List.filter (fun np => np.2 || bool_decide (np.1 ∈ reg_params))
       named_parameters.
Proof.
  unfold optimizer_grouped_parameters. simpl. rewrite app_nil_r.
  apply filter_partition4; intros [n p]; simpl;
    repeat match goal with
           | |- context [bool_decide ?P] => destruct (bool_decide P)
           end;
    destruct p, (contains "reg" n); reflexivity.
Qed.

Lemma endswith_contains (sub suffix name : string) :
  contains sub suffix = true ->
  endswith name suffix = true ->
  contains sub name = true.
Proof.
  intros Hs. induction name as [|a name IH]; cbn [endswith contains].
  - rewrite orb_false_r. intros He. apply String.eqb_eq in He as <-.
    exact Hs.
  - intros He. apply orb_true_iff in He as [He | He].
    + apply String.eqb_eq in He as <-. exact Hs.
    + rewrite (IH He). apply orb_true_r.
Qed.

(** X21.  Every regularisation parameter of the model is handed to the
    optimizer whether or not it requires a gradient: with the learning rate
    [-reg_learning_rate] when its name holds [reg], in the last group, and
    with [reg_learning_rate] otherwise, in the group before.  The two
    multipliers, whose names end in [reg_lambda_1] and [reg_lambda_2], are
    always of the first kind. *)
Theorem reg_params_learning_rate {T : Type} (model : MaskedModel T)
    (parameter_names : list string) (n : string) (p : bool) :
  (n, p) ∈ named_parameters model ->
  is_reg_param n = true ->
  let groups :=
    optimizer_grouped_parameters args_weight_decay args_reg_learning_rate
      zero neg (named_parameters model) parameter_names
      (reg_params (init_reg_params new_reg_state model)) in
  exists group,
    groups !! (if contains "reg" n then 3 else 2) = Some group /\
    (n, p) ∈ params group /\
    weight_decay group = zero /\
    lr group = Some (if contains "reg" n then neg args_reg_learning_rate
                     else args_reg_learning_rate) /\
    (endswith n "reg_lambda_1" = true \/ endswith n "reg_lambda_2" = true ->
     contains "reg" n = true).
Proof.
  intros Hin Hreg groups. subst groups. rewrite init_reg_params_eq.
  simpl reg_params. unfold optimizer_grouped_parameters.
  assert (Hmem : bool_decide
    (n ∈ List.filter is_reg_param (map fst (named_parameters model))) = true).
  { apply bool_decide_eq_true_2, list_elem_of_In, filter_In.
    split; [|exact Hreg]. apply in_map_iff. exists (n, p).
    split; [reflexivity|]. now apply list_elem_of_In. }
  assert (Hlam : endswith n "reg_lambda_1" = true \/
                 endswith n "reg_lambda_2" = true ->
                 contains "reg" n = true).
  { intros [He | He]; eapply endswith_contains; try exact He; reflexivity. }
  destruct (contains "reg" n) eqn:Ec; simpl; eexists;
    (split; [reflexivity|]); simpl;
    (split; [|split; [reflexivity|split; [reflexivity|]]]); try exact Hlam.
  - apply list_elem_of_In, filter_In. split; [now apply list_elem_of_In|].
    simpl. now rewrite Hmem, Ec.
  - apply list_elem_of_In, filter_In. split; [now apply list_elem_of_In|].
    simpl. now rewrite Hmem, Ec.
Qed.

End OptimizerFacts.

(** ** The pruning schedule *)

Section CallbackFacts.
Context {T : Type}.

Lemma on_epoch_begin_eq (self : Callback) (trainer : Switches T) (epoch : Q) :
  let trainer' := on_epoch_begin self trainer epoch in
  masks trainer' = masks trainer /\
  use_structural_pruning trainer' = use_structural_pruning trainer /\
  pruning_switch trainer' =
    pruning_switch trainer || Qle_bool (pruning_start_epoch self) epoch /\
  structural_pruning_switch trainer' =
    structural_pruning_switch trainer ||
    (use_structural_pruning trainer &&
     Qle_bool (structural_pruning_start_epoch self) epoch) /\
  set_state_calls trainer' =
    set_state_calls trainer ++
    (if negb (pruning_switch trainer) && pruning_switch trainer'
     then map (fun m => (m, true)) (mask_groups_0 (masks trainer)) else []) ++
    (if negb (structural_pruning_switch trainer) &&
        structural_pruning_switch trainer'
     then map (fun m => (m, true)) (mask_groups_1 (masks trainer)) else []).
Proof.
  unfold on_epoch_begin, set_mask_group0_state, set_mask_group1_state.
  destruct trainer as [ms use sw ssw pct calls]. simpl.
  destruct (Qle_bool (pruning_start_epoch self) epoch),
    (Qle_bool (structural_pruning_start_epoch self) epoch),
    sw, ssw, use; simpl;
    rewrite ?app_nil_r, <- ?app_assoc; auto.
Qed.

Lemma handle_event_eq (st st' : Callback * Switches T) (e : callback_event) :
  handle_event st e = Some st' ->
  pruning_start_epoch st'.1 = pruning_start_epoch st.1 /\
  structural_pruning_start_epoch st'.1 = structural_pruning_start_epoch st.1 /\
  masks st'.2 = masks st.2 /\
  use_structural_pruning st'.2 = use_structural_pruning st.2 /\
  pruning_switch st'.2 =
    pruning_switch st.2 || epoch_reached (pruning_start_epoch st.1) [e] /\
  structural_pruning_switch st'.2 =
    structural_pruning_switch st.2 ||
    (use_structural_pruning st.2 &&
     epoch_reached (structural_pruning_start_epoch st.1) [e]) /\
  set_state_calls st'.2 =
    set_state_calls st.2 ++
    (if negb (pruning_switch st.2) && pruning_switch st'.2
     then map (fun m => (m, true)) (mask_groups_0 (masks st.2)) else []) ++
    (if negb (structural_pruning_switch st.2) &&
        structural_pruning_switch st'.2
     then map (fun m => (m, true)) (mask_groups_1 (masks st.2)) else []).
Proof.
  destruct st as [self trainer]. destruct e as [len gas | epoch | epoch]; simpl.
  - unfold on_train_begin. destruct (Nat.eqb gas 0); [discriminate|].
    simpl. intros [= <-]. simpl.
    rewrite !orb_false_r, !andb_false_r, !orb_false_r, !andb_negb_l, app_nil_r.
    auto 10.
  - intros [= <-]. simpl. rewrite !orb_false_r.
    destruct (on_epoch_begin_eq self trainer epoch) as (H1 & H2 & H3 & H4 & H5).
    auto 10.
  - unfold on_step_begin.
    destruct (Qle_bool (pruning_start_epoch self) epoch).
    + destruct (pruning_warmup_steps self) as [w|]; [|discriminate]. simpl.
      destruct (Qeq_bool w 0); [discriminate|]. intros [= <-]. simpl.
      rewrite !andb_false_r, !orb_false_r, !andb_negb_l, app_nil_r. auto 10.
    + intros [= <-]. simpl.
      rewrite !andb_false_r, !orb_false_r, !andb_negb_l, app_nil_r. auto 10.
Qed.

Lemma handle_events_eq (events : list callback_event)
    (st st' : Callback * Switches T) :
  handle_events st events = Some st' ->
  pruning_start_epoch st'.1 = pruning_start_epoch st.1 /\
  structural_pruning_start_epoch st'.1 = structural_pruning_start_epoch st.1 /\
  masks st'.2 = masks st.2 /\
  use_structural_pruning st'.2 = use_structural_pruning st.2 /\
  pruning_switch st'.2 =
    pruning_switch st.2 || epoch_reached (pruning_start_epoch st.1) events /\
  structural_pruning_switch st'.2 =
    structural_pruning_switch st.2 ||
    (use_structural_pruning st.2 &&
     epoch_reached (structural_pruning_start_epoch st.1) events) /\
  exists calls,
    set_state_calls st'.2 = set_state_calls st.2 ++ calls /\
    calls ≡ₚ
      (if negb (pruning_switch st.2) && pruning_switch st'.2
       then map (fun m => (m, true)) (mask_groups_0 (masks st.2)) else []) ++
      (if negb (structural_pruning_switch st.2) &&
          structural_pruning_switch st'.2
       then map (fun m => (m, true)) (mask_groups_1 (masks st.2)) else []).
Proof.
  revert st. induction events as [|e rest IH]; intros st.
  - simpl. intros [= <-]. rewrite !andb_false_r, !orb_false_r, !andb_negb_l.
    repeat (split; [reflexivity|]). exists []. now rewrite app_nil_r.
  - simpl. destruct (handle_event st e) as [st1|] eqn:He; [|discriminate].
    simpl. intros Hrest.
    destruct (handle_event_eq _ _ _ He)
      as (E1 & E2 & E3 & E4 & E5 & E6 & E7).
    destruct (IH _ Hrest) as (F1 & F2 & F3 & F4 & F5 & F6 & calls & F7 & F8).
    rewrite E1 in *. rewrite E2 in *. rewrite E3 in *. rewrite E4 in *.
    unfold epoch_reached in *. simpl in E5, E6 |- *.
    rewrite orb_false_r in E5, E6.
    split; [exact F1|]. split; [exact F2|]. split; [exact F3|].
    split; [exact F4|].
    split; [rewrite F5, E5; now rewrite orb_assoc|].
    split.
    { rewrite F6, E6. destruct (use_structural_pruning st.2); simpl.
      - now rewrite orb_assoc.
      - now rewrite !orb_false_r. }
    eexists. split; [rewrite F7, E7, <- app_assoc; reflexivity|].
    rewrite F8.
    assert (M1 : pruning_switch st.2 = true -> pruning_switch st1.2 = true)
      by (intros H; rewrite E5, H; reflexivity).
    assert (M2 : pruning_switch st1.2 = true -> pruning_switch st'.2 = true)
      by (intros H; rewrite F5, H; reflexivity).
    assert (M3 : structural_pruning_switch st.2 = true ->
                 structural_pruning_switch st1.2 = true)
      by (intros H; rewrite E6, H; reflexivity).
    assert (M4 : structural_pruning_switch st1.2 = true ->
                 structural_pruning_switch st'.2 = true)
      by (intros H; rewrite F6, H; reflexivity).
    clear - M1 M2 M3 M4.
    destruct (pruning_switch st.2), (pruning_switch st1.2),
      (pruning_switch st'.2), (structural_pruning_switch st.2),
      (structural_pruning_switch st1.2), (structural_pruning_switch st'.2);
      simpl;
      try (specialize (M1 eq_refl)); try (specialize (M2 eq_refl));
      try (specialize (M3 eq_refl)); try (specialize (M4 eq_refl));
      try discriminate;
      rewrite ?app_nil_r; try reflexivity.
    apply Permutation_app_comm.
Qed.

(** X22.  Over any run of the callback that starts with both switches off,
    pruning is on at the end exactly when an epoch at or after
    [pruning_start_epoch] has begun, and structural pruning exactly when it
    is in use and an epoch at or after its own start has begun.  The masks
    of group 0 have then each been activated once, those of group 1
    likewise, and [set_state] has been called on nothing else. *)
Theorem pruning_switches_follow_epochs (events : list callback_event)
    (self self' : Callback) (trainer trainer' : Switches T) :
  handle_events (self, trainer) events = Some (self', trainer') ->
  pruning_switch trainer = false ->
  structural_pruning_switch trainer = false ->
  pruning_switch trainer' =
    epoch_reached (pruning_start_epoch self) events /\
  structural_pruning_switch trainer' =
    use_structural_pruning trainer &&
    epoch_reached (structural_pruning_start_epoch self) events /\
  exists calls,
    set_state_calls trainer' = set_state_calls trainer ++ calls /\
    calls ≡ₚ
      (if pruning_switch trainer'
       then map (fun m => (m, true)) (mask_groups_0 (masks trainer))
       else []) ++
      (if structural_pruning_switch trainer'
       then map (fun m => (m, true)) (mask_groups_1 (masks trainer))
       else []).
Proof.
  intros Hrun Hsw Hssw.
  destruct (handle_events_eq _ _ _ Hrun)
    as (_ & _ & _ & _ & F5 & F6 & calls & F7 & F8).
  simpl in *. rewrite Hsw, Hssw in *. simpl in *.
  split; [exact F5|]. split; [exact F6|].
  exists calls. split; [exact F7 | exact F8].
Qed.

Lemma warmup_steps_zero (w : Q) (n : nat) :
  n <> 0 ->
  Qeq_bool (w * inject_Z (Z.of_nat n)) 0 = Qeq_bool w 0.
Proof.
  intros Hn. destruct (Qeq_bool w 0) eqn:Ew.
  - apply Qeq_bool_iff in Ew. apply Qeq_bool_iff. rewrite Ew. ring.
  - destruct (Qeq_bool (w * inject_Z (Z.of_nat n)) 0) eqn:Em; [|reflexivity].
    apply Qeq_bool_iff in Em. apply Qmult_integral in Em as [Em | Em].
    + apply Qeq_bool_iff in Em. congruence.
    + exfalso. unfold Qeq, inject_Z in Em. simpl in Em. lia.
Qed.

(** X23.  Once [on_train_begin] has run, a step raises exactly when
    [pruning_warmup_epoch] is 0 and the step falls in an epoch at or after
    [pruning_start_epoch]. *)
Theorem step_raises_iff_no_warmup (self self1 : Callback)
    (len_dataloader gradient_accumulation_steps : nat)
    (trainer : Switches T) (epoch : Q) :
  on_train_begin self len_dataloader gradient_accumulation_steps
    = Some self1 ->
  on_step_begin self1 trainer epoch = None <->
  (pruning_warmup_epoch self == 0)%Q /\
  (pruning_start_epoch self <= epoch)%Q.
Proof.
  unfold on_train_begin.
  destruct (Nat.eqb gradient_accumulation_steps 0); [discriminate|].
  intros [= <-]. unfold on_step_begin. simpl.
  rewrite warmup_steps_zero by lia.
  destruct (Qle_bool (pruning_start_epoch self) epoch) eqn:El.
  - apply Qle_bool_iff in El.
    destruct (Qeq_bool (pruning_warmup_epoch self) 0) eqn:Ew.
    + apply Qeq_bool_iff in Ew. tauto.
    + split; [discriminate|]. intros [Hw _].
      apply Qeq_bool_iff in Hw. congruence.
  - split; [discriminate|]. intros [_ Hl].
    apply Qle_bool_iff in Hl. congruence.
Qed.

Lemma min_one_le (x : Q) : (min_one x <= 1)%Q.
Proof.
  unfold min_one. destruct (Qlt_le_dec x 1) as [Hx | Hx].
  - now apply Qlt_le_weak.
  - apply Qle_refl.
Qed.

Lemma min_one_reached (x : Q) : (1 <= x)%Q -> (min_one x == 1)%Q.
Proof.
  intros Hx. unfold min_one. destruct (Qlt_le_dec x 1) as [Hlt | _].
  - exfalso. apply (Qlt_irrefl 1). eapply Qle_lt_trans; eassumption.
  - reflexivity.
Qed.

(** X24.  With a positive number of warm-up steps, a step in an epoch at or
    after [pruning_start_epoch] never raises: it counts one more pruning
    step and leaves a warm-up percentage of at most 1, which is 1 once the
    count has reached the number of warm-up steps. *)
Theorem warmup_percent_saturates (self : Callback) (trainer : Switches T)
    (epoch warmup : Q) :
  pruning_warmup_steps self = Some warmup ->
  (0 < warmup)%Q ->
  (pruning_start_epoch self <= epoch)%Q ->
  exists self' trainer',
    on_step_begin self trainer epoch = Some (self', trainer') /\
    pruning_steps self' = S (pruning_steps self) /\
    pruning_warmup_steps self' = Some warmup /\
    (pruning_warmup_percent trainer' <= 1)%Q /\
    ((warmup <= inject_Z (Z.of_nat (pruning_steps self')))%Q ->
     (pruning_warmup_percent trainer' == 1)%Q).
Proof.
  intros Hw Hpos Hle. unfold on_step_begin.
  apply Qle_bool_iff in Hle. rewrite Hle, Hw. simpl.
  destruct (Qeq_bool warmup 0) eqn:E0.
  { apply Qeq_bool_iff in E0. rewrite E0 in Hpos.
    now apply Qlt_irrefl in Hpos. }
  do 2 eexists. split; [reflexivity|]. simpl.
  split; [reflexivity|]. split; [reflexivity|].
  split; [apply min_one_le|].
  intros Hreach. apply min_one_reached.
  apply Qle_shift_div_l; [exact Hpos|]. now rewrite Qmult_1_l.
Qed.

End CallbackFacts.

(** ** The best score *)

Section BestScoreFacts.
Context {V SD : Type}.
Variable gtb : V -> V -> bool.

(** X25.  When [args.target_score_field] is given, [__init__] leaves the
    attribute [target_score_field] of the trainer unset, and every
    evaluation on the process of rank 0 then raises on reading it. *)
Theorem given_target_score_field_is_lost (field args_dataset_name : string)
    (local_rank : Z) (results : gmap string V) (sparsity_close : bool)
    (state_dict : SD) :
  exists self : ScoreState V SD,
    init_score_state (Some field) args_dataset_name = Some self /\
    target_score_field self = None /\
    (record_best_score gtb self local_rank results sparsity_close state_dict
       = None <-> local_rank = 0%Z).
Proof.
  eexists. split; [reflexivity|]. split; [reflexivity|].
  unfold record_best_score. simpl.
  destruct (Z.eqb_spec local_rank 0); simpl.
  - tauto.
  - split; [discriminate | contradiction].
Qed.

Section Maximal.
Hypothesis gtb_irrefl : forall x, gtb x x = false.
Hypothesis gtb_trans :
  forall x y z, gtb x y = true -> gtb y z = true -> gtb x z = true.




End Maximal.
End BestScoreFacts.

(** * The further properties on concrete inputs *)

(** Two transforms with a bias each, fused and applied. *)
Lemma merge_forward_matching_bias_witness :
  let A := mkLinear 2 2 [[1; 2]; [3; 4]]%Z (Some [1; 0]%Z) in
  let B := mkLinear 2 1 [[1; 1]]%Z (Some [2]%Z) in
  let x := [1; 1]%Z in
  exists M y,
    merge (mkLinearMixer A) B = Some M /\
    forward (unwrap M) x = Some y /\
    (forward A x ≫= forward B) = Some y.
Proof.
  intros A B x.
  apply (merge_forward_matching_bias Z_semi_ring A B x);
    first [ reflexivity
          | repeat split; try reflexivity;
            [ repeat constructor | intros b [= <-]; reflexivity ] ].
Defined.

Lemma merge_well_formed_witness :
  let A := mkLinear 2 2 [[1; 2]; [3; 4]]%Z (Some [1; 0]%Z) in
  let B := mkLinear 2 1 [[1; 1]]%Z (Some [2]%Z) in
  let M := mkLinearMixer (mkLinear 2 1 [[4; 6]]%Z (Some [3]%Z)) in
  merge (mkLinearMixer A) B = Some M /\
  Linear_wf (unwrap M) /\
  in_features (unwrap M) = in_features A /\
  out_features (unwrap M) = out_features B.
Proof.
  intros A B M. split; [vm_compute; reflexivity|].
  apply (merge_well_formed (mkLinearMixer A) B M).
  - repeat split; try reflexivity;
      [ repeat constructor | intros b [= <-]; reflexivity ].
  - vm_compute. reflexivity.
Defined.

(** Outputs 1 and 0 of a transform, in this order. *)
Lemma merge_mask_selects_outputs_witness :
  let A := mkLinear 2 2 [[1; 2]; [3; 4]]%Z (Some [1; 0]%Z) in
  let indices := [1; 0] in
  let x := [1; 1]%Z in
  exists M y,
    merge_mask (mkLinearMixer A) indices = Some M /\
    forward (unwrap M) x = Some y /\
    (forward A x ≫= fun y => index_select y indices) = Some y /\
    length y = length indices.
Proof.
  intros A indices x.
  apply (merge_mask_selects_outputs A indices x).
  - repeat split; try reflexivity;
      [ repeat constructor | intros b [= <-]; reflexivity ].
  - repeat constructor.
  - reflexivity.
Defined.


Lemma merge_mask_all_is_identity_witness :
  let A := mkLinear 2 2 [[1; 2]; [3; 4]]%Z (Some [1; 0]%Z) in
  merge_mask (mkLinearMixer A) (seq 0 (out_features A)) = Some (mkLinearMixer A).
Proof.
  intros A. apply (merge_mask_all_is_identity A).
  repeat split; try reflexivity;
    [ repeat constructor | intros b [= <-]; reflexivity ].
Defined.

Lemma merge_mask_commutes_with_merge_witness :
  let A := mkLinear 2 2 [[1; 2]; [3; 4]]%Z (Some [1; 0]%Z) in
  let B := mkLinear 2 2 [[1; 1]; [0; 2]]%Z (Some [2; 5]%Z) in
  (merge (mkLinearMixer A) B ≫= fun m => merge_mask m [1])
  = (merge_mask (mkLinearMixer B) [1] ≫=
       fun b => merge (mkLinearMixer A) (unwrap b)).
Proof.
  intros A B. apply (merge_mask_commutes_with_merge A B [1]).
  repeat split; try reflexivity;
    [ repeat constructor | intros b [= <-]; reflexivity ].
Defined.

Lemma merge_mask_is_selection_merge_witness :
  let A := mkLinear 2 2 [[1; 2]; [3; 4]]%Z None in
  exists M,
    merge_mask (mkLinearMixer A) [1] = Some M /\
    merge (mkLinearMixer A) (SelectionMatrix (out_features A) [1]) = Some M.
Proof.
  intros A. apply (merge_mask_is_selection_merge Z_semi_ring A [1]).
  - repeat split; try reflexivity; [ repeat constructor | intros b [=] ].
  - reflexivity.
  - repeat constructor.
Defined.

(** The fused layer of the one-layer model. *)
Lemma fused_layer_widths_agree_witness :
  exists ms p,
    read_layer ex_store 0 ex_layer = Some ms /\
    fuse_layer ms = Some p /\
    in_features (key p) = in_features (query p) /\
    in_features (value p) = in_features (query p) /\
    in_features (new_attention_output_residual p) = in_features (query p) /\
    out_features (key p) = out_features (query p) /\
    out_features (new_attention_output_residual p) = out_features (output p) /\
    in_features (w1 p) = out_features (output p) /\
    in_features (new_output_residual p) = in_features (w1 p) /\
    out_features (new_output_residual p) = out_features (w2 p).
Proof.
  do 2 eexists. split; [vm_compute; reflexivity|].
  refine ((fun H => conj H (fused_layer_widths_agree _ _ H)) _).
  vm_compute. reflexivity.
Defined.

(** The one-layer model with its pooler taken away. *)
Lemma mix_requires_pooler_witness :
  let model := mkBertModel (config ex_model) 0 [ex_layer] None in
  pooler_dense model = None /\
  mix ex_state_dict ex_factory model ex_store = None.
Proof.
  intros model. split; [reflexivity|].
  apply (mix_requires_pooler ex_state_dict ex_factory model ex_store).
  reflexivity.
Defined.


Lemma mix_single_shot_witness :
  mix ex_state_dict ex_factory ex_model ex_store
    = Some ((ex_model', ex_packed), ex_store') /\
  mix ex_state_dict ex_factory ex_model' ex_store' = None.
Proof.
  split; [vm_compute; reflexivity|].
  apply (mix_single_shot ex_state_dict ex_state_dict ex_factory ex_factory
           ex_model ex_model' ex_packed ex_store ex_store').
  vm_compute. reflexivity.
Defined.

Lemma packed_config_structure_witness :
  exists cfg,
    get_packed_bert_config ex_store' ex_model' = Some cfg /\
    base_config cfg = config ex_model' /\
    length (per_layer_config cfg) = length (encoder_layer ex_model') /\
    Forall (fun c => num_heads c = num_attention_heads (config ex_model'))
      (per_layer_config cfg) /\
    forall i c c',
      per_layer_config cfg !! i = Some c ->
      per_layer_config cfg !! S i = Some c' ->
      input_dim c' = ffn_output_dim c.
Proof.
  eexists.
  refine ((fun H => conj H
             (packed_config_structure ex_store' ex_model' _ H)) _).
  vm_compute. reflexivity.
Defined.

(** Three student and three teacher layers. *)
Lemma match_index_in_range_witness :
  let dist := [[3; 1; 2]; [5; 4; 0]; [9; 9; 9]]%Z in
  exists ms,
    match_index Z.ltb dist 3 = Some ms /\
    length ms = 3 /\
    (forall i m, ms !! i = Some m -> i <= m < 3) /\
    (0 < 3 -> ms !! (3 - 1) = Some (3 - 1)).
Proof.
  intros dist. apply (match_index_in_range Z.ltb dist 3).
  - reflexivity.
  - repeat constructor.
Defined.

Lemma match_index_minimal_witness :
  let dist := [[3; 1; 2]; [5; 4; 0]; [9; 9; 9]]%Z in
  match_index Z.ltb dist 3 = Some [1; 2; 2] /\
  exists row v,
    dist !! 1 = Some row /\
    row !! 2 = Some v /\
    forall j w, 1 <= j -> row !! j = Some w -> Z.ltb w v = false.
Proof.
  intros dist. split; [vm_compute; reflexivity|].
  apply (match_index_minimal Z.ltb Z.ltb_irrefl
           (fun x y z Hxy Hyz =>
              proj2 (Z.ltb_lt x z)
                (Z.lt_trans x y z (proj1 (Z.ltb_lt x y) Hxy)
                                  (proj1 (Z.ltb_lt y z) Hyz)))
           dist 3 [1; 2; 2] 1 2).
  - vm_compute. reflexivity.
  - reflexivity.
Defined.

(** A metric reported with and without the prefix: the one without takes
    the place of the other. *)
Lemma prefix_metric_keys_renames_witness :
  let m : gmap string Z := {[ "loss" := 2%Z; "eval_loss" := 1%Z ]} in
  let keys := (map_to_list m).*1 in
  exists m',
    prefix_metric_keys "eval" keys m = Some m' /\
    (forall k, is_Some (m' !! k) -> startswith ("eval" +:+ "_") k = true) /\
    (forall k v, startswith ("eval" +:+ "_") k = false -> m !! k = Some v ->
       m' !! ("eval" +:+ "_" +:+ k) = Some v) /\
    (forall k v, startswith ("eval" +:+ "_") k = true -> m !! k = Some v ->
       (forall t, k = "eval" +:+ "_" +:+ t ->
          startswith ("eval" +:+ "_") t = false -> m !! t = None) ->
       m' !! k = Some v) /\
    (forall k v, m' !! k = Some v ->
       m !! k = Some v \/
       exists t, k = "eval" +:+ "_" +:+ t /\ m !! t = Some v).
Proof.
  intros m keys. apply (prefix_metric_keys_renames "eval" keys m).
  - apply NoDup_fst_map_to_list.
  - intros k. unfold keys. rewrite list_elem_of_fmap. split.
    + intros ([k' v] & -> & Hkv). apply elem_of_map_to_list in Hkv.
      simpl. rewrite Hkv. eauto.
    + intros [v Hv]. exists (k, v). split; [reflexivity|].
      now apply elem_of_map_to_list.
Defined.

(** One layer whose masks all have two features. *)
Lemma per_layer_sparsity_reads_own_masks_witness :
  let model := mkMaskedModel 0 [mkMaskedLayer 1 2 3 4 5 6 7 8] [] in
  let L_sum := fun mask : nat => Z.of_nat mask in
  let features := fun _ : nat => 2 in
  let div := fun (v : Z) (n : nat) => (v / Z.of_nat n)%Z in
  let ge_half := fun v : Z => (1 <=? v)%Z in
  compute_per_layer_sparsity L_sum features div ge_half
    (init_reg_params new_reg_state model) model =
  Some ([[0; 1]], [1], [2], [2], [3], [(true, true)])%Z.
Proof.
  intros model L_sum features div ge_half.
  apply (per_layer_sparsity_reads_own_masks L_sum features div ge_half model).
  intros layer _. repeat constructor; discriminate.
Defined.

(** A multiplier and a gate parameter, neither of which is among the names
    to decay. *)
Lemma reg_params_learning_rate_witness :
  let model : MaskedModel nat :=
    mkMaskedModel 0 []
      [("bert.reg_lambda_1", true);
       ("bert.embeddings.LayerNorm.mask.log_alpha", false);
       ("bert.pooler.dense.weight", true)] in
  let groups :=
    optimizer_grouped_parameters 1%Z 5%Z 0%Z Z.opp (named_parameters model)
      ["bert.pooler.dense.weight"]
      (reg_params (init_reg_params new_reg_state model)) in
  exists group,
    groups !! (if contains "reg" "bert.reg_lambda_1" then 3 else 2)
      = Some group /\
    ("bert.reg_lambda_1", true) ∈ params group /\
    weight_decay group = 0%Z /\
    lr group = Some (if contains "reg" "bert.reg_lambda_1"
                     then Z.opp 5%Z else 5%Z) /\
    (endswith "bert.reg_lambda_1" "reg_lambda_1" = true \/
     endswith "bert.reg_lambda_1" "reg_lambda_2" = true ->
     contains "reg" "bert.reg_lambda_1" = true).
Proof.
  intros model groups.
  apply (reg_params_learning_rate 1%Z 5%Z 0%Z Z.opp model
           ["bert.pooler.dense.weight"] "bert.reg_lambda_1" true).
  - apply list_elem_of_here.
  - vm_compute. reflexivity.
Defined.

(** Pruning from epoch 1, structural pruning from epoch 2, and a run that
    stops in epoch 1. *)
Lemma pruning_switches_follow_epochs_witness :
  let model : MaskedModel nat :=
    mkMaskedModel 0 [mkMaskedLayer 1 2 3 4 5 6 7 8] [] in
  let self := new_callback 1 1 2 in
  let trainer :=
    mkSwitches (init_reg_params new_reg_state model) true false false 0 [] in
  let events := [TrainBegin 10 2; EpochBegin 0; StepBegin 0;
                 EpochBegin 1; StepBegin 1] in
  exists self' trainer',
    handle_events (self, trainer) events = Some (self', trainer') /\
    pruning_switch trainer' =
      epoch_reached (pruning_start_epoch self) events /\
    structural_pruning_switch trainer' =
      use_structural_pruning trainer &&
      epoch_reached (structural_pruning_start_epoch self) events /\
    exists calls,
      set_state_calls trainer' = set_state_calls trainer ++ calls /\
      calls ≡ₚ
        (if pruning_switch trainer'
         then map (fun m => (m, true)) (mask_groups_0 (masks trainer))
         else []) ++
        (if structural_pruning_switch trainer'
         then map (fun m => (m, true)) (mask_groups_1 (masks trainer))
         else []).
Proof.
  intros model self trainer events.
  do 2 eexists. split; [vm_compute; reflexivity|].
  eapply (pruning_switches_follow_epochs events self _ trainer _).
  - vm_compute. reflexivity.
  - reflexivity.
  - reflexivity.
Defined.

(** No warm-up: the first step of the first pruning epoch raises. *)
Lemma step_raises_iff_no_warmup_witness :
  let self := new_callback 1 0 2 in
  let trainer : Switches nat := mkSwitches new_reg_state true false false 0 [] in
  exists self1,
    on_train_begin self 10 2 = Some self1 /\
    (on_step_begin self1 trainer 1 = None <->
     (pruning_warmup_epoch self == 0)%Q /\ (pruning_start_epoch self <= 1)%Q).
Proof.
  intros self trainer. eexists. split; [vm_compute; reflexivity|].
  eapply (step_raises_iff_no_warmup self _ 10 2 trainer 1).
  vm_compute. reflexivity.
Defined.

(** The fifth of five warm-up steps. *)
Lemma warmup_percent_saturates_witness :
  let self := mkCallback 1 1 2 4 (Some 5%Q) in
  let trainer : Switches nat := mkSwitches new_reg_state true true false 0 [] in
  exists self' trainer',
    on_step_begin self trainer 1 = Some (self', trainer') /\
    pruning_steps self' = S (pruning_steps self) /\
    pruning_warmup_steps self' = Some 5%Q /\
    (pruning_warmup_percent trainer' <= 1)%Q /\
    ((5 <= inject_Z (Z.of_nat (pruning_steps self')))%Q ->
     (pruning_warmup_percent trainer' == 1)%Q).
Proof.
  intros self trainer.
  apply (warmup_percent_saturates self trainer 1 5).
  - reflexivity.
  - reflexivity.
  - vm_compute. discriminate.
Defined.

